(** * KBaseChallenge: fragment reconstruction over URL-encoded text

    A shallow embedding of [url_string.py], [url_suffix_tree.py] and the
    core of [main.py], followed by the properties established about them.

    Conventions of the embedding:
    - a Python [str] is a [list ascii]; the slice [s[i:j]] is [py_slice];
    - a Python exception is a value [Raise e] of the [result] type, and
      statements that may raise are sequenced with a small error monad;
    - a [dict] whose iteration order is observable (the children of a tree
      node) is an association list that keeps insertion order;
    - objects that are mutated while being aliased (the fragments during a
      stitch attempt) live in an explicit store addressed by references. *)

From Stdlib Require Import List Ascii Arith ZArith Lia Bool Sorted Permutation.
From Stdlib Require String Decimal DecimalString DecimalNat.
Import ListNotations.
Import String.StringSyntax.
Delimit Scope string_scope with string.

Set Implicit Arguments.
Set Warnings "-register-all".

(** ** Python values and exceptions *)

Definition pystr := list ascii.

Definition lit (s : String.string) : pystr := String.list_ascii_of_string s.
Arguments lit s%_string.

Inductive exn : Type :=
| IndexError
| TypeError
| ValueError
| KeyError
| UnboundLocalError
| OutOfFuel. (* not a Python exception: the run was cut short by the model *)

Inductive result (A : Type) : Type :=
| Ok (a : A)
| Raise (e : exn).

Arguments Ok {A} a.
Arguments Raise {A} e.

Definition bind {A B : Type} (m : result A) (k : A -> result B) : result B :=
  match m with
  | Ok a => k a
  | Raise e => Raise e
  end.

Notation "x <- m ;; k" := (bind m (fun x => k))
  (at level 61, m at next level, right associativity).
Notation "' p <- m ;; k" := (bind m (fun x => let p := x in k))
  (at level 61, p pattern, m at next level, right associativity).

(** [l[i]] for a non-negative index. *)
Definition py_index {A : Type} (l : list A) (i : nat) : result A :=
  match nth_error l i with
  | Some a => Ok a
  | None => Raise IndexError
  end.

(** [l[i] = v] for a non-negative index. *)
Fixpoint py_setitem {A : Type} (l : list A) (i : nat) (v : A) : result (list A) :=
  match l, i with
  | [], _ => Raise IndexError
  | _ :: tl, O => Ok (v :: tl)
  | a :: tl, S i' => tl' <- py_setitem tl i' v ;; Ok (a :: tl')
  end.

(** [s[i:j]] on a [str], either bound possibly [None]; bounds are clamped. *)
Definition py_slice {A : Type} (s : list A) (i j : option nat) : list A :=
  let upto := match j with Some j' => firstn j' s | None => s end in
  match i with Some i' => skipn i' upto | None => upto end.

Definition pystr_eqb (a b : pystr) : bool :=
  if list_eq_dec ascii_dec a b then true else false.

(** [str(n)] for a non-negative integer. *)
Definition py_str_of_nat (n : nat) : pystr :=
  lit (DecimalString.NilEmpty.string_of_uint (Nat.to_uint n)).

(** ** url_string.py *)

Definition TERMINATOR : ascii := "$"%char.
Definition PERCENT : ascii := "%"%char.

Record URLString : Type := mkURLString {
  string : pystr;
  true_positions : list nat
}.

(** The [while i < len(self.string)] loop of [update_true_positions], from
    position [i] on.  Every iteration advances [i], so [fuel] bounds the
    number of iterations left. *)
Fixpoint scan_positions (fuel : nat) (s : pystr) (i : nat) : list nat :=
  match fuel with
  | O => []
  | S fuel' =>
      if i <? length s then
        i :: (if Ascii.eqb (nth i s zero) PERCENT
              then scan_positions fuel' s (i + 2 + 1)
              else if Ascii.eqb (nth i s zero) TERMINATOR
                   then []
                   else scan_positions fuel' s (i + 1))
      else []
  end.

Definition update_true_positions (s : pystr) : list nat :=
  scan_positions (length s) s 0 ++ [length s].

(** [URLString.__init__]. *)
Definition URLString_init (s : pystr) : URLString :=
  {| string := s; true_positions := update_true_positions s |}.

(** The constructor call [URLString(s)] as seen by a caller: it either
    returns the object or propagates an exception of [__init__]. *)
Definition URLString_new (s : pystr) : result URLString :=
  Ok (URLString_init s).

(** [URLString.__len__]. *)
Definition len (u : URLString) : nat := length (true_positions u) - 1.

(** [URLString.__getitem__] with an [int] key. *)
Definition getitem (u : URLString) (key : nat) : result URLString :=
  i <- py_index (true_positions u) key ;;
  j <- py_index (true_positions u) (key + 1) ;;
  Ok (URLString_init (py_slice (string u) (Some i) (Some j))).

(** One bound of a slice key: [self.true_positions[b] if b else None]. *)
Definition slice_bound (u : URLString) (b : option nat) : result (option nat) :=
  match b with
  | None | Some O => Ok None
  | Some k => p <- py_index (true_positions u) k ;; Ok (Some p)
  end.

(** [URLString.__getitem__] with a [slice] key [start:stop]. *)
Definition getslice (u : URLString) (start stop : option nat) : result URLString :=
  i <- slice_bound u start ;;
  j <- slice_bound u stop ;;
  Ok (URLString_init (py_slice (string u) i j)).

(** The right operand of [==], [+] and [join]: a [URLString] or a [str]. *)
Inductive operand : Type :=
| OfURL (u : URLString)
| OfStr (s : pystr).

(** [URLString.__eq__]. *)
Definition URLString_eq (u : URLString) (o : operand) : bool :=
  match o with
  | OfURL v => pystr_eqb (string u) (string v)
  | OfStr s => pystr_eqb (string u) s
  end.

(** [!=], which Python derives from [__eq__]. *)
Definition URLString_ne (u : URLString) (o : operand) : bool :=
  negb (URLString_eq u o).

(** [hash(u)].  The class body defines [__eq__] and no [__hash__]; Python
    then sets [__hash__] to [None] and [hash] raises [TypeError]. *)
Definition URLString_hash (u : URLString) : result nat :=
  Raise TypeError.

(** [URLString.__add__]. *)
Definition URLString_add (u : URLString) (o : operand) : URLString :=
  match o with
  | OfURL v => URLString_init (string u ++ string v)
  | OfStr s => URLString_init (string u ++ s)
  end.

(** [URLString.join] with a [URLString] argument; the returned value is the
    state of [self] after the call. *)
Definition join (u : URLString) (join_string : URLString) (overlap : nat)
  : result URLString :=
  tl <- getslice join_string (Some overlap) None ;;
  Ok (URLString_init (string u ++ string tl)).

(** [URLString.join] with a plain [str] argument. *)
Definition join_str (u : URLString) (join_string : pystr) (overlap : nat)
  : URLString :=
  URLString_init (string u ++ py_slice join_string (Some overlap) None).

(** The tokens of [u], as the raw texts of [u[0]], ..., [u[len(u)-1]]. *)
Definition token_at (u : URLString) (k : nat) : pystr :=
  match getitem u k with
  | Ok t => string t
  | Raise _ => []
  end.

Definition tokens (u : URLString) : list pystr :=
  map (token_at u) (seq 0 (len u)).

(** ** url_suffix_tree.py *)

Definition EMPTY_URL_STRING : URLString := URLString_init [].

(** A node owns its children; [children] keeps the insertion order of the
    Python [dict], which the traversal of [main.py] observes. *)
Inductive URLSuffixTreeNode : Type :=
| Node (node_string : URLString)
       (identity : option (nat * nat))
       (children : list (pystr * URLSuffixTreeNode)).

Definition node_string (n : URLSuffixTreeNode) : URLString :=
  match n with Node s _ _ => s end.
Definition identity (n : URLSuffixTreeNode) : option (nat * nat) :=
  match n with Node _ i _ => i end.
Definition children (n : URLSuffixTreeNode) : list (pystr * URLSuffixTreeNode) :=
  match n with Node _ _ c => c end.

(** [URLSuffixTreeNode()]. *)
Definition empty_node : URLSuffixTreeNode := Node EMPTY_URL_STRING None [].

(** [k in d] and [d[k]]. *)
Fixpoint dict_get {V : Type} (d : list (pystr * V)) (k : pystr) : option V :=
  match d with
  | [] => None
  | (k', v) :: tl => if pystr_eqb k k' then Some v else dict_get tl k
  end.

(** [d[k] = v]: an existing key keeps its place, a new key goes last. *)
Fixpoint dict_set {V : Type} (d : list (pystr * V)) (k : pystr) (v : V)
  : list (pystr * V) :=
  match d with
  | [] => [(k, v)]
  | (k', v') :: tl =>
      if pystr_eqb k k' then (k', v) :: tl else (k', v') :: dict_set tl k v
  end.

(** [URLSuffixTreeNode.split]; the result is the node after the mutation. *)
Definition split (self : URLSuffixTreeNode) (split_point : Z)
    (new_back_string : URLString) (new_identity : option (nat * nat))
  : result URLSuffixTreeNode :=
  if (split_point <=? 0)%Z then
    k <- getitem new_back_string 0 ;;
    Ok (Node (node_string self) (identity self)
             (dict_set (children self) (string k)
                       (Node new_back_string new_identity [])))
  else
    front_string <- getslice (node_string self) None (Some (Z.to_nat split_point)) ;;
    old_back_string <- getslice (node_string self) (Some (Z.to_nat split_point)) None ;;
    let old_node := Node old_back_string (identity self) (children self) in
    let new_node := Node new_back_string new_identity [] in
    k_old <- getitem old_back_string 0 ;;
    k_new <- getitem new_back_string 0 ;;
    Ok (Node front_string None
             (dict_set [(string k_old, old_node)] (string k_new) new_node)).

(** The second half of the body of the [for c in range(len(suffix))] loop
    of [insert]: split and [break] on a mismatch, otherwise go on with the
    next iteration, which is [next]. *)
Definition split_or_advance
    (next : URLSuffixTreeNode -> Z -> result URLSuffixTreeNode)
    (suffix : URLString) (str_id : nat * nat) (c : nat)
    (cur_node : URLSuffixTreeNode) (index : Z)
  : result URLSuffixTreeNode :=
  differs <- (if (index =? -1)%Z then Ok true
              else tok <- getitem suffix c ;;
                   lab <- getitem (node_string cur_node) (Z.to_nat index) ;;
                   Ok (URLString_ne tok (OfURL lab))) ;;
  if (differs : bool) then
    back <- getslice suffix (Some c) None ;;
    split cur_node index back (Some str_id)
  else next cur_node (index + 1)%Z.

(** The [for c in range(len(suffix))] loop of [insert], entered at iteration
    [c] with [cur_node] and [index]; [todo] is the number of iterations left.
    The result is [cur_node] after the loop: a descent into a child rebuilds
    the child in place under its key. *)
Fixpoint insert_walk (todo : nat) (suffix : URLString) (str_id : nat * nat)
    (cur_node : URLSuffixTreeNode) (index : Z) (c : nat)
  : result URLSuffixTreeNode :=
  match todo with
  | O => Ok cur_node
  | S todo' =>
      let next := fun n i => insert_walk todo' suffix str_id n i (S c) in
      if (index =? Z.of_nat (len (node_string cur_node)))%Z then
        tok <- getitem suffix c ;;
        match dict_get (children cur_node) (string tok) with
        | Some child =>
            child' <- split_or_advance next suffix str_id c child 0%Z ;;
            Ok (Node (node_string cur_node) (identity cur_node)
                     (dict_set (children cur_node) (string tok) child'))
        | None => split_or_advance next suffix str_id c cur_node (-1)%Z
        end
      else split_or_advance next suffix str_id c cur_node index
  end.

(** [URLSuffixTree.insert] on the tree rooted at [root]; [depth] bounds the
    depth of the recursion on the successive suffixes. *)
Fixpoint insert_rec (depth : nat) (min_suffix_len : nat)
    (root : URLSuffixTreeNode) (s : URLString) (str_id : nat * nat)
  : result URLSuffixTreeNode :=
  if len s <? min_suffix_len then Ok root
  else
    match depth with
    | O => Raise OutOfFuel
    | S depth' =>
        let suffix :=
          URLString_add s (OfStr (TERMINATOR :: py_str_of_nat (fst str_id))) in
        root' <- insert_walk (len suffix) suffix str_id root 0%Z 0 ;;
        rest <- getslice s (Some 1) None ;;
        insert_rec depth' min_suffix_len root' rest (fst str_id, snd str_id + 1)
    end.

Record URLSuffixTree : Type := mkTree {
  root : URLSuffixTreeNode;
  min_suffix_len : nat
}.

(** [URLSuffixTree(min_suffix_len)]. *)
Definition URLSuffixTree_init (m : nat) : URLSuffixTree :=
  {| root := empty_node; min_suffix_len := m |}.

(** [URLSuffixTree.insert]: every call on a suffix drops one token, so
    [len s + 1] nested calls are enough. *)
Definition insert (t : URLSuffixTree) (s : URLString) (str_id : nat * nat)
  : result URLSuffixTree :=
  r <- insert_rec (S (len s)) (min_suffix_len t) (root t) s str_id ;;
  Ok {| root := r; min_suffix_len := min_suffix_len t |}.

(** ** main.py *)

Definition MIN_OVERLAP : nat := 3.

(** An entry of [join_array]: the placeholder [0] it is created with, or
    the list of matches the traversal stored. *)
Inductive cell : Type :=
| Zero
| Matches (l : list (nat * URLString)).

(** [len(x)] on an entry of [join_array]. *)
Definition cell_len (x : cell) : result nat :=
  match x with
  | Zero => Raise TypeError
  | Matches l => Ok (length l)
  end.

(** [[key for key in keys if key[0] == TERMINATOR]]. *)
Fixpoint terminator_keys (keys : list pystr) : result (list pystr) :=
  match keys with
  | [] => Ok []
  | key :: tl =>
      match key with
      | [] => Raise IndexError
      | ch :: _ =>
          rest <- terminator_keys tl ;;
          Ok (if Ascii.eqb ch TERMINATOR then key :: rest else rest)
      end
  end.

(** The [for t in range(len(term))] loop of [dfs_join]; returns the stack
    and the number of entries pushed. *)
Fixpoint push_matches (node_children : list (pystr * URLSuffixTreeNode))
    (path : URLString) (term : list pystr) (match_stack : list (nat * URLString))
  : result (list (nat * URLString) * nat) :=
  match term with
  | [] => Ok (match_stack, 0)
  | key :: tl =>
      match dict_get node_children key with
      | None => Raise KeyError
      | Some child =>
          match identity child with
          | None => Raise TypeError
          | Some (frag, offset) =>
              if negb (offset =? 0) then
                '(stack, pushed) <- push_matches node_children path tl
                                      (match_stack ++ [(frag, path)]) ;;
                Ok (stack, S pushed)
              else push_matches node_children path tl match_stack
          end
      end
  end.

(** The [while stack_pushed > 0] loop of [dfs_join]. *)
Fixpoint pop_matches (stack_pushed : nat) (match_stack : list (nat * URLString))
  : result (list (nat * URLString)) :=
  match stack_pushed with
  | O => Ok match_stack
  | S n =>
      match match_stack with
      | [] => Raise IndexError
      | _ => pop_matches n (removelast match_stack)
      end
  end.

(** The [for child in node.children.values()] loop of [dfs_join], with the
    recursive call as [dfs]. *)
Definition visit_children
    (dfs : URLSuffixTreeNode -> URLString -> list (nat * URLString) -> list cell ->
           result (list (nat * URLString) * list cell))
    (path : URLString)
  : list (pystr * URLSuffixTreeNode) -> list (nat * URLString) -> list cell ->
    result (list (nat * URLString) * list cell) :=
  fix visit cs match_stack join_array :=
    match cs with
    | [] => Ok (match_stack, join_array)
    | (_, child) :: tl =>
        '(match_stack', join_array') <-
           dfs child (URLString_add path (OfURL (node_string child)))
               match_stack join_array ;;
        visit tl match_stack' join_array'
    end.

(** The body of [dfs_join] below the test for a node that stands for a whole
    fragment. *)
Definition dfs_inner
    (dfs : URLSuffixTreeNode -> URLString -> list (nat * URLString) -> list cell ->
           result (list (nat * URLString) * list cell))
    (node_children : list (pystr * URLSuffixTreeNode)) (path : URLString)
    (match_stack : list (nat * URLString)) (join_array : list cell)
  : result (list (nat * URLString) * list cell) :=
  term <- terminator_keys (map fst node_children) ;;
  '(stack, stack_pushed) <-
     (match term with
      | _ :: _ =>
          if MIN_OVERLAP <=? len path
          then push_matches node_children path term match_stack
          else Ok (match_stack, 0)
      | [] => Ok (match_stack, 0)
      end) ;;
  '(stack', join_array') <- visit_children dfs path node_children stack join_array ;;
  stack'' <- pop_matches stack_pushed stack' ;;
  Ok (stack'', join_array').

(** [dfs_join]; the result is the pair of [match_stack] and [join_array]
    after the call. *)
Fixpoint dfs_join (node : URLSuffixTreeNode) (path : URLString)
    (match_stack : list (nat * URLString)) (join_array : list cell)
  : result (list (nat * URLString) * list cell) :=
  match node with
  | Node _ (Some (frag, O)) _ =>
      join_array' <- py_setitem join_array frag (Matches match_stack) ;;
      Ok (match_stack, join_array')
  | Node _ _ node_children =>
      dfs_inner dfs_join node_children path match_stack join_array
  end.

(** The mutable arrays shared by all the calls of one [stitch] search. *)
Record search_state : Type := mkState {
  seen_array : list nat;
  stitchings : list Z;
  overlaps : list nat
}.

(** The three arrays as [reconstruct] creates them: [[0] * n]. *)
Definition fresh_state (n : nat) : search_state :=
  {| seen_array := repeat 0 n; stitchings := repeat 0%Z n; overlaps := repeat 0 n |}.

(** [stitch_attempt]: a list of references into a store of [URLString]
    objects, so that [stitch_attempt[next] = stitch_attempt[cur]] aliases. *)
Record attempt : Type := mkAttempt {
  store : list URLString;
  refs : list nat
}.

(** [copy.deepcopy(fragments)] for a list of pairwise distinct objects. *)
Definition deepcopy (fragments : list URLString) : attempt :=
  {| store := fragments; refs := seq 0 (length fragments) |}.

(** [l.index(v)]; [None] stands for the [ValueError] the caller catches. *)
Fixpoint list_index (l : list Z) (v : Z) : option nat :=
  match l with
  | [] => None
  | x :: tl => if (x =? v)%Z then Some 0 else option_map S (list_index tl v)
  end.

(** The [while cur_index is not None] loop of the stitch attempt. *)
Fixpoint trace (fuel : nat) (stitchings : list Z) (overlaps : list nat)
    (a : attempt) (cur_index : Z) : result attempt :=
  match fuel with
  | O => Raise OutOfFuel
  | S fuel' =>
      match list_index stitchings cur_index with
      | None => Ok a
      | Some cur =>
          match list_index stitchings (Z.of_nat cur) with
          | None => Ok a
          | Some next =>
              rc <- py_index (refs a) cur ;;
              self <- py_index (store a) rc ;;
              rn <- py_index (refs a) next ;;
              other <- py_index (store a) rn ;;
              overlap <- py_index overlaps next ;;
              self' <- join self other overlap ;;
              store' <- py_setitem (store a) rc self' ;;
              refs' <- py_setitem (refs a) next rc ;;
              trace fuel' stitchings overlaps
                    {| store := store'; refs := refs' |} (Z.of_nat cur)
          end
      end
  end.

(** [stitch_attempt.count(stitch_attempt[0])], with [==] on [URLString]. *)
Fixpoint count_equal (a : attempt) (first : URLString) (rs : list nat) : result nat :=
  match rs with
  | [] => Ok 0
  | r :: tl =>
      x <- py_index (store a) r ;;
      n <- count_equal a first tl ;;
      Ok (if URLString_eq x (OfURL first) then S n else n)
  end.

(** The truth value of a [stitch] result: [None] and [''] are false. *)
Definition truthy (r : option pystr) : bool :=
  match r with
  | Some (_ :: _) => true
  | _ => false
  end.

(** Stable sort of [search] by precomputed keys, as [list.sort(key=...)]. *)
Fixpoint sort_insert (x : nat * nat) (l : list (nat * nat)) : list (nat * nat) :=
  match l with
  | [] => [x]
  | y :: tl => if fst x <=? fst y then x :: l else y :: sort_insert x tl
  end.

Definition sort_keyed (l : list (nat * nat)) : list (nat * nat) :=
  fold_right sort_insert [] l.

Fixpoint map_result {A B : Type} (f : A -> result B) (l : list A) : result (list B) :=
  match l with
  | [] => Ok []
  | a :: tl => b <- f a ;; bs <- map_result f tl ;; Ok (b :: bs)
  end.

(** [search = list(range(n)); search.sort(key=lambda x: len(join_array[x]))]. *)
Definition sorted_search (join_array : list cell) (n : nat) : result (list nat) :=
  keys <- map_result (fun x => c <- py_index join_array x ;; cell_len c) (seq 0 n) ;;
  Ok (map snd (sort_keyed (combine keys (seq 0 n)))).

(** [str.rstrip()]: drops the trailing white space. *)
Definition isspace (c : ascii) : bool :=
  let n := nat_of_ascii c in
  ((9 <=? n) && (n <=? 13)) || ((28 <=? n) && (n <=? 32)) || (n =? 133) || (n =? 160).

Fixpoint lstrip (s : pystr) : pystr :=
  match s with
  | c :: tl => if isspace c then lstrip tl else s
  | [] => []
  end.

Definition rstrip (s : pystr) : pystr := rev (lstrip (rev s)).

Section Main.

(** [urllib.parse.unquote_plus], a function of the Python library. *)
Variable unquote_plus : pystr -> pystr.

(** [URLString.to_convention_text]. *)
Definition to_convention_text (u : URLString) : pystr := unquote_plus (string u).

(** The base case of [stitch]: the attempt made once [stitchings] is full. *)
Definition stitch_attempt (stitchings : list Z) (overlaps : list nat)
    (fragments : list URLString) : result (option pystr) :=
  a <- trace (S (length stitchings)) stitchings overlaps (deepcopy fragments) (-1)%Z ;;
  r0 <- py_index (refs a) 0 ;;
  first <- py_index (store a) r0 ;;
  n <- count_equal a first (refs a) ;;
  if n =? length (refs a) then Ok (Some (to_convention_text first)) else Ok None.

(** The [for i in range(len(join_array[search[index]]))] loop of [stitch]
    over the candidates of fragment [target], read back to front; [next] is
    the recursive call [stitch(join_array, index + 1, ...)]. *)
Definition try_candidates
    (next : search_state -> result (option pystr * search_state)) (target : nat)
  : list (nat * URLString) -> search_state -> result (option pystr * search_state) :=
  fix try cands st :=
    match cands with
    | [] => Ok (None, st)
    | (pred, text) :: tl =>
        seen <- py_index (seen_array st) pred ;;
        if negb (seen =? 0) then try tl st
        else
          stitchings' <- py_setitem (stitchings st) target (Z.of_nat pred) ;;
          overlaps' <- py_setitem (overlaps st) target (len text) ;;
          seen' <- py_setitem (seen_array st) pred 1 ;;
          '(r, st') <- next (mkState seen' stitchings' overlaps') ;;
          if truthy r then Ok (r, st')
          else
            unseen <- py_setitem (seen_array st') pred 0 ;;
            try tl (mkState unseen (stitchings st') (overlaps st'))
    end.

(** [stitch]; the result is the returned value and the arrays after the
    call.  [depth] bounds the depth of the recursion on [index]. *)
Fixpoint stitch (depth : nat) (join_array : list cell) (index : nat)
    (search : list nat) (st : search_state) (fragments : list URLString)
  : result (option pystr * search_state) :=
  if index =? length join_array then
    r <- stitch_attempt (stitchings st) (overlaps st) fragments ;;
    Ok (r, st)
  else
    match depth with
    | O => Raise OutOfFuel
    | S depth' =>
        target <- py_index search index ;;
        entry <- py_index join_array target ;;
        match entry with
        | Zero => Raise TypeError
        | Matches [] =>
            stitchings' <- py_setitem (stitchings st) target (-1)%Z ;;
            '(r, st') <- stitch depth' join_array (index + 1) search
                           (mkState (seen_array st) stitchings' (overlaps st))
                           fragments ;;
            Ok (if truthy r then r else None, st')
        | Matches matches =>
            try_candidates
              (fun st' => stitch depth' join_array (index + 1) search st' fragments)
              target (rev matches) st
        end
    end.

(** Step 1 of [reconstruct]: the [for i, frag in enumerate(file_object)]
    loop, entered at iteration [i]. *)
Fixpoint build_index (file_object : list pystr) (i : nat)
    (fragments : list URLString) (suffix_tree : URLSuffixTree)
  : result (list URLString * URLSuffixTree) :=
  match file_object with
  | [] => Ok (fragments, suffix_tree)
  | frag :: tl =>
      let fragments' := fragments ++ [URLString_init (rstrip frag)] in
      f <- py_index fragments' i ;;
      suffix_tree' <- insert suffix_tree (URLString_init (string f)) (i, 0) ;;
      build_index tl (S i) fragments' suffix_tree'
  end.

(** [[x for x in join_array if len(x) == 0]]. *)
Fixpoint empty_entries (join_array : list cell) : result (list cell) :=
  match join_array with
  | [] => Ok []
  | x :: tl =>
      n <- cell_len x ;;
      rest <- empty_entries tl ;;
      Ok (if n =? 0 then x :: rest else rest)
  end.

(** One search over [join_array]: the statements from [search = ...] to
    [result = stitch(...)] that both branches of step 3 share. *)
Definition run_search (join_array : list cell) (fragments : list URLString)
  : result (option pystr) :=
  search <- sorted_search join_array (length fragments) ;;
  '(r, _) <- stitch (length join_array) join_array 0 search
               (fresh_state (length fragments)) fragments ;;
  Ok r.

(** One iteration of the fallback loop up to [result = stitch(...)]: the
    search with the candidate list of fragment [j] forced to be empty. *)
Definition forced_attempt (join_array : list cell) (fragments : list URLString)
    (j : nat) : result (option pystr) :=
  join_array_copy <- py_setitem join_array j (Matches []) ;;
  run_search join_array_copy fragments.

(** The [for j in range(len(join_array))] loop of the fallback branch.
    [result_var] is the local variable [result], unbound before the first
    iteration. *)
Fixpoint forced_heads (js : list nat) (result_var : option (option pystr))
    (join_array : list cell) (fragments : list URLString)
  : result (option (option pystr)) :=
  match js with
  | [] => Ok result_var
  | j :: tl =>
      r <- forced_attempt join_array fragments j ;;
      if truthy r then Ok (Some r)
      else forced_heads tl (Some r) join_array fragments
  end.

(** Step 3 of [reconstruct], up to the value that is printed and returned. *)
Definition assemble (join_array : list cell) (fragments : list URLString)
  : result (option pystr) :=
  empties <- empty_entries join_array ;;
  match empties with
  | _ :: _ => run_search join_array fragments
  | [] =>
      result_var <- forced_heads (seq 0 (length join_array)) None join_array fragments ;;
      match result_var with
      | None => Raise UnboundLocalError
      | Some r => Ok r
      end
  end.

(** Steps 1 and 2 of [reconstruct]: the fragments and their candidate lists. *)
Definition candidate_lists (file_object : list pystr)
  : result (list URLString * list cell) :=
  '(fragments, suffix_tree) <- build_index file_object 0 [] (URLSuffixTree_init MIN_OVERLAP) ;;
  '(_, join_array) <- dfs_join (root suffix_tree) (node_string (root suffix_tree)) []
                        (repeat Zero (length fragments)) ;;
  Ok (fragments, join_array).

(** [reconstruct] on the lines of the opened file. *)
Definition reconstruct (file_object : list pystr) : result (option pystr) :=
  '(fragments, join_array) <- candidate_lists file_object ;;
  assemble join_array fragments.

End Main.

(** The part of [unquote_plus] that the examples below run: [+] becomes a
    space and [%XX] with two hexadecimal digits becomes the character of
    that code; it agrees with the library for codes below 128. *)
Definition hex_value (c : ascii) : option nat :=
  let n := nat_of_ascii c in
  if (48 <=? n) && (n <=? 57) then Some (n - 48)
  else if (65 <=? n) && (n <=? 70) then Some (n - 55)
  else if (97 <=? n) && (n <=? 102) then Some (n - 87)
  else None.

Fixpoint unquote_plus_ascii (s : pystr) : pystr :=
  match s with
  | [] => []
  | c :: tl =>
      if Ascii.eqb c "+"%char then " "%char :: unquote_plus_ascii tl
      else if Ascii.eqb c PERCENT then
        match tl with
        | h :: l :: tl' =>
            match hex_value h, hex_value l with
            | Some a, Some b => ascii_of_nat (16 * a + b) :: unquote_plus_ascii tl'
            | _, _ => c :: unquote_plus_ascii tl
            end
        | _ => c :: tl
        end
      else c :: unquote_plus_ascii tl
  end.

(** ** The token view used in the proofs

    [toks s] cuts a raw text into its tokens by recursion on the text;
    [bounds] lists the boundaries of a list of tokens.  They are related to
    [update_true_positions] by [true_positions_bounds] below. *)

Fixpoint toks (s : pystr) : list pystr :=
  match s with
  | [] => []
  | c :: tl =>
      if Ascii.eqb c PERCENT then
        match tl with
        | a :: b :: tl' => [c; a; b] :: toks tl'
        | _ => [s]
        end
      else if Ascii.eqb c TERMINATOR then [s]
      else [c] :: toks tl
  end.

Fixpoint bounds (start : nat) (l : list pystr) : list nat :=
  match l with
  | [] => [start]
  | x :: tl => start :: bounds (start + length x) tl
  end.

(** A text is terminated when one of its tokens starts with [TERMINATOR]. *)
Definition starts_with_terminator (x : pystr) : bool :=
  match x with
  | c :: _ => Ascii.eqb c TERMINATOR
  | [] => false
  end.

(** ** Well-formed escapes

    A token that starts with [%] is a complete escape when it is made of
    the [%] and two hexadecimal digits. *)

Definition starts_with_percent (x : pystr) : bool :=
  match x with
  | c :: _ => Ascii.eqb c PERCENT
  | [] => false
  end.

Definition is_hex (c : ascii) : bool :=
  match hex_value c with Some _ => true | None => false end.

Definition complete_escape (x : pystr) : bool :=
  match x with
  | [_; a; b] => is_hex a && is_hex b
  | _ => false
  end.

(** A token is malformed when it starts with [%] and is not a complete
    escape: the text ended early or the two characters are not digits. *)
Definition malformed_token (x : pystr) : bool :=
  starts_with_percent x && negb (complete_escape x).

Definition malformed (s : pystr) : bool :=
  existsb malformed_token (tokens (URLString_init s)).

(** No token that starts with [%] is cut short. *)
Definition whole_escapes (s : pystr) : Prop :=
  Forall (fun x => starts_with_percent x = true -> length x = 3)
         (tokens (URLString_init s)).

(** ** Invariant of the suffix tree

    [sound_node n] holds when, in the tree below [n], every edge label is a
    tokenized text, a node without identity has no token that starts with
    the terminator in its label, and every child has a non-empty label and
    is filed under the raw text of the first token of that label. *)

Definition filed_under (key : pystr) (child : URLSuffixTreeNode) : Prop :=
  0 < len (node_string child) /\ key = token_at (node_string child) 0.

Inductive sound_node : URLSuffixTreeNode -> Prop :=
| sound_intro (s : URLString) (ident : option (nat * nat))
      (cs : list (pystr * URLSuffixTreeNode)) :
    s = URLString_init (string s) ->
    (ident = None ->
     Forall (fun x => starts_with_terminator x = false) (tokens s)) ->
    Forall (fun kc => filed_under (fst kc) (snd kc) /\ sound_node (snd kc)) cs ->
    sound_node (Node s ident cs).

(** [subnode n m]: [n] is [m] or a node below it. *)
Inductive subnode (n : URLSuffixTreeNode) : URLSuffixTreeNode -> Prop :=
| subnode_here : subnode n n
| subnode_below (m : URLSuffixTreeNode) (key : pystr) (child : URLSuffixTreeNode) :
    In (key, child) (children m) -> subnode n child -> subnode n m.

(** The trees that a sequence of insertions builds from the empty tree. *)
Inductive reachable : URLSuffixTree -> Prop :=
| reachable_init (m : nat) : reachable (URLSuffixTree_init m)
| reachable_insert (t t' : URLSuffixTree) (s : URLString) (str_id : nat * nat) :
    reachable t -> insert t s str_id = Ok t' -> reachable t'.

(** ** Example trees

    The index after ["ABCDEF"] has been inserted as fragment 0, then after
    ["CDEFGH"] has been inserted as fragment 1, and the node of the second
    tree reached from the root by the edge filed under ["C"]. *)

Definition tree_of (r : result URLSuffixTree) : URLSuffixTree :=
  match r with
  | Ok t => t
  | Raise _ => URLSuffixTree_init MIN_OVERLAP
  end.

Definition example_tree_1 : URLSuffixTree :=
  Eval vm_compute in
    tree_of (insert (URLSuffixTree_init MIN_OVERLAP) (URLString_init (lit "ABCDEF")) (0, 0)).

Definition example_tree_2 : URLSuffixTree :=
  Eval vm_compute in
    tree_of (insert example_tree_1 (URLString_init (lit "CDEFGH")) (1, 0)).

Definition example_node : URLSuffixTreeNode :=
  Eval vm_compute in
    match dict_get (children (root example_tree_2)) (lit "C") with
    | Some n => n
    | None => empty_node
    end.

(** [x is None] on an identity. *)
Definition is_none {A : Type} (o : option A) : bool :=
  match o with None => true | Some _ => false end.

(** ** Order of a candidate list *)

(** The overlap, in tokens, that a candidate stands for. *)
Definition overlap_of (m : nat * URLString) : nat := len (snd m).

(** Every entry overlaps at most as much as each later entry. *)
Definition ascending (l : list (nat * URLString)) : Prop :=
  StronglySorted (fun a b => overlap_of a <= overlap_of b) l.

(** Every entry overlaps at least as much as each later entry. *)
Definition descending (l : list (nat * URLString)) : Prop :=
  StronglySorted (fun a b => overlap_of b <= overlap_of a) l.

Definition cell_ascending (c : cell) : Prop :=
  match c with
  | Zero => True
  | Matches l => ascending l /\ descending (rev l)
  end.

(** ** The index as a set of suffixes

    A clean token is a character other than [%] and the terminator, or a
    [%] with the two characters after it.  [entries n] lists what the tree
    below [n] stores: for every node with an identity, the tokens spelled
    from [n] down to it, and the identity.  [trie n] is the shape the
    insertions keep for texts made of clean tokens: identities sit on
    leaves whose label ends with the only terminator token, other labels are
    clean, and the children of a node start with pairwise distinct tokens,
    under which they are filed. *)

Definition clean_token (x : pystr) : bool :=
  match x with
  | [c] => negb (Ascii.eqb c PERCENT) && negb (Ascii.eqb c TERMINATOR)
  | [c; _; _] => Ascii.eqb c PERCENT
  | _ => false
  end.

(** The token [TERMINATOR + str(frag)] that ends the suffixes of [frag]. *)
Definition terminator_token (frag : nat) : pystr :=
  TERMINATOR :: py_str_of_nat frag.

Definition label (n : URLSuffixTreeNode) : list pystr :=
  toks (string (node_string n)).

Definition under (prefix : list pystr) (e : list pystr * (nat * nat))
  : list pystr * (nat * nat) :=
  (prefix ++ fst e, snd e).

Fixpoint entries (n : URLSuffixTreeNode) : list (list pystr * (nat * nat)) :=
  match n with
  | Node s ident cs =>
      (match ident with
       | Some id => [(toks (string s), id)]
       | None => []
       end)
      ++ flat_map (fun kc => map (under (toks (string s))) (entries (snd kc))) cs
  end.

Inductive trie : URLSuffixTreeNode -> Prop :=
| trie_intro (s : URLString) (ident : option (nat * nat))
      (cs : list (pystr * URLSuffixTreeNode)) :
    s = URLString_init (string s) ->
    match ident with
    | Some _ =>
        cs = [] /\
        exists l t, toks (string s) = l ++ [t] /\
                    Forall (fun x => clean_token x = true) l /\
                    starts_with_terminator t = true
    | None => Forall (fun x => clean_token x = true) (toks (string s))
    end ->
    NoDup (map fst cs) ->
    Forall (fun kc => (exists rest, label (snd kc) = fst kc :: rest) /\ trie (snd kc)) cs ->
    trie (Node s ident cs).

(** What the insertion walk achieves when it is entered at token [c] of the
    suffix [suffix_tokens] with [i] tokens of the label of [cur] matched:
    [cur'] is a trie that stores what [cur] stored and the rest of the
    suffix, and keeps the first token of its label. *)
Definition walked (suffix_tokens : list pystr) (id : nat * nat)
    (cur : URLSuffixTreeNode) (i c : nat) (cur' : URLSuffixTreeNode) : Prop :=
  trie cur' /\
  (forall e, In e (entries cur') <->
             In e (entries cur) \/
             e = (firstn i (label cur) ++ skipn c suffix_tokens, id)) /\
  (forall x rest, label cur = x :: rest -> exists rest', label cur' = x :: rest') /\
  (label cur = [] -> label cur' = []).

(** What the index holds once the fragments [frs], given as lists of
    tokens, are inserted: for fragment number [p] and every offset [j] that
    leaves at least [MIN_OVERLAP] tokens, the suffix from token [j] on,
    closed by the terminator token of [p], with the identity [(p, j)]. *)
Definition indexed (frs : list (list pystr)) (e : list pystr * (nat * nat)) : Prop :=
  exists p F j,
    nth_error frs p = Some F /\ j + MIN_OVERLAP <= length F /\
    e = (skipn j F ++ [terminator_token p], (p, j)).

(** The fragment objects of a list of fragments given by their tokens. *)
Definition fragment_objects (frs : list (list pystr)) : list URLString :=
  map (fun F => URLString_init (concat F)) frs.

(** ** The traversal as a list of writes

    [pushed cs path] is what [dfs_join] pushes at a node with children [cs]
    and path [path]; [writes node path stack] lists, in order, the
    assignments [join_array[f] = match_stack[:]] that the traversal of the
    tree below [node] performs; [apply_writes] performs them. *)

Definition pushed (cs : list (pystr * URLSuffixTreeNode)) (path : URLString)
  : list (nat * URLString) :=
  flat_map (fun kc =>
              if starts_with_terminator (fst kc) then
                match identity (snd kc) with
                | Some (g, S _) => [(g, path)]
                | _ => []
                end
              else []) cs.

Fixpoint writes (node : URLSuffixTreeNode) (path : URLString)
    (stack : list (nat * URLString)) : list (nat * list (nat * URLString)) :=
  match node with
  | Node _ (Some (f, O)) _ => [(f, stack)]
  | Node _ _ cs =>
      flat_map (fun kc =>
                  writes (snd kc) (URLString_add path (OfURL (node_string (snd kc))))
                         (stack ++ if MIN_OVERLAP <=? len path then pushed cs path else []))
               cs
  end.

Fixpoint set_nth {A : Type} (l : list A) (i : nat) (v : A) : list A :=
  match l, i with
  | [], _ => []
  | _ :: tl, O => v :: tl
  | a :: tl, S i' => a :: set_nth tl i' v
  end.

Definition apply_writes (ja : list cell) (ws : list (nat * list (nat * URLString)))
  : list cell :=
  fold_left (fun ja w => set_nth ja (fst w) (Matches (snd w))) ws ja.

(** [explains Q n stack e snap]: [snap], written for the leaf of entry [e]
    of the tree [n] that hangs below the tokens [Q], is [stack] followed by
    exactly the candidates met on the way down to that leaf: each stands for
    a stored proper suffix [R] of some fragment [g], at least [MIN_OVERLAP]
    tokens long, that is a prefix of the path of [e]; and every such suffix
    that ends at or below [n] is among them. *)
Definition explains (Q : list pystr) (n : URLSuffixTreeNode)
    (stack : list (nat * URLString)) (e : list pystr * (nat * nat))
    (snap : list (nat * URLString)) : Prop :=
  exists extra,
    snap = stack ++ extra /\
    (forall g u, In (g, u) extra ->
       exists R t off rest,
         u = URLString_init (concat R) /\ MIN_OVERLAP <= length R /\
         Forall (fun x => clean_token x = true) R /\
         In (R ++ [t], (g, S off)) (map (under Q) (entries n)) /\
         Q ++ fst e = R ++ rest) /\
    (forall R t g off rest,
       In (R ++ [t], (g, S off)) (map (under Q) (entries n)) ->
       starts_with_terminator t = true ->
       Q ++ fst e = R ++ rest -> rest <> [t] ->
       MIN_OVERLAP <= length R -> length (Q ++ label n) <= length R ->
       In (g, URLString_init (concat R)) extra).

(** [overlaps_by G F k]: the last [k] tokens of [G], a proper suffix of at
    least [MIN_OVERLAP] tokens, are the first [k] tokens of [F]. *)
Definition overlaps_by (G F : list pystr) (k : nat) : Prop :=
  MIN_OVERLAP <= k /\ k < length G /\ k <= length F /\
  skipn (length G - k) G = firstn k F.

(** The candidate list [snap] of fragment [F] among the fragments [frs]
    holds exactly the overlaps into [F]. *)
Definition lists_overlaps (frs : list (list pystr)) (F : list pystr)
    (snap : list (nat * URLString)) : Prop :=
  (forall g u, In (g, u) snap ->
     exists G, nth_error frs g = Some G /\ overlaps_by G F (len u)) /\
  (forall g G k, nth_error frs g = Some G -> overlaps_by G F k ->
     exists u, In (g, u) snap /\ len u = k).

(** ** Chains of fragments

    [order] lists the positions, in the input list, of the fragments in the
    order of the source text, and [ks] the overlap of each with the one
    before it (0 for the first).  [merge_chain] is the text they spell when
    each is appended without its overlap; [follows_chain] says that the
    arrays of an assignment give every fragment its predecessor in the chain
    ([-1] for the first) and the overlap with it. *)

Fixpoint merge_chain (frs : list (list pystr)) (order ks : list nat) : list pystr :=
  match order, ks with
  | p :: order', k :: ks' => skipn k (nth p frs []) ++ merge_chain frs order' ks'
  | _, _ => []
  end.

Definition follows_chain (order ks : list nat) (stitchings : list Z)
    (overlaps : list nat) : Prop :=
  (forall h, nth_error order 0 = Some h -> nth_error stitchings h = Some (-1)%Z) /\
  (forall i q p, nth_error order i = Some q -> nth_error order (S i) = Some p ->
     nth_error stitchings p = Some (Z.of_nat q) /\
     nth_error overlaps p = Some (nth (S i) ks 0)).

(** The state of a stitch attempt once the first [i + 1] fragments of the
    chain are merged into the object of the first one, [h]: their entries
    of [stitch_attempt] point to that object, which holds the merged text,
    and every other entry points to its own, untouched, fragment. *)
Definition merged_upto (frs : list (list pystr)) (order ks : list nat)
    (i h : nat) (a : attempt) : Prop :=
  length (refs a) = length frs /\ length (store a) = length frs /\
  (forall j p, nth_error order j = Some p ->
     nth_error (refs a) p = Some (if j <=? i then h else p)) /\
  nth_error (store a) h
  = Some (URLString_init
            (concat (merge_chain frs (firstn (S i) order) (firstn (S i) ks)))) /\
  (forall p, p <> h -> nth_error (store a) p = nth_error (fragment_objects frs) p).

(** ** The search for an assignment

    [placed] says that the arrays give fragment [p] its place in the chain;
    [search_inv] is what holds when [stitch] is entered at [index] after
    taking, for every earlier fragment of [search], its predecessor in the
    chain: those fragments are placed, and a fragment is flagged in
    [seen_array] only as the predecessor of one of them. *)
Definition placed (order ks : list nat) (st : search_state) (p : nat) : Prop :=
  forall i, nth_error order i = Some p ->
    match i with
    | O => nth_error (stitchings st) p = Some (-1)%Z
    | S i' => exists q, nth_error order i' = Some q /\
                nth_error (stitchings st) p = Some (Z.of_nat q) /\
                nth_error (overlaps st) p = Some (nth i ks 0)
    end.

Definition search_inv (order ks search : list nat) (n index : nat)
    (st : search_state) : Prop :=
  length (seen_array st) = n /\ length (stitchings st) = n /\
  length (overlaps st) = n /\
  (forall j p, j < index -> nth_error search j = Some p -> placed order ks st p) /\
  (forall q, q < n -> nth_error (seen_array st) q <> Some 0 ->
     exists j i p, j < index /\ nth_error search j = Some p /\
       nth_error order (S i) = Some p /\ nth_error order i = Some q).

(** ** Splits of a source text

    A source text is a list [T] of tokens; a split is a list of cuts
    [(a, b)], each standing for the fragment [T[a:b]], in the order of the
    source. *)
Definition piece (T : list pystr) (c : nat * nat) : list pystr :=
  firstn (snd c - fst c) (skipn (fst c) T).

(** The overlap of each fragment but the first with the one before it. *)
Fixpoint overlap_sizes (cuts : list (nat * nat)) : list nat :=
  match cuts with
  | c :: (c' :: _) as tl => (snd c - fst c') :: overlap_sizes tl
  | _ => []
  end.

(** Every fragment but the first starts after the start of the one before
    it, ends no earlier than it, and shares at least [MIN_OVERLAP] tokens
    with it. *)
Fixpoint adjacent_ok (cuts : list (nat * nat)) : bool :=
  match cuts with
  | c :: (c' :: _) as tl =>
      (fst c <? fst c') && (snd c <=? snd c') && (fst c' + MIN_OVERLAP <=? snd c)
      && adjacent_ok tl
  | _ => true
  end.

(** The cuts cover [T] from its first token to its last, every fragment has
    at least [MIN_OVERLAP] tokens, and adjacent fragments overlap. *)
Definition is_split (T : list pystr) (cuts : list (nat * nat)) : bool :=
  match cuts with
  | [] => false
  | c :: _ => fst c =? 0
  end
  && (snd (last cuts (0, 0)) =? length T)
  && forallb (fun c => (fst c + MIN_OVERLAP <=? snd c) && (snd c <=? length T)) cuts
  && adjacent_ok cuts.

(** The number of tokens that the end of fragment [c] shares with the start
    of fragment [c'] by their places in the source. *)
Definition implied_overlap (c c' : nat * nat) : nat :=
  if fst c <? fst c' then snd c - fst c' else 0.

Definition tokens_eqb (a b : list pystr) : bool :=
  if list_eq_dec (list_eq_dec ascii_dec) a b then true else false.

(** [overlaps_by] as a test. *)
Definition overlaps_byb (G F : list pystr) (k : nat) : bool :=
  (MIN_OVERLAP <=? k) && (k <? length G) && (k <=? length F)
  && tokens_eqb (skipn (length G - k) G) (firstn k F).

(** No end of a fragment agrees with the start of a fragment on more
    tokens than their places in the source imply. *)
Definition no_unintended_overlap (T : list pystr) (cuts : list (nat * nat)) : bool :=
  forallb (fun cg =>
    forallb (fun cp =>
      forallb (fun k => negb (overlaps_byb (piece T cg) (piece T cp) k)
                        || (k <=? implied_overlap cg cp))
              (seq 0 (S (length T))))
      cuts)
    cuts.

(** ** Well-formed input

    The tokens of a line of the input, once [reconstruct] has stripped it;
    the lines are well formed when each of these tokens is a character
    other than [%] and [$] or a [%] with the two characters after it. *)
Definition line_tokens (line : pystr) : list pystr :=
  tokens (URLString_init (rstrip line)).

Definition well_formed_lines (file_object : list pystr) : bool :=
  forallb (fun line => forallb clean_token (line_tokens line)) file_object.

(** ** The order of the search

    The key of fragment [x] in [search.sort(key=...)], and the order that a
    stable sort by that key puts on fragment numbers. *)
Definition candidate_count (join_array : list cell) (x : nat) : nat :=
  match nth_error join_array x with
  | Some (Matches l) => length l
  | _ => 0
  end.

Definition searched_before (join_array : list cell) (a b : nat) : Prop :=
  candidate_count join_array a < candidate_count join_array b \/
  (candidate_count join_array a = candidate_count join_array b /\ a < b).

(** ** The search with backtracking

    [order] lists the fragments in the order of the source.  [back_inv] is
    what holds when [stitch] is entered at [index]: the first fragment of
    the source, once searched, has [-1]; every other searched fragment has
    a fragment that comes before it in the source, which is flagged; a
    flag is the predecessor of a searched fragment; and no two searched
    fragments have the same predecessor.  The state is [on_chain] when
    every searched fragment has the fragment just before it, with the
    overlap of the chain, and [off_chain] when one of them has another
    one.  [same_searched] relates the states before and after a call that
    failed. *)
Definition back_inv (order search : list nat) (n index : nat)
    (st : search_state) : Prop :=
  length (seen_array st) = n /\ length (stitchings st) = n /\
  length (overlaps st) = n /\
  (forall j p, j < index -> nth_error search j = Some p ->
     nth_error order 0 = Some p -> nth_error (stitchings st) p = Some (-1)%Z) /\
  (forall j p i, j < index -> nth_error search j = Some p ->
     nth_error order (S i) = Some p ->
     exists i' g, i' <= i /\ nth_error order i' = Some g /\
       nth_error (stitchings st) p = Some (Z.of_nat g) /\
       nth_error (seen_array st) g = Some 1) /\
  (forall g, g < n -> nth_error (seen_array st) g <> Some 0 ->
     exists j p i, j < index /\ nth_error search j = Some p /\
       nth_error order (S i) = Some p /\
       nth_error (stitchings st) p = Some (Z.of_nat g)) /\
  (forall j1 j2 p1 p2 i1 i2 v, j1 < index -> j2 < index ->
     nth_error search j1 = Some p1 -> nth_error search j2 = Some p2 ->
     nth_error order (S i1) = Some p1 -> nth_error order (S i2) = Some p2 ->
     nth_error (stitchings st) p1 = Some v -> nth_error (stitchings st) p2 = Some v ->
     p1 = p2).

Definition on_chain (order ks search : list nat) (index : nat)
    (st : search_state) : Prop :=
  forall j p i q, j < index -> nth_error search j = Some p ->
    nth_error order (S i) = Some p -> nth_error order i = Some q ->
    nth_error (stitchings st) p = Some (Z.of_nat q) /\
    nth_error (overlaps st) p = Some (nth (S i) ks 0).

Definition off_chain (order search : list nat) (index : nat)
    (st : search_state) : Prop :=
  exists j p i q, j < index /\ nth_error search j = Some p /\
    nth_error order (S i) = Some p /\ nth_error order i = Some q /\
    nth_error (stitchings st) p <> Some (Z.of_nat q).

Definition same_searched (search : list nat) (index : nat)
    (st st' : search_state) : Prop :=
  seen_array st' = seen_array st /\
  length (stitchings st') = length (stitchings st) /\
  length (overlaps st') = length (overlaps st) /\
  forall j p, j < index -> nth_error search j = Some p ->
    nth_error (stitchings st') p = nth_error (stitchings st) p /\
    nth_error (overlaps st') p = nth_error (overlaps st) p.

(** * Properties *)

(** ** Tokens *)

Lemma toks_nonempty s : Forall (fun x => x <> []) (toks s).
Proof.
  remember (length s) as n eqn:Hn. revert s Hn.
  induction n as [n IH] using lt_wf_ind. intros s Hn.
  destruct s as [|c tl]; simpl; [constructor|].
  destruct (Ascii.eqb c PERCENT).
  - destruct tl as [|a [|b tl']].
    + constructor; [discriminate|constructor].
    + constructor; [discriminate|constructor].
    + constructor; [discriminate|]. apply (IH (length tl')); simpl in *; [lia|reflexivity].
  - destruct (Ascii.eqb c TERMINATOR).
    + constructor; [discriminate|constructor].
    + constructor; [discriminate|]. apply (IH (length tl)); simpl in *; [lia|reflexivity].
Qed.

Lemma concat_toks s : concat (toks s) = s.
Proof.
  remember (length s) as n eqn:Hn. revert s Hn.
  induction n as [n IH] using lt_wf_ind. intros s Hn.
  destruct s as [|c tl]; simpl; [reflexivity|].
  destruct (Ascii.eqb c PERCENT).
  - destruct tl as [|a [|b tl']]; simpl; try reflexivity.
    rewrite (IH (length tl')); simpl in *; [reflexivity|lia|reflexivity].
  - destruct (Ascii.eqb c TERMINATOR); simpl.
    + now rewrite app_nil_r.
    + rewrite (IH (length tl)); simpl in *; [reflexivity|lia|reflexivity].
Qed.

Lemma skipn_cons_nth (s : pystr) i :
  i < length s -> skipn i s = nth i s zero :: skipn (S i) s.
Proof.
  revert i. induction s as [|c s IH]; intros i Hi; simpl in *; [lia|].
  destruct i; [reflexivity|]. apply IH. lia.
Qed.

Lemma scan_positions_end fuel s i :
  length s <= i -> scan_positions fuel s i = [].
Proof.
  intros H. destruct fuel; simpl; [reflexivity|].
  destruct (Nat.ltb_spec i (length s)); [lia|reflexivity].
Qed.

Lemma scan_positions_bounds fuel s i :
  length s - i <= fuel -> i <= length s ->
  scan_positions fuel s i ++ [length s] = bounds i (toks (skipn i s)).
Proof.
  revert i. induction fuel as [|fuel IH]; intros i Hf Hi.
  - assert (i = length s) by lia. subst i.
    rewrite skipn_all. reflexivity.
  - cbn [scan_positions]. destruct (Nat.ltb_spec i (length s)) as [Hlt|Hge].
    + rewrite (skipn_cons_nth s Hlt).
      assert (Hlen : length (skipn (S i) s) = length s - S i) by apply length_skipn.
      assert (Hnext : forall k, skipn k (skipn (S i) s) = skipn (i + k + 1) s).
      { intros k. rewrite skipn_skipn. f_equal. lia. }
      remember (skipn (S i) s) as tl eqn:Htl. clear Htl.
      cbn [toks].
      destruct (Ascii.eqb (nth i s zero) PERCENT).
      * destruct tl as [|a [|b tl']]; cbn [length] in Hlen.
        -- rewrite scan_positions_end by lia.
           cbn. repeat f_equal. lia.
        -- rewrite scan_positions_end by lia.
           cbn. repeat f_equal. lia.
        -- cbn [bounds app]. f_equal. rewrite IH by lia.
           rewrite <- (Hnext 2). cbn [skipn length]. f_equal. lia.
      * destruct (Ascii.eqb (nth i s zero) TERMINATOR).
        -- cbn. repeat f_equal. lia.
        -- cbn [bounds app]. f_equal. rewrite IH by lia.
           replace (skipn (i + 1) s) with (skipn (i + 0 + 1) s) by (f_equal; lia).
           rewrite <- (Hnext 0). cbn [skipn length]. f_equal.
    + assert (i = length s) by lia. subst i.
      rewrite skipn_all. reflexivity.
Qed.

(** The boundary table that [update_true_positions] computes is the list of
    boundaries of the tokens of the text. *)
Lemma true_positions_bounds s :
  true_positions (URLString_init s) = bounds 0 (toks s).
Proof.
  unfold URLString_init, update_true_positions. simpl.
  rewrite scan_positions_bounds by lia. reflexivity.
Qed.

Lemma length_bounds a l : length (bounds a l) = S (length l).
Proof. revert a. induction l; intros; simpl; [reflexivity|]. now rewrite IHl. Qed.

Lemma len_init s : len (URLString_init s) = length (toks s).
Proof.
  unfold len. rewrite true_positions_bounds, length_bounds. lia.
Qed.

Lemma nth_error_bounds a l k :
  k <= length l ->
  nth_error (bounds a l) k = Some (a + length (concat (firstn k l))).
Proof.
  revert a k. induction l as [|x l IH]; intros a k Hk; simpl in *.
  - assert (k = 0) by lia. subst. simpl. f_equal. lia.
  - destruct k; simpl; [f_equal; lia|].
    rewrite IH by lia. rewrite length_app. f_equal. lia.
Qed.

Lemma nth_error_bounds_none a l k :
  length l < k -> nth_error (bounds a l) k = None.
Proof.
  intros H. apply nth_error_None. rewrite length_bounds. lia.
Qed.

Lemma firstn_concat_firstn (l : list pystr) k :
  firstn (length (concat (firstn k l))) (concat l) = concat (firstn k l).
Proof.
  rewrite <- (firstn_skipn k l) at 2. rewrite concat_app.
  rewrite firstn_app, Nat.sub_diag, firstn_all. simpl. now rewrite app_nil_r.
Qed.

Lemma skipn_concat_firstn (l : list pystr) k :
  skipn (length (concat (firstn k l))) (concat l) = concat (skipn k l).
Proof.
  rewrite <- (firstn_skipn k l) at 2. rewrite concat_app.
  rewrite skipn_app, Nat.sub_diag, skipn_all. reflexivity.
Qed.

(** The first token of a non-empty text: either it is the whole text, or
    it is cut the same way whatever follows it. *)
Lemma toks_step s :
  s <> [] ->
  exists x s', toks s = x :: toks s' /\ s = x ++ s' /\ x <> [] /\
    (s' = [] \/
     (starts_with_terminator x = false /\ forall r, toks (x ++ r) = x :: toks r)).
Proof.
  destruct s as [|c tl]; [congruence|]. intros _. cbn [toks].
  destruct (Ascii.eqb c PERCENT) eqn:Hp.
  - destruct tl as [|a [|b tl']].
    + exists [c], []. repeat split; auto; discriminate.
    + exists [c; a], []. repeat split; auto; discriminate.
    + exists [c; a; b], tl'. repeat split; auto; try discriminate.
      right. split.
      * cbn. apply Ascii.eqb_eq in Hp. subst c. reflexivity.
      * intros r. cbn [app toks]. rewrite Hp. reflexivity.
  - destruct (Ascii.eqb c TERMINATOR) eqn:Ht.
    + exists (c :: tl), []. repeat split; auto; try discriminate.
      now rewrite app_nil_r.
    + exists [c], tl. repeat split; auto; try discriminate.
      right. split; [cbn; exact Ht|].
      intros r. cbn [app toks]. rewrite Hp, Ht. reflexivity.
Qed.

Lemma toks_skipn s k : toks (concat (skipn k (toks s))) = skipn k (toks s).
Proof.
  revert s. induction k as [|k IH]; intros s.
  - cbn [skipn]. now rewrite concat_toks.
  - destruct s as [|c tl] eqn:Hs; [reflexivity|]. rewrite <- Hs.
    destruct (@toks_step s) as (x & s' & Ht & _); [congruence|].
    rewrite Ht. cbn [skipn]. apply IH.
Qed.

Lemma toks_firstn s k : toks (concat (firstn k (toks s))) = firstn k (toks s).
Proof.
  revert s. induction k as [|k IH]; intros s.
  - reflexivity.
  - destruct s as [|c tl] eqn:Hs; [reflexivity|]. rewrite <- Hs.
    destruct (@toks_step s) as (x & s' & Ht & Hcat & _ & [Hnil|[_ Hfull]]); [congruence| |].
    + subst s'. rewrite app_nil_r in Hcat. subst x.
      rewrite Ht. cbn [toks firstn]. rewrite firstn_nil. cbn [concat].
      rewrite app_nil_r. exact Ht.
    + rewrite Ht. cbn [firstn concat]. rewrite Hfull, IH. reflexivity.
Qed.

(** Only the last token of a text can start with the terminator. *)
Lemma terminator_last s k :
  S k < length (toks s) -> starts_with_terminator (nth k (toks s) []) = false.
Proof.
  revert s. induction k as [|k IH]; intros s Hk.
  - destruct s as [|c tl] eqn:Hs; [cbn in Hk; lia|]. rewrite <- Hs in *.
    destruct (@toks_step s) as (x & s' & Ht & _ & _ & [Hnil|[Hx _]]); [congruence| |].
    + subst s'. rewrite Ht in Hk. cbn in Hk. lia.
    + rewrite Ht. exact Hx.
  - destruct s as [|c tl] eqn:Hs; [cbn in Hk; lia|]. rewrite <- Hs in *.
    destruct (@toks_step s) as (x & s' & Ht & _); [congruence|].
    rewrite Ht in *. cbn [nth]. apply IH. cbn [length] in Hk. lia.
Qed.

Lemma firstn_succ_nth {A : Type} (l : list A) k d :
  k < length l -> firstn (S k) l = firstn k l ++ [nth k l d].
Proof.
  revert k. induction l as [|a l IH]; intros k Hk; cbn [length] in Hk; [lia|].
  destruct k; [reflexivity|]. cbn [firstn nth app]. f_equal. apply IH. lia.
Qed.

Lemma getitem_init s k :
  k < length (toks s) ->
  getitem (URLString_init s) k = Ok (URLString_init (nth k (toks s) [])).
Proof.
  intros Hk. unfold getitem. rewrite true_positions_bounds.
  unfold py_index. rewrite !nth_error_bounds by lia. cbn [bind].
  do 2 f_equal. cbn [string URLString_init py_slice Nat.add].
  pose proof (concat_toks s) as Hc. remember (toks s) as l eqn:Hl. clear Hl.
  subst s. rewrite firstn_concat_firstn.
  replace (k + 1) with (S k) by lia.
  rewrite (firstn_succ_nth l []) by lia.
  rewrite concat_app. cbn [concat]. rewrite app_nil_r.
  rewrite skipn_app, Nat.sub_diag, skipn_all. reflexivity.
Qed.

Lemma getitem_init_out s k :
  length (toks s) <= k -> getitem (URLString_init s) k = Raise IndexError.
Proof.
  intros Hk. unfold getitem. rewrite true_positions_bounds. unfold py_index.
  destruct (nth_error (bounds 0 (toks s)) k); cbn [bind]; [|reflexivity].
  rewrite nth_error_bounds_none by lia. reflexivity.
Qed.

Lemma getslice_from s k :
  k <= length (toks s) ->
  getslice (URLString_init s) (Some k) None
  = Ok (URLString_init (concat (skipn k (toks s)))).
Proof.
  intros Hk. unfold getslice, slice_bound. destruct k as [|k].
  - cbn. now rewrite concat_toks.
  - rewrite true_positions_bounds. unfold py_index.
    rewrite nth_error_bounds by lia. cbn [bind py_slice string URLString_init Nat.add].
    pose proof (concat_toks s) as Hc. remember (toks s) as l eqn:Hl. clear Hl.
    subst s. now rewrite skipn_concat_firstn.
Qed.

Lemma getslice_from_out s k :
  length (toks s) < k ->
  getslice (URLString_init s) (Some k) None = Raise IndexError.
Proof.
  intros Hk. unfold getslice, slice_bound. destruct k as [|k]; [lia|].
  rewrite true_positions_bounds. unfold py_index.
  rewrite nth_error_bounds_none by lia. reflexivity.
Qed.

Lemma getslice_upto s k :
  0 < k <= length (toks s) ->
  getslice (URLString_init s) None (Some k)
  = Ok (URLString_init (concat (firstn k (toks s)))).
Proof.
  intros Hk. unfold getslice, slice_bound. destruct k as [|k]; [lia|].
  rewrite true_positions_bounds. unfold py_index.
  rewrite nth_error_bounds by lia. cbn [bind py_slice string URLString_init Nat.add].
  pose proof (concat_toks s) as Hc. remember (toks s) as l eqn:Hl. clear Hl.
  subst s. now rewrite firstn_concat_firstn.
Qed.

Lemma tokens_toks s : tokens (URLString_init s) = toks s.
Proof.
  unfold tokens. rewrite len_init.
  apply nth_ext with (d := []) (d' := []).
  - now rewrite length_map, length_seq.
  - intros n Hn. rewrite length_map, length_seq in Hn.
    rewrite (nth_indep _ [] (token_at (URLString_init s) 0))
      by (now rewrite length_map, length_seq).
    rewrite map_nth, seq_nth by lia. cbn [Nat.add].
    unfold token_at. now rewrite getitem_init.
Qed.

(** Induction following the cases of the tokenizer. *)
Lemma toks_induction (P : pystr -> Prop) :
  P [] ->
  (forall c a b tl, Ascii.eqb c PERCENT = true -> P tl -> P (c :: a :: b :: tl)) ->
  (forall c tl, Ascii.eqb c PERCENT = true -> length tl < 2 -> P (c :: tl)) ->
  (forall c tl, Ascii.eqb c PERCENT = false -> Ascii.eqb c TERMINATOR = true ->
                P (c :: tl)) ->
  (forall c tl, Ascii.eqb c PERCENT = false -> Ascii.eqb c TERMINATOR = false ->
                P tl -> P (c :: tl)) ->
  forall s, P s.
Proof.
  intros Hnil Hesc Hcut Hterm Hplain s.
  remember (length s) as n eqn:Hn. revert s Hn.
  induction n as [n IH] using lt_wf_ind. intros s Hn.
  destruct s as [|c tl]; [exact Hnil|].
  destruct (Ascii.eqb c PERCENT) eqn:Hp.
  - destruct tl as [|a [|b tl']].
    + apply Hcut; [exact Hp|cbn; lia].
    + apply Hcut; [exact Hp|cbn; lia].
    + apply Hesc; [exact Hp|]. apply (IH (length tl')); [subst n; cbn; lia|reflexivity].
  - destruct (Ascii.eqb c TERMINATOR) eqn:Ht.
    + now apply Hterm.
    + apply Hplain; [exact Hp|exact Ht|].
      apply (IH (length tl)); [subst n; cbn; lia|reflexivity].
Qed.

Lemma whole_escapes_app a b :
  whole_escapes a -> whole_escapes b -> whole_escapes (a ++ b).
Proof.
  unfold whole_escapes. rewrite !tokens_toks. intros Ha Hb. revert Ha.
  induction a as [|c x y tl Hp IH|c tl Hp Hlen|c tl Hp Ht|c tl Hp Ht IH]
    using toks_induction; intros Ha.
  - exact Hb.
  - cbn [app toks] in *. rewrite Hp in *. inversion Ha; subst.
    constructor; [assumption|]. now apply IH.
  - exfalso. cbn [toks] in Ha. rewrite Hp in Ha.
    destruct tl as [|x [|y tl']]; cbn [length] in Hlen; try lia;
      inversion Ha as [|? ? Hx _]; subst;
      specialize (Hx Hp); cbn in Hx; lia.
  - cbn [app toks]. rewrite Hp, Ht. constructor; [|constructor].
    cbn. rewrite Hp. discriminate.
  - cbn [app toks] in *. rewrite Hp, Ht in *. inversion Ha; subst.
    constructor; [assumption|]. now apply IH.
Qed.

Lemma Forall_skipn {A : Type} (P : A -> Prop) (l : list A) k :
  Forall P l -> Forall P (skipn k l).
Proof.
  intros H. rewrite <- (firstn_skipn k l) in H. now apply Forall_app in H.
Qed.

Lemma Forall_firstn {A : Type} (P : A -> Prop) (l : list A) k :
  Forall P l -> Forall P (firstn k l).
Proof.
  intros H. rewrite <- (firstn_skipn k l) in H. now apply Forall_app in H.
Qed.

(** ** URLString: join, construction, equality *)

(** C5: for texts [s], [t] and a token count [k] between 0 and the token
    length of [t], [join] succeeds and leaves in [self] the raw text of [s]
    followed by the raw text of [t] from its [k]-th token boundary [p] on,
    with the boundary table recomputed from the new text.  The cut is at a
    token boundary: what is dropped is exactly the first [k] tokens of [t],
    what is kept is exactly the remaining tokens and is tokenized as them;
    and when no escape of [s] or [t] is cut short, none of the joined text
    is. *)
Theorem join_drops_whole_tokens (s t : pystr) (k : nat) :
  k <= len (URLString_init t) ->
  exists u' p,
    join (URLString_init s) (URLString_init t) k = Ok u' /\
    nth_error (true_positions (URLString_init t)) k = Some p /\
    string u' = s ++ skipn p t /\
    true_positions u' = update_true_positions (string u') /\
    firstn p t = concat (firstn k (tokens (URLString_init t))) /\
    skipn p t = concat (skipn k (tokens (URLString_init t))) /\
    tokens (URLString_init (skipn p t)) = skipn k (tokens (URLString_init t)) /\
    (whole_escapes s -> whole_escapes t -> whole_escapes (string u')).
Proof.
  rewrite len_init. intros Hk.
  exists (URLString_init (s ++ concat (skipn k (toks t)))),
         (length (concat (firstn k (toks t)))).
  assert (Hsk : skipn (length (concat (firstn k (toks t)))) t
                = concat (skipn k (toks t))).
  { rewrite <- (concat_toks t) at 2. apply skipn_concat_firstn. }
  assert (Hfi : firstn (length (concat (firstn k (toks t)))) t
                = concat (firstn k (toks t))).
  { rewrite <- (concat_toks t) at 2. apply firstn_concat_firstn. }
  repeat split.
  - unfold join. rewrite getslice_from by exact Hk. reflexivity.
  - rewrite true_positions_bounds, nth_error_bounds by exact Hk. reflexivity.
  - cbn [string URLString_init]. now rewrite Hsk.
  - now rewrite tokens_toks.
  - now rewrite tokens_toks.
  - rewrite Hsk, !tokens_toks. apply toks_skipn.
  - intros Hs Ht. cbn [string URLString_init].
    apply whole_escapes_app; [exact Hs|].
    unfold whole_escapes in *. rewrite tokens_toks in *.
    rewrite toks_skipn. now apply Forall_skipn.
Qed.

(** The hypothesis of [join_drops_whole_tokens] holds when the overlap of
    ["AB%41CD"] and ["%41CDEF"] is removed. *)
Lemma join_drops_whole_tokens_witness :
  exists u' p,
    join (URLString_init (lit "AB%41CD")) (URLString_init (lit "%41CDEF")) 3 = Ok u' /\
    nth_error (true_positions (URLString_init (lit "%41CDEF"))) 3 = Some p /\
    string u' = lit "AB%41CD" ++ skipn p (lit "%41CDEF") /\
    true_positions u' = update_true_positions (string u') /\
    firstn p (lit "%41CDEF")
    = concat (firstn 3 (tokens (URLString_init (lit "%41CDEF")))) /\
    skipn p (lit "%41CDEF")
    = concat (skipn 3 (tokens (URLString_init (lit "%41CDEF")))) /\
    tokens (URLString_init (skipn p (lit "%41CDEF")))
    = skipn 3 (tokens (URLString_init (lit "%41CDEF"))) /\
    (whole_escapes (lit "AB%41CD") -> whole_escapes (lit "%41CDEF") ->
     whole_escapes (string u')).
Proof.
  apply (@join_drops_whole_tokens (lit "AB%41CD") (lit "%41CDEF") 3).
  vm_compute. lia.
Defined.

(** C4, as the claim states it, fails: a text that ends in a lone [%], and
    a text whose [%] is followed by letters that are no digits, are both
    malformed and both are tokenized without any error. *)
Lemma malformed_input_is_tokenized :
  malformed (lit "AB%") = true /\
  URLString_new (lit "AB%")
  = Ok {| string := lit "AB%"; true_positions := [0; 1; 2; 3] |} /\
  malformed (lit "%ZZA") = true /\
  URLString_new (lit "%ZZA")
  = Ok {| string := lit "%ZZA"; true_positions := [0; 3; 4] |}.
Proof. repeat split; reflexivity. Qed.

(** C4, amended: construction never fails, whatever the text.  A [%] takes
    the next two characters into its token whether or not they are digits,
    and a [%] with fewer than two characters after it makes a shorter last
    token; the tokens always add up to the text. *)
Theorem construction_never_rejects (s : pystr) :
  URLString_new s = Ok (URLString_init s) /\
  concat (tokens (URLString_init s)) = s /\
  (forall a b r, s = PERCENT :: a :: b :: r ->
     tokens (URLString_init s) = [PERCENT; a; b] :: tokens (URLString_init r)) /\
  (forall r, s = PERCENT :: r -> length r < 2 ->
     tokens (URLString_init s) = [s]).
Proof.
  split; [reflexivity|]. rewrite tokens_toks. split; [apply concat_toks|].
  split.
  - intros a b r ->. now rewrite tokens_toks.
  - intros r -> Hr. destruct r as [|a [|b r]]; cbn [length] in Hr; try lia; reflexivity.
Qed.

(** C9, as the claim states it, fails: hashing a [URLString] is not defined
    at all, so it yields no hash value for any raw text. *)
Lemma hash_is_undefined :
  ~ exists h, URLString_hash (URLString_init (lit "ABC")) = Ok h.
Proof. intros [h H]. discriminate H. Qed.

Lemma pystr_eqb_eq a b : pystr_eqb a b = true <-> a = b.
Proof.
  unfold pystr_eqb. destruct (list_eq_dec ascii_dec a b); split; congruence.
Qed.

(** C9, amended: equality is defined over the raw text.  Two [URLString]s
    are equal exactly when their raw texts are, a [URLString] equals a plain
    string exactly when its raw text is that string, [!=] is the negation,
    and [hash] raises for every [URLString]. *)
Theorem equality_over_raw_text (u v : URLString) (s : pystr) :
  (URLString_eq u (OfURL v) = true <-> string u = string v) /\
  (URLString_eq u (OfStr s) = true <-> string u = s) /\
  URLString_eq u (OfURL u) = true /\
  URLString_eq u (OfStr (string u)) = true /\
  (forall o, URLString_ne u o = negb (URLString_eq u o)) /\
  URLString_hash u = Raise TypeError.
Proof.
  cbn [URLString_eq]. rewrite !pystr_eqb_eq.
  repeat split; try congruence; try (now apply pystr_eqb_eq).
Qed.

(** ** The suffix tree *)

Lemma getitem_ok_inv s k t :
  getitem (URLString_init s) k = Ok t ->
  k < length (toks s) /\ t = URLString_init (nth k (toks s) []).
Proof.
  intros H. destruct (Nat.lt_ge_cases k (length (toks s))) as [Hk|Hk].
  - rewrite getitem_init in H by exact Hk. split; [exact Hk|congruence].
  - rewrite getitem_init_out in H by exact Hk. discriminate.
Qed.

Lemma getslice_from_ok_inv s k t :
  getslice (URLString_init s) (Some k) None = Ok t ->
  k <= length (toks s) /\ t = URLString_init (concat (skipn k (toks s))).
Proof.
  intros H. destruct (Nat.le_gt_cases k (length (toks s))) as [Hk|Hk].
  - rewrite getslice_from in H by exact Hk. split; [exact Hk|congruence].
  - rewrite getslice_from_out in H by exact Hk. discriminate.
Qed.

Lemma token_at_init s k :
  k < length (toks s) -> token_at (URLString_init s) k = nth k (toks s) [].
Proof. intros Hk. unfold token_at. now rewrite getitem_init. Qed.

Lemma bind_ok {A B : Type} (m : result A) (k : A -> result B) (b : B) :
  bind m k = Ok b -> exists a, m = Ok a /\ k a = Ok b.
Proof. destruct m; cbn; [eauto|discriminate]. Qed.

Lemma dict_get_in {V : Type} (d : list (pystr * V)) k v :
  dict_get d k = Some v -> In (k, v) d.
Proof.
  induction d as [|[k' v'] d IH]; cbn; [discriminate|].
  destruct (pystr_eqb k k') eqn:E.
  - apply pystr_eqb_eq in E. subst. intros [= ->]. now left.
  - intros H. right. now apply IH.
Qed.

Lemma dict_set_Forall {V : Type} (Q : pystr * V -> Prop) (d : list (pystr * V)) k v :
  Forall Q d -> Q (k, v) -> Forall Q (dict_set d k v).
Proof.
  intros Hd Hq. induction d as [|[k' v'] d IH]; cbn.
  - now constructor.
  - inversion Hd; subst. destruct (pystr_eqb k k') eqn:E.
    + apply pystr_eqb_eq in E. subst. now constructor.
    + constructor; [assumption|]. now apply IH.
Qed.

Lemma sound_label n : sound_node n -> node_string n = URLString_init (string (node_string n)).
Proof. now destruct 1. Qed.

Lemma sound_children n :
  sound_node n ->
  Forall (fun kc => filed_under (fst kc) (snd kc) /\ sound_node (snd kc)) (children n).
Proof. now destruct 1. Qed.

Lemma sound_unidentified n :
  sound_node n -> identity n = None ->
  Forall (fun x => starts_with_terminator x = false) (tokens (node_string n)).
Proof. destruct 1; cbn; auto. Qed.

(** A freshly attached leaf is sound and correctly filed. *)
Lemma new_leaf_sound (back k : URLString) (ident : nat * nat) :
  back = URLString_init (string back) ->
  getitem back 0 = Ok k ->
  filed_under (string k) (Node back (Some ident) []) /\
  sound_node (Node back (Some ident) []).
Proof.
  intros Hb Hk. rewrite Hb in Hk. pose proof Hk as Hk'.
  apply getitem_ok_inv in Hk as [Hlen ->].
  split.
  - split; cbn [node_string].
    + rewrite Hb, len_init. exact Hlen.
    + unfold token_at. rewrite Hb. rewrite Hk'. reflexivity.
  - constructor; [exact Hb|discriminate|constructor].
Qed.

Lemma filed_under_first (back k : URLString) ident cs :
  back = URLString_init (string back) ->
  getitem back 0 = Ok k ->
  filed_under (string k) (Node back ident cs).
Proof.
  intros Hb Hk. rewrite Hb in Hk. pose proof Hk as Hk'.
  apply getitem_ok_inv in Hk as [Hlen ->].
  split; cbn [node_string].
  - rewrite Hb, len_init. exact Hlen.
  - unfold token_at. rewrite Hb. rewrite Hk'. reflexivity.
Qed.

Lemma no_terminator_before s k :
  k < length (toks s) ->
  Forall (fun x => starts_with_terminator x = false) (firstn k (toks s)).
Proof.
  intros Hk. apply Forall_forall. intros x Hx.
  apply (In_nth _ _ []) in Hx as (i & Hi & <-).
  rewrite length_firstn in Hi. rewrite nth_firstn.
  destruct (Nat.ltb_spec i k); [|lia].
  apply terminator_last. lia.
Qed.

(** What a node keeps when the insertion walk changes it: a non-empty label
    stays non-empty and keeps its first token. *)
Definition keeps_first_token (n n' : URLSuffixTreeNode) : Prop :=
  0 < len (node_string n) ->
  0 < len (node_string n') /\
  token_at (node_string n') 0 = token_at (node_string n) 0.

Lemma split_sound self index back ident self' :
  sound_node self ->
  back = URLString_init (string back) ->
  ((index <= 0)%Z \/ Z.to_nat index < len (node_string self)) ->
  split self index back (Some ident) = Ok self' ->
  sound_node self' /\ keeps_first_token self self'.
Proof.
  intros Hs Hb Hrange H. unfold split in H.
  destruct (Z.leb_spec index 0) as [Hle|Hgt].
  - apply bind_ok in H as (k & Hk & H). injection H as <-.
    destruct (new_leaf_sound ident Hb Hk) as [Hf Hn].
    split.
    + inversion Hs; subst. cbn [node_string identity children].
      constructor; try assumption. now apply dict_set_Forall.
    + intros Hpos. cbn [node_string]. auto.
  - destruct Hrange as [Hle|Hlt]; [lia|].
    set (k := Z.to_nat index) in *.
    inversion Hs as [s ident0 cs Hinit Hunid Hcs]; subst self.
    cbn [node_string identity children] in *.
    rewrite Hinit in H, Hlt. rewrite len_init in Hlt.
    rewrite getslice_upto in H by lia. cbn [bind] in H.
    rewrite getslice_from in H by lia. cbn [bind] in H.
    apply bind_ok in H as (k_old & Hold & H).
    apply bind_ok in H as (k_new & Hnew & H). injection H as <-.
    split.
    + constructor.
      * reflexivity.
      * intros _. rewrite tokens_toks, toks_firstn. now apply no_terminator_before.
      * destruct (pystr_eqb (string k_new) (string k_old)) eqn:E.
        -- apply pystr_eqb_eq in E. rewrite <- E.
           constructor; [|constructor]. cbn [fst snd]. now apply new_leaf_sound.
        -- constructor; [|constructor; [|constructor]]; cbn [fst snd].
           ++ split; [now apply filed_under_first|].
              constructor; [reflexivity| |exact Hcs].
              intros Hnone. rewrite tokens_toks, toks_skipn.
              apply Forall_skipn. specialize (Hunid Hnone).
              rewrite Hinit, tokens_toks in Hunid. exact Hunid.
           ++ now apply new_leaf_sound.
    + intros _. cbn [node_string]. rewrite len_init, toks_firstn, length_firstn.
      split; [lia|].
      rewrite Hinit at 2. rewrite !token_at_init.
      * rewrite toks_firstn, nth_firstn. destruct (Nat.ltb_spec 0 k); [reflexivity|lia].
      * lia.
      * rewrite toks_firstn, length_firstn. lia.
Qed.

Lemma split_or_advance_sound next suffix str_id c cur index cur' :
  (forall n i n', sound_node n -> (0 <= i)%Z -> next n i = Ok n' ->
                  sound_node n' /\ keeps_first_token n n') ->
  suffix = URLString_init (string suffix) ->
  sound_node cur -> (-1 <= index)%Z ->
  split_or_advance next suffix str_id c cur index = Ok cur' ->
  sound_node cur' /\ keeps_first_token cur cur'.
Proof.
  intros Hnext Hsuf Hcur Hidx H. unfold split_or_advance in H.
  apply bind_ok in H as (differs & Hd & H).
  assert (Hback : forall back, getslice suffix (Some c) None = Ok back ->
                               back = URLString_init (string back)).
  { intros back Hb. rewrite Hsuf in Hb.
    apply getslice_from_ok_inv in Hb as [_ ->]. reflexivity. }
  destruct (Z.eqb_spec index (-1)) as [->|Hne].
  - injection Hd as <-. apply bind_ok in H as (back & Hb & H).
    refine (split_sound str_id Hcur (Hback _ Hb) _ H). left. lia.
  - apply bind_ok in Hd as (tok & _ & Hd).
    apply bind_ok in Hd as (lab & Hlab & Hd). injection Hd as <-.
    rewrite (sound_label Hcur) in Hlab.
    apply getitem_ok_inv in Hlab as [Hlt _].
    destruct (URLString_ne tok (OfURL lab)).
    + apply bind_ok in H as (back & Hb & H).
      refine (split_sound str_id Hcur (Hback _ Hb) _ H).
      right. rewrite (sound_label Hcur), len_init. exact Hlt.
    + apply Hnext in H; [exact H|exact Hcur|lia].
Qed.

Lemma insert_walk_sound todo suffix str_id :
  suffix = URLString_init (string suffix) ->
  forall cur index c cur',
    sound_node cur -> (0 <= index)%Z ->
    insert_walk todo suffix str_id cur index c = Ok cur' ->
    sound_node cur' /\ keeps_first_token cur cur'.
Proof.
  intros Hsuf. induction todo as [|todo IH]; intros cur index c cur' Hcur Hidx H.
  - injection H as <-. split; [exact Hcur|]. intros Hpos. auto.
  - cbn [insert_walk] in H.
    assert (Hnext : forall n i n', sound_node n -> (0 <= i)%Z ->
              insert_walk todo suffix str_id n i (S c) = Ok n' ->
              sound_node n' /\ keeps_first_token n n').
    { intros n i n' Hn Hi Hw. exact (IH n i (S c) n' Hn Hi Hw). }
    destruct (index =? Z.of_nat (len (node_string cur)))%Z.
    + apply bind_ok in H as (tok & Htok & H).
      destruct (dict_get (children cur) (string tok)) as [child|] eqn:Hget.
      * apply bind_ok in H as (child' & Hstep & H). injection H as <-.
        pose proof (sound_children Hcur) as Hcs.
        pose proof (dict_get_in _ _ Hget) as Hin.
        pose proof (proj1 (Forall_forall _ _) Hcs _ Hin) as [Hfiled Hchild].
        cbn [fst snd] in Hfiled, Hchild.
        assert (Hstep' : sound_node child' /\ keeps_first_token child child').
        { eapply split_or_advance_sound;
            [exact Hnext|exact Hsuf|exact Hchild| |exact Hstep]; lia. }
        destruct Hstep' as [Hchild' Hkeep].
        split.
        -- inversion Hcur; subst. cbn [node_string identity children] in *.
           constructor; try assumption.
           apply dict_set_Forall; [assumption|]. cbn [fst snd].
           split; [|exact Hchild'].
           destruct Hfiled as [Hpos Hkey]. destruct (Hkeep Hpos) as [Hpos' Htok'].
           split; [exact Hpos'|]. now rewrite Htok'.
        -- intros Hpos. cbn [node_string]. auto.
      * eapply split_or_advance_sound;
          [exact Hnext|exact Hsuf|exact Hcur| |exact H]; lia.
    + eapply split_or_advance_sound;
        [exact Hnext|exact Hsuf|exact Hcur| |exact H]; lia.
Qed.

Lemma insert_rec_sound depth m :
  forall root s str_id root',
    sound_node root ->
    insert_rec depth m root s str_id = Ok root' ->
    sound_node root'.
Proof.
  induction depth as [|depth IH]; intros root s str_id root' Hroot H;
    cbn [insert_rec] in H; destruct (len s <? m).
  - now injection H as <-.
  - discriminate.
  - now injection H as <-.
  - apply bind_ok in H as (root1 & Hwalk & H).
    apply bind_ok in H as (rest & _ & H).
    assert (Hroot1 : sound_node root1).
    { eapply insert_walk_sound; [|exact Hroot| |exact Hwalk]; [reflexivity|lia]. }
    exact (IH _ _ _ _ Hroot1 H).
Qed.

Lemma empty_node_sound : sound_node empty_node.
Proof. constructor; [reflexivity| |constructor]. intros _. constructor. Qed.

Lemma reachable_sound t : reachable t -> sound_node (root t).
Proof.
  induction 1 as [m|t t' s str_id _ IH Hins].
  - apply empty_node_sound.
  - unfold insert in Hins. apply bind_ok in Hins as (r & Hrec & Hins).
    injection Hins as <-. cbn [root]. eapply insert_rec_sound; [exact IH|exact Hrec].
Qed.

Lemma subnode_sound n m : subnode n m -> sound_node m -> sound_node n.
Proof.
  induction 1 as [|m key child Hin _ IH]; intros Hm; [exact Hm|].
  apply IH. pose proof (sound_children Hm) as Hcs.
  exact (proj2 (proj1 (Forall_forall _ _) Hcs _ Hin)).
Qed.

(** C8: inserting a string whose token length is below the configured
    minimum returns at once: no error is raised and the tree is the one
    that was passed, for the call on the tree as for every nested call on a
    suffix. *)
Theorem insert_short_is_noop (t : URLSuffixTree) (s : URLString) (str_id : nat * nat) :
  len s < min_suffix_len t ->
  insert t s str_id = Ok t /\
  forall depth r, insert_rec depth (min_suffix_len t) r s str_id = Ok r.
Proof.
  intros Hshort.
  assert (Hrec : forall depth r, insert_rec depth (min_suffix_len t) r s str_id = Ok r).
  { intros depth r. destruct depth; cbn [insert_rec];
      destruct (Nat.ltb_spec (len s) (min_suffix_len t)); try lia; reflexivity. }
  split; [|exact Hrec].
  unfold insert. rewrite Hrec. cbn [bind]. now destruct t.
Qed.

(** The hypothesis of [insert_short_is_noop] holds for the two-token string
    ["AB"] and the minimum overlap of the program. *)
Lemma insert_short_is_noop_witness :
  insert example_tree_2 (URLString_init (lit "AB")) (2, 0) = Ok example_tree_2 /\
  forall depth r,
    insert_rec depth (min_suffix_len example_tree_2) r (URLString_init (lit "AB")) (2, 0)
    = Ok r.
Proof.
  apply (@insert_short_is_noop example_tree_2 (URLString_init (lit "AB")) (2, 0)).
  vm_compute. lia.
Defined.

Lemma terminator_keys_spec keys :
  Forall (fun k => k <> []) keys ->
  exists term, terminator_keys keys = Ok term /\
    Forall (fun k => In k keys /\ starts_with_terminator k = true) term.
Proof.
  induction keys as [|key keys IH]; intros Hne.
  - exists []. split; [reflexivity|constructor].
  - inversion Hne as [|? ? Hkey Hrest]; subst.
    destruct (IH Hrest) as (term & Hterm & Hall).
    destruct key as [|ch key']; [congruence|].
    cbn [terminator_keys]. rewrite Hterm. cbn [bind].
    assert (Hall' : Forall (fun k => In k ((ch :: key') :: keys) /\
                                     starts_with_terminator k = true) term).
    { eapply Forall_impl; [|exact Hall]. intros k [Hin Hk]. split; [now right|exact Hk]. }
    destruct (Ascii.eqb ch TERMINATOR) eqn:E.
    + eexists. split; [reflexivity|]. constructor; [|exact Hall'].
      split; [now left|exact E].
    + eexists. split; [reflexivity|exact Hall'].
Qed.

Lemma dict_get_some {V : Type} (d : list (pystr * V)) k :
  In k (map fst d) -> exists v, dict_get d k = Some v.
Proof.
  induction d as [|[k' v'] d IH]; cbn; [contradiction|].
  intros [->|Hin].
  - exists v'. destruct (pystr_eqb k k) eqn:E; [reflexivity|].
    assert (pystr_eqb k k = true) by now apply pystr_eqb_eq. congruence.
  - destruct (pystr_eqb k k'); [eauto|now apply IH].
Qed.

Lemma sound_child_identified n key child :
  sound_node n -> In (key, child) (children n) ->
  starts_with_terminator key = true -> identity child <> None.
Proof.
  intros Hn Hin Hkey Hnone.
  pose proof (proj1 (Forall_forall _ _) (sound_children Hn) _ Hin) as H0.
  cbn [fst snd] in H0. destruct H0 as [[Hpos Hk] Hc]. subst key.
  pose proof (sound_unidentified Hc Hnone) as Hno.
  rewrite (sound_label Hc) in Hno, Hpos, Hkey.
  rewrite tokens_toks in Hno. rewrite len_init in Hpos.
  rewrite token_at_init in Hkey by exact Hpos.
  pose proof (proj1 (Forall_forall _ _) Hno _ (nth_In _ [] Hpos)) as Hfalse.
  exact (eq_true_false_abs _ Hkey Hfalse).
Qed.

Lemma sound_keys_nonempty n :
  sound_node n -> Forall (fun k => k <> []) (map fst (children n)).
Proof.
  intros Hn. apply Forall_map.
  eapply Forall_impl; [|exact (sound_children Hn)].
  intros [key child] H0. cbn [fst snd] in H0.
  destruct H0 as [[Hpos Hk] Hc]. cbn [fst]. subst key.
  rewrite (sound_label Hc) in *. rewrite len_init in Hpos.
  rewrite token_at_init by exact Hpos.
  exact (proj1 (Forall_forall _ _) (toks_nonempty _) _ (nth_In _ [] Hpos)).
Qed.

Lemma push_matches_ok cs path term :
  Forall (fun k => exists child, dict_get cs k = Some child /\ identity child <> None) term ->
  forall stack, exists r, push_matches cs path term stack = Ok r.
Proof.
  induction 1 as [|key term (child & Hget & Hid) _ IH]; intros stack.
  - eexists. reflexivity.
  - cbn [push_matches]. rewrite Hget.
    destruct (identity child) as [[frag offset]|]; [|congruence].
    destruct (negb (offset =? 0)).
    + destruct (IH (stack ++ [(frag, path)])) as [[st pushed] ->].
      eexists. reflexivity.
    + apply IH.
Qed.

(** C10: in a tree built from the empty tree by any sequence of insertions,
    every child filed under a key that starts with the terminator carries an
    identity; hence, at every node, the keys the traversal selects are
    computed without error and its loop over them, which reads
    [identity[1]] of each such child, completes without raising. *)
Theorem terminator_children_identified (t : URLSuffixTree) (n : URLSuffixTreeNode) :
  reachable t -> subnode n (root t) ->
  Forall (fun kc => starts_with_terminator (fst kc) && is_none (identity (snd kc)) = false)
         (children n) /\
  exists term,
    terminator_keys (map fst (children n)) = Ok term /\
    forall path stack, exists r, push_matches (children n) path term stack = Ok r.
Proof.
  intros Hreach Hsub.
  assert (Hn : sound_node n).
  { eapply subnode_sound; [exact Hsub|]. now apply reachable_sound. }
  split.
  - apply Forall_forall. intros [key child] Hin. cbn [fst snd].
    destruct (starts_with_terminator key) eqn:Hkey; [|reflexivity].
    pose proof (@sound_child_identified n key child Hn Hin Hkey) as Hid.
    destruct (identity child); [reflexivity|congruence].
  - destruct (terminator_keys_spec (sound_keys_nonempty Hn)) as (term & Hterm & Hall).
    exists term. split; [exact Hterm|]. intros path stack.
    apply push_matches_ok. eapply Forall_impl; [|exact Hall].
    intros key [Hin Hkey]. destruct (dict_get_some _ _ Hin) as [child Hget].
    exists child. split; [exact Hget|].
    eapply sound_child_identified; [exact Hn|exact (dict_get_in _ _ Hget)|exact Hkey].
Qed.

Lemma example_tree_2_reachable : reachable example_tree_2.
Proof.
  apply (@reachable_insert example_tree_1 example_tree_2
           (URLString_init (lit "CDEFGH")) (1, 0)); [|vm_compute; reflexivity].
  apply (@reachable_insert (URLSuffixTree_init MIN_OVERLAP) example_tree_1
           (URLString_init (lit "ABCDEF")) (0, 0)); [|vm_compute; reflexivity].
  apply reachable_init.
Qed.

(** The hypotheses of [terminator_children_identified] hold for the node of
    the example tree that ends the common text ["CDEF"], whose children are
    the terminator of fragment 0 and the continuation of fragment 1. *)
Lemma terminator_children_identified_witness :
  Forall (fun kc => starts_with_terminator (fst kc) && is_none (identity (snd kc)) = false)
         (children example_node) /\
  exists term,
    terminator_keys (map fst (children example_node)) = Ok term /\
    forall path stack, exists r, push_matches (children example_node) path term stack = Ok r.
Proof.
  apply (@terminator_children_identified example_tree_2 example_node).
  - exact example_tree_2_reachable.
  - apply (@subnode_below example_node (root example_tree_2) (lit "C") example_node).
    + vm_compute. auto 10.
    + apply subnode_here.
Defined.

(** ** The traversal *)

(** Induction on a tree with the hypothesis for every child. *)
Lemma node_induction (P : URLSuffixTreeNode -> Prop) :
  (forall s ident cs, Forall (fun kc => P (snd kc)) cs -> P (Node s ident cs)) ->
  forall n, P n.
Proof.
  intros Hstep. fix IH 1. intros [s ident cs]. apply Hstep.
  induction cs as [|[key child] cs IHcs]; constructor.
  - apply IH.
  - exact IHcs.
Qed.

Lemma toks_app_length a b : length (toks a) <= length (toks (a ++ b)).
Proof.
  induction a as [|c x y tl Hp IH|c tl Hp Hlen|c tl Hp Ht|c tl Hp Ht IH]
    using toks_induction.
  - cbn. lia.
  - cbn [app toks]. rewrite Hp. cbn [length]. lia.
  - assert (Hone : toks (c :: tl) = [c :: tl]).
    { cbn [toks]. rewrite Hp. destruct tl as [|x [|y tl']]; cbn [length] in Hlen; try lia;
        reflexivity. }
    rewrite Hone. cbn [length].
    destruct (@toks_step ((c :: tl) ++ b)) as (x & s' & -> & _); [discriminate|].
    cbn [length]. lia.
  - cbn [app toks]. rewrite Hp, Ht. cbn [length]. lia.
  - cbn [app toks]. rewrite Hp, Ht. cbn [length]. lia.
Qed.

Lemma len_add_url path lbl :
  path = URLString_init (string path) ->
  len path <= len (URLString_add path (OfURL lbl)).
Proof.
  intros Hp. cbn [URLString_add]. rewrite Hp at 1. rewrite !len_init.
  apply toks_app_length.
Qed.

Lemma ascending_snoc l x :
  ascending l -> Forall (fun a => overlap_of a <= overlap_of x) l ->
  ascending (l ++ [x]).
Proof.
  unfold ascending. induction 1 as [|a l Hl IH Ha]; intros Hx; cbn [app].
  - constructor; constructor.
  - inversion Hx; subst. constructor; [now apply IH|].
    apply Forall_app. split; [exact Ha|]. now constructor.
Qed.

Lemma ascending_rev l : ascending l -> descending (rev l).
Proof.
  unfold ascending, descending. induction 1 as [|a l Hl IH Ha]; cbn [rev].
  - constructor.
  - clear Hl. revert IH. generalize (rev_involutive l).
    assert (Hall : Forall (fun b => overlap_of a <= overlap_of b) (rev l)).
    { apply Forall_forall. intros b Hb. apply in_rev in Hb.
      exact (proj1 (Forall_forall _ _) Ha b Hb). }
    intros _. revert Hall. generalize (rev l) as r. clear.
    induction r as [|b r IHr]; intros Hall Hr; cbn [app].
    + constructor; constructor.
    + inversion Hall; subst. inversion Hr; subst.
      constructor; [now apply IHr|].
      apply Forall_app. split; [assumption|]. now constructor.
Qed.

Lemma py_setitem_Forall {A : Type} (P : A -> Prop) (l l' : list A) i v :
  Forall P l -> P v -> py_setitem l i v = Ok l' -> Forall P l'.
Proof.
  revert i l'. induction l as [|a l IH]; intros i l' Hl Hv H; cbn [py_setitem] in H.
  - discriminate.
  - inversion Hl; subst. destruct i.
    + injection H as <-. now constructor.
    + apply bind_ok in H as (tl' & Htl & H). injection H as <-.
      constructor; [assumption|]. eapply IH; eauto.
Qed.

Lemma push_matches_spec cs path term :
  forall stack stack' pushed,
    push_matches cs path term stack = Ok (stack', pushed) ->
    exists frags,
      stack' = stack ++ map (fun f => (f, path)) frags /\ pushed = length frags.
Proof.
  induction term as [|key term IH]; intros stack stack' pushed H; cbn [push_matches] in H.
  - injection H as <- <-. exists []. cbn. now rewrite app_nil_r.
  - destruct (dict_get cs key) as [child|]; [|discriminate].
    destruct (identity child) as [[frag offset]|]; [|discriminate].
    destruct (negb (offset =? 0)).
    + apply bind_ok in H as ([st n] & Hrec & H). cbn in H. injection H as <- <-.
      apply IH in Hrec as (frags & -> & ->).
      exists (frag :: frags). cbn [map length]. now rewrite <- app_assoc.
    + now apply IH.
Qed.

Lemma pop_matches_spec (extra stack : list (nat * URLString)) :
  pop_matches (length extra) (stack ++ extra) = Ok stack.
Proof.
  induction extra as [|x extra IH] using rev_ind; cbn [length pop_matches].
  - now rewrite app_nil_r.
  - rewrite length_app. cbn [length]. rewrite Nat.add_1_r. cbn [pop_matches].
    rewrite app_assoc, removelast_last.
    destruct ((stack ++ extra) ++ [x]) eqn:E; [now destruct (stack ++ extra)|].
    exact IH.
Qed.

(** What one call of [dfs_join] guarantees: the stack is handed back as it
    was received and every stored list is in ascending order. *)
Definition dfs_ordered (node : URLSuffixTreeNode) : Prop :=
  forall path stack ja stack' ja',
    path = URLString_init (string path) ->
    ascending stack ->
    Forall (fun m => overlap_of m <= len path) stack ->
    Forall cell_ascending ja ->
    dfs_join node path stack ja = Ok (stack', ja') ->
    stack' = stack /\ Forall cell_ascending ja'.

Lemma visit_children_ordered cs :
  Forall (fun kc => dfs_ordered (snd kc)) cs ->
  forall path stack ja stack' ja',
    path = URLString_init (string path) ->
    ascending stack ->
    Forall (fun m => overlap_of m <= len path) stack ->
    Forall cell_ascending ja ->
    visit_children dfs_join path cs stack ja = Ok (stack', ja') ->
    stack' = stack /\ Forall cell_ascending ja'.
Proof.
  induction 1 as [|[key child] cs Hchild _ IH];
    intros path stack ja stack' ja' Hpath Hasc Hbound Hja H; cbn [visit_children] in H.
  - injection H as <- <-. auto.
  - apply bind_ok in H as ([st1 ja1] & Hdfs & H). cbn [snd] in Hchild.
    apply Hchild in Hdfs as [-> Hja1]; try assumption.
    + eapply IH; eauto.
    + reflexivity.
    + eapply Forall_impl; [|exact Hbound]. intros m Hm. cbv beta in *.
      pose proof (len_add_url (node_string child) Hpath). lia.
Qed.

Lemma dfs_inner_ordered cs :
  Forall (fun kc => dfs_ordered (snd kc)) cs ->
  forall path stack ja stack' ja',
    path = URLString_init (string path) ->
    ascending stack ->
    Forall (fun m => overlap_of m <= len path) stack ->
    Forall cell_ascending ja ->
    dfs_inner dfs_join cs path stack ja = Ok (stack', ja') ->
    stack' = stack /\ Forall cell_ascending ja'.
Proof.
  intros Hcs path stack ja stack' ja' Hpath Hasc Hbound Hja H. unfold dfs_inner in H.
  apply bind_ok in H as (term & _ & H).
  apply bind_ok in H as ([st1 pushed] & Hpush & H).
  apply bind_ok in H as ([st2 ja2] & Hvisit & H).
  apply bind_ok in H as (st3 & Hpop & H). injection H as <- <-.
  assert (Hst1 : exists frags,
             st1 = stack ++ map (fun f => (f, path)) frags /\ pushed = length frags).
  { destruct term as [|key term].
    - injection Hpush as <- <-. exists []. cbn. now rewrite app_nil_r.
    - destruct (MIN_OVERLAP <=? len path).
      + eapply push_matches_spec. exact Hpush.
      + injection Hpush as <- <-. exists []. cbn. now rewrite app_nil_r. }
  destruct Hst1 as (frags & -> & ->).
  assert (Hasc1 : ascending (stack ++ map (fun f => (f, path)) frags) /\
                  Forall (fun m => overlap_of m <= len path)
                         (stack ++ map (fun f => (f, path)) frags)).
  { clear Hvisit Hpop Hpush. revert stack Hasc Hbound.
    induction frags as [|f frags IHf]; intros stack Hasc Hbound; cbn [map].
    - rewrite app_nil_r. auto.
    - replace (stack ++ (f, path) :: map (fun f0 => (f0, path)) frags)
        with ((stack ++ [(f, path)]) ++ map (fun f0 => (f0, path)) frags)
        by (now rewrite <- app_assoc).
      apply IHf.
      + apply ascending_snoc; [exact Hasc|exact Hbound].
      + apply Forall_app. split; [exact Hbound|]. constructor; [|constructor].
        unfold overlap_of. cbn [snd]. lia. }
  destruct Hasc1 as [Hasc1 Hbound1].
  eapply visit_children_ordered in Hvisit as [-> Hja2]; eauto.
  split; [|exact Hja2].
  rewrite <- (length_map (fun f => (f, path)) frags) in Hpop.
  rewrite pop_matches_spec in Hpop. congruence.
Qed.

Lemma dfs_join_ordered node : dfs_ordered node.
Proof.
  induction node as [s ident cs IH] using node_induction.
  intros path stack ja stack' ja' Hpath Hasc Hbound Hja H.
  destruct ident as [[frag [|offset]]|]; cbn [dfs_join] in H.
  - apply bind_ok in H as (ja1 & Hset & H). injection H as <- <-.
    split; [reflexivity|].
    eapply py_setitem_Forall; [exact Hja| |exact Hset].
    split; [exact Hasc|now apply ascending_rev].
  - eapply dfs_inner_ordered; eauto.
  - eapply dfs_inner_ordered; eauto.
Qed.

Lemma Forall_repeat {A : Type} (P : A -> Prop) (a : A) n : P a -> Forall P (repeat a n).
Proof. intros H. induction n; cbn; constructor; auto. Qed.

Lemma build_index_reachable file_object :
  forall i fragments t fragments' t',
    reachable t ->
    build_index file_object i fragments t = Ok (fragments', t') ->
    reachable t'.
Proof.
  induction file_object as [|frag tl IH]; intros i fragments t fragments' t' Ht H;
    cbn [build_index] in H.
  - now injection H as <- <-.
  - apply bind_ok in H as (f & _ & H).
    apply bind_ok in H as (t1 & Hins & H).
    eapply IH; [|exact H]. eapply reachable_insert; [exact Ht|exact Hins].
Qed.

(** C6: every candidate list that the traversal of the index stores lists
    its candidates by overlap, in tokens, from the smallest to the largest,
    candidates of equal overlap side by side; read back to front, as the
    search reads it, the list goes from the largest overlap to the
    smallest. *)
Theorem candidates_in_increasing_order
    (file_object : list pystr) (fragments : list URLString) (join_array : list cell) :
  candidate_lists file_object = Ok (fragments, join_array) ->
  Forall (fun c => match c with
                   | Zero => True
                   | Matches l => ascending l /\ descending (rev l)
                   end) join_array.
Proof.
  intros H. unfold candidate_lists in H.
  apply bind_ok in H as ([frags tree] & Hbuild & H).
  apply bind_ok in H as ([st ja] & Hdfs & H). injection H as <- <-.
  assert (Hroot : sound_node (root tree)).
  { apply reachable_sound. eapply build_index_reachable; [|exact Hbuild].
    apply reachable_init. }
  eapply (@dfs_join_ordered (root tree)) in Hdfs as [_ Hja].
  - exact Hja.
  - now apply sound_label.
  - constructor.
  - constructor.
  - apply Forall_repeat. exact I.
Qed.

(** The hypothesis of [candidates_in_increasing_order] holds for three
    fragments of ["ABCDEFG"], the last of which has two candidates. *)
Lemma candidates_in_increasing_order_witness :
  Forall (fun c => match c with
                   | Zero => True
                   | Matches l => ascending l /\ descending (rev l)
                   end)
    [Matches [];
     Matches [(0, URLString_init (lit "BCDE"))];
     Matches [(0, URLString_init (lit "CDE")); (1, URLString_init (lit "CDEF"))]].
Proof.
  apply (@candidates_in_increasing_order
           [lit "ABCDE"; lit "BCDEF"; lit "CDEFG"]
           [URLString_init (lit "ABCDE"); URLString_init (lit "BCDEF");
            URLString_init (lit "CDEFG")]).
  vm_compute. reflexivity.
Defined.

(** ** The search *)

(** A call of [stitch] that is not the base case returns a non-empty text
    or [None]. *)
Lemma stitch_truthy_or_none unquote_plus depth ja index search st frags r st' :
  index <> length ja ->
  stitch unquote_plus depth ja index search st frags = Ok (r, st') ->
  truthy r = true \/ r = None.
Proof.
  intros Hidx H. destruct depth as [|depth]; cbn [stitch] in H;
    destruct (Nat.eqb_spec index (length ja)) as [|_]; try contradiction;
    [discriminate|].
  apply bind_ok in H as (target & _ & H).
  apply bind_ok in H as (entry & _ & H).
  destruct entry as [|[|m ms]]; [discriminate| |].
  - apply bind_ok in H as (stitchings' & _ & H).
    apply bind_ok in H as ([r0 st0] & _ & H). cbn in H. injection H as <- <-.
    destruct (truthy r0) eqn:E; auto.
  - revert st H. generalize (rev (m :: ms)) as cands.
    induction cands as [|[pred text] cands IH]; intros st H.
    + injection H as <- <-. auto.
    + apply bind_ok in H as (seen & _ & H).
      destruct (negb (seen =? 0)); [now apply IH in H|].
      apply bind_ok in H as (stitchings' & _ & H).
      apply bind_ok in H as (overlaps' & _ & H).
      apply bind_ok in H as (seen' & _ & H).
      apply bind_ok in H as ([r0 st0] & _ & H). cbn in H.
      destruct (truthy r0) eqn:E.
      * injection H as <- <-. auto.
      * apply bind_ok in H as (unseen & _ & H). now apply IH in H.
Qed.

Lemma run_search_truthy_or_none unquote_plus ja frags r :
  ja <> [] -> run_search unquote_plus ja frags = Ok r -> truthy r = true \/ r = None.
Proof.
  intros Hne H. unfold run_search in H.
  apply bind_ok in H as (search & _ & H).
  apply bind_ok in H as ([r0 st0] & Hst & H). cbn in H. injection H as <-.
  eapply stitch_truthy_or_none; [|exact Hst].
  destruct ja; [congruence|discriminate].
Qed.

Lemma forced_heads_first_success unquote_plus ja frags pre j post r :
  (forall i, In i pre -> forced_attempt unquote_plus ja frags i = Ok None) ->
  forced_attempt unquote_plus ja frags j = Ok r -> truthy r = true ->
  forall rv, forced_heads unquote_plus (pre ++ j :: post) rv ja frags = Ok (Some r).
Proof.
  intros Hpre Hj Hr. induction pre as [|i pre IH]; intros rv; cbn [app forced_heads].
  - rewrite Hj. cbn [bind]. now rewrite Hr.
  - rewrite (Hpre i) by now left. cbn [bind truthy].
    apply IH. intros k Hk. apply Hpre. now right.
Qed.

Lemma forced_heads_all_fail unquote_plus ja frags js :
  (forall i, In i js -> forced_attempt unquote_plus ja frags i = Ok None) ->
  forall rv, forced_heads unquote_plus js rv ja frags
             = Ok (match js with [] => rv | _ => Some None end).
Proof.
  induction js as [|j js IH]; intros Hall rv; cbn [forced_heads]; [reflexivity|].
  rewrite (Hall j) by now left. cbn [bind truthy].
  rewrite IH by (intros k Hk; apply Hall; now right).
  now destruct js.
Qed.

Lemma seq_split_at n j :
  j < n -> seq 0 n = seq 0 j ++ j :: seq (S j) (n - S j).
Proof.
  intros Hj. replace n with (j + S (n - S j)) at 1 by lia.
  rewrite seq_app. cbn [seq Nat.add]. reflexivity.
Qed.

Lemma py_setitem_length {A : Type} (l l' : list A) i v :
  py_setitem l i v = Ok l' -> length l' = length l.
Proof.
  revert i l'. induction l as [|a l IH]; intros i l' H; cbn [py_setitem] in H.
  - discriminate.
  - destruct i.
    + now injection H as <-.
    + apply bind_ok in H as (tl' & Htl & H). injection H as <-.
      cbn [length]. f_equal. eapply IH; eauto.
Qed.

(** The fallback of step 3, for a non-empty array of candidate lists.
    When some list is empty, the search runs once on the lists as they are.
    When none is, the result is that of the first fragment, in index order,
    whose forced-head search returns a text, and [None] when the search
    fails for every fragment; a forced-head search returns either a
    non-empty text or [None]. *)
Lemma fallback_in_index_order unquote_plus (ja : list cell) (frags : list URLString) :
  ja <> [] ->
  (forall c cs, empty_entries ja = Ok (c :: cs) ->
     assemble unquote_plus ja frags = run_search unquote_plus ja frags) /\
  (empty_entries ja = Ok [] ->
     (forall j r, j < length ja ->
        (forall i, i < j -> forced_attempt unquote_plus ja frags i = Ok None) ->
        forced_attempt unquote_plus ja frags j = Ok r -> truthy r = true ->
        assemble unquote_plus ja frags = Ok r) /\
     ((forall j, j < length ja -> forced_attempt unquote_plus ja frags j = Ok None) ->
      assemble unquote_plus ja frags = Ok None) /\
     (forall j r, forced_attempt unquote_plus ja frags j = Ok r ->
        truthy r = true \/ r = None)).
Proof.
  intros Hne. split; [|intros Hempty; repeat split].
  - intros c cs Hc. unfold assemble. rewrite Hc. reflexivity.
  - intros j r Hj Hpre Hatt Hr. unfold assemble. rewrite Hempty. cbn [bind].
    rewrite (seq_split_at Hj).
    rewrite (@forced_heads_first_success unquote_plus ja frags _ j _ r); auto.
    intros i Hi. apply in_seq in Hi. apply Hpre. lia.
  - intros Hall. unfold assemble. rewrite Hempty. cbn [bind].
    rewrite forced_heads_all_fail.
    + destruct ja; [congruence|]. reflexivity.
    + intros i Hi. apply in_seq in Hi. apply Hall. lia.
  - intros j r Hatt. unfold forced_attempt in Hatt.
    apply bind_ok in Hatt as (c & Hset & Hrun).
    eapply run_search_truthy_or_none; [|exact Hrun].
    apply py_setitem_length in Hset. destruct c; [|discriminate].
    destruct ja; [congruence|discriminate].
Qed.

(** ** Reconstruction on concrete fragment lists *)

(** C3, as the claim states it, fails: reconstruction of ["ABCDEF"],
    ["CDEFGH"], ["GHIJKL"] does not return ["ABCDEFGHIJKL"]. *)
Lemma three_fragments_not_reconstructed :
  reconstruct unquote_plus_ascii [lit "ABCDEF"; lit "CDEFGH"; lit "GHIJKL"]
  <> Ok (Some (lit "ABCDEFGHIJKL")).
Proof. vm_compute. discriminate. Qed.

(** C3, amended: with the minimum overlap of 3, ["CDEFGH"] and ["GHIJKL"]
    share only the two tokens ["GH"], so the traversal finds no predecessor
    for ["GHIJKL"], two fragments are left without candidate, and the result
    is [None].  When the third fragment is ["FGHIJKL"], which shares the
    three tokens ["FGH"], the result is the decoded ["ABCDEFGHIJKL"]. *)
Theorem three_fragments_need_three_shared_tokens :
  candidate_lists [lit "ABCDEF"; lit "CDEFGH"; lit "GHIJKL"]
  = Ok ([URLString_init (lit "ABCDEF"); URLString_init (lit "CDEFGH");
         URLString_init (lit "GHIJKL")],
        [Matches []; Matches [(0, URLString_init (lit "CDEF"))]; Matches []]) /\
  (forall unquote_plus,
     reconstruct unquote_plus [lit "ABCDEF"; lit "CDEFGH"; lit "GHIJKL"] = Ok None) /\
  reconstruct unquote_plus_ascii [lit "ABCDEF"; lit "CDEFGH"; lit "FGHIJKL"]
  = Ok (Some (lit "ABCDEFGHIJKL")).
Proof.
  split; [vm_compute; reflexivity|].
  split; [intros u; vm_compute; reflexivity|].
  vm_compute; reflexivity.
Qed.

(** C2: the stitch attempt reports success for assignments that leave a
    fragment unmerged.  For the fragments ["ABC"], ["ABC"] both are chain
    heads, the trace merges nothing, and the attempt returns the text; for
    ["ABCD"], ["BCDE"], ["ABCDE"] the trace merges the first two and never
    visits the third, which is still a separate object when the attempt
    returns the text.  Both times [reconstruct] returns that text. *)
Theorem unmerged_fragment_reported_as_success :
  trace 3 [-1; -1]%Z [0; 0] (deepcopy [URLString_init (lit "ABC"); URLString_init (lit "ABC")]) (-1)%Z
  = Ok {| store := [URLString_init (lit "ABC"); URLString_init (lit "ABC")];
          refs := [0; 1] |} /\
  (forall unquote_plus,
     stitch_attempt unquote_plus [-1; -1]%Z [0; 0]
       [URLString_init (lit "ABC"); URLString_init (lit "ABC")]
     = Ok (Some (unquote_plus (lit "ABC")))) /\
  reconstruct unquote_plus_ascii [lit "ABC"; lit "ABC"] = Ok (Some (lit "ABC")) /\
  trace 4 [-1; 0; -1]%Z [0; 3; 0]
    (deepcopy [URLString_init (lit "ABCD"); URLString_init (lit "BCDE");
               URLString_init (lit "ABCDE")]) (-1)%Z
  = Ok {| store := [URLString_init (lit "ABCDE"); URLString_init (lit "BCDE");
                    URLString_init (lit "ABCDE")];
          refs := [0; 0; 2] |} /\
  (forall unquote_plus,
     stitch_attempt unquote_plus [-1; 0; -1]%Z [0; 3; 0]
       [URLString_init (lit "ABCD"); URLString_init (lit "BCDE");
        URLString_init (lit "ABCDE")]
     = Ok (Some (unquote_plus (lit "ABCDE")))) /\
  reconstruct unquote_plus_ascii [lit "ABCD"; lit "BCDE"; lit "ABCDE"]
  = Ok (Some (lit "ABCDE")).
Proof.
  repeat split; try (intros u); vm_compute; reflexivity.
Qed.

(** C1, as the claim states it, fails: the text ["ABCDEF"] split into the
    fragments ["ABCD"] (tokens 0 to 4) and ["ABCDEF"] (tokens 0 to 6), which
    share the four tokens ["ABCD"], is not reconstructed.  [dfs_join] takes
    as candidates only suffixes that start after the first token of their
    fragment ([identity[1] != 0]); no such suffix of ["ABCD"] starts
    ["ABCDEF"], both fragments are left without candidate, no assignment
    merges them, and the result is [None]. *)
Lemma fragment_at_same_start_not_reconstructed :
  map (@concat ascii)
    [piece (toks (lit "ABCDEF")) (0, 4); piece (toks (lit "ABCDEF")) (0, 6)]
  = [lit "ABCD"; lit "ABCDEF"] /\
  candidate_lists [lit "ABCD"; lit "ABCDEF"]
  = Ok ([URLString_init (lit "ABCD"); URLString_init (lit "ABCDEF")],
        [Matches []; Matches []]) /\
  reconstruct unquote_plus_ascii [lit "ABCD"; lit "ABCDEF"] = Ok None /\
  reconstruct unquote_plus_ascii [lit "ABCD"; lit "ABCDEF"]
  <> Ok (Some (unquote_plus_ascii (lit "ABCDEF"))).
Proof.
  repeat split; try (vm_compute; reflexivity). vm_compute. discriminate.
Qed.

(** A fragment that ends in white space: the text ["ABCD EFGH"] split into
    ["ABCD "] (tokens 0 to 5) and ["CD EFGH"] (tokens 2 to 9), which share
    the three tokens ["CD "], is not reconstructed.  [reconstruct] reads
    every line through [rstrip], so the first fragment is taken to be
    ["ABCD"], which shares only two tokens with the second, and the result
    is [None]. *)
Lemma fragment_ending_in_white_space_not_reconstructed :
  map (@concat ascii)
    [piece (toks (lit "ABCD EFGH")) (0, 5); piece (toks (lit "ABCD EFGH")) (2, 9)]
  = [lit "ABCD "; lit "CD EFGH"] /\
  candidate_lists [lit "ABCD "; lit "CD EFGH"]
  = Ok ([URLString_init (lit "ABCD"); URLString_init (lit "CD EFGH")],
        [Matches []; Matches []]) /\
  reconstruct unquote_plus_ascii [lit "ABCD "; lit "CD EFGH"] = Ok None.
Proof.
  repeat split; vm_compute; reflexivity.
Qed.

(** A text that is shorter than the minimum overlap: the single fragment
    ["AB"] is filtered out of the index by [insert], its entry of
    [join_array] is still the placeholder [0] when step 3 takes its length,
    and [reconstruct] raises [TypeError]. *)
Lemma short_text_raises :
  candidate_lists [lit "AB"] = Ok ([URLString_init (lit "AB")], [Zero]) /\
  (forall unquote_plus, reconstruct unquote_plus [lit "AB"] = Raise TypeError).
Proof.
  split; [|intros u]; vm_compute; reflexivity.
Qed.

(** C7: on an empty list of fragments no candidate list is empty, the
    fallback loop runs no forced-head attempt, and [reconstruct] raises
    [UnboundLocalError] where [None] is due.  For a non-empty array of
    candidate lists the fallback behaves as stated: see
    [fallback_in_index_order]. *)
Theorem fallback_without_fragments_raises :
  (forall unquote_plus, reconstruct unquote_plus [] = Raise UnboundLocalError) /\
  (forall unquote_plus, assemble unquote_plus [] [] = Raise UnboundLocalError) /\
  (forall unquote_plus (ja : list cell) (frags : list URLString),
     ja <> [] -> empty_entries ja = Ok [] ->
     (forall j r, j < length ja ->
        (forall i, i < j -> forced_attempt unquote_plus ja frags i = Ok None) ->
        forced_attempt unquote_plus ja frags j = Ok r -> truthy r = true ->
        assemble unquote_plus ja frags = Ok r) /\
     ((forall j, j < length ja -> forced_attempt unquote_plus ja frags j = Ok None) ->
      assemble unquote_plus ja frags = Ok None)).
Proof.
  split; [intros u; vm_compute; reflexivity|].
  split; [intros u; vm_compute; reflexivity|].
  intros u ja frags Hne Hempty.
  destruct (@fallback_in_index_order u ja frags Hne) as [_ H].
  destruct (H Hempty) as (H1 & H2 & _). split; assumption.
Qed.

(** ** Clean tokens *)

Lemma clean_token_inv x :
  clean_token x = true ->
  (exists c, x = [c] /\ Ascii.eqb c PERCENT = false /\ Ascii.eqb c TERMINATOR = false) \/
  (exists a b, x = [PERCENT; a; b]).
Proof.
  destruct x as [|c [|a [|b [|d x]]]]; cbn; try discriminate.
  - intros H. apply andb_prop in H as [H1 H2].
    left. exists c. repeat split; now apply negb_true_iff.
  - intros H. apply Ascii.eqb_eq in H. subst. right. eauto.
Qed.

Lemma clean_not_terminator x :
  clean_token x = true -> starts_with_terminator x = false.
Proof.
  intros H. apply clean_token_inv in H as [(c & -> & _ & Ht)|(a & b & ->)];
    [exact Ht|reflexivity].
Qed.

Lemma clean_nonempty x : clean_token x = true -> x <> [].
Proof. destruct x; [discriminate|discriminate]. Qed.

Lemma toks_clean_app x r : clean_token x = true -> toks (x ++ r) = x :: toks r.
Proof.
  intros H. apply clean_token_inv in H as [(c & -> & Hp & Ht)|(a & b & ->)].
  - cbn [app toks]. now rewrite Hp, Ht.
  - reflexivity.
Qed.

Lemma toks_concat_clean l r :
  Forall (fun x => clean_token x = true) l -> toks (concat l ++ r) = l ++ toks r.
Proof.
  induction 1 as [|x l Hx _ IH]; cbn [concat app]; [reflexivity|].
  rewrite <- app_assoc, toks_clean_app by exact Hx. now rewrite IH.
Qed.

Lemma toks_terminator t :
  starts_with_terminator t = true -> toks t = [t].
Proof.
  destruct t as [|c t]; cbn; [discriminate|]. intros H.
  apply Ascii.eqb_eq in H. subst. reflexivity.
Qed.

Lemma toks_clean l :
  Forall (fun x => clean_token x = true) l -> toks (concat l) = l.
Proof.
  intros H. rewrite <- (app_nil_r (concat l)), toks_concat_clean by exact H.
  cbn. now rewrite app_nil_r.
Qed.

Lemma toks_terminated l t :
  Forall (fun x => clean_token x = true) l -> starts_with_terminator t = true ->
  toks (concat l ++ t) = l ++ [t].
Proof.
  intros Hl Ht. now rewrite toks_concat_clean, toks_terminator.
Qed.

Lemma terminator_token_starts frag : starts_with_terminator (terminator_token frag) = true.
Proof. reflexivity. Qed.

Lemma terminator_token_inj f g : terminator_token f = terminator_token g -> f = g.
Proof.
  unfold terminator_token, py_str_of_nat, lit. intros H. injection H as H.
  apply (f_equal String.string_of_list_ascii) in H.
  rewrite !String.string_of_list_ascii_of_string in H.
  apply DecimalNat.Unsigned.to_uint_inj.
  assert (Some (Nat.to_uint f) = Some (Nat.to_uint g)) as [= E]; [|exact E].
  rewrite <- !DecimalString.NilEmpty.usu. now rewrite H.
Qed.

(** ** The insertion walk on a trie *)

Lemma trie_label_init n : trie n -> node_string n = URLString_init (string (node_string n)).
Proof. now destruct 1. Qed.

Lemma len_label n : trie n -> len (node_string n) = length (label n).
Proof. intros H. rewrite (trie_label_init H) at 1. apply len_init. Qed.

(** The leaf that the walk attaches for the suffix tokens from [c] on. *)
Definition new_leaf (sraw : pystr) (c : nat) (id : nat * nat) : URLSuffixTreeNode :=
  Node (URLString_init (concat (skipn c (toks sraw)))) (Some id) [].

Lemma step_new_child next sraw id c cur :
  c < length (toks sraw) ->
  split_or_advance next (URLString_init sraw) id c cur (-1)%Z
  = Ok (Node (node_string cur) (identity cur)
             (dict_set (children cur) (nth c (toks sraw) []) (new_leaf sraw c id))).
Proof.
  intros Hc. unfold split_or_advance.
  destruct (Z.eqb_spec (-1) (-1)); [|lia]. cbn [bind].
  rewrite getslice_from by lia. cbn [bind]. unfold split.
  destruct (Z.leb_spec (-1) 0); [|lia].
  rewrite getitem_init by (rewrite toks_skipn, length_skipn; lia). cbn [bind].
  rewrite toks_skipn. cbn [string URLString_init].
  rewrite nth_skipn, Nat.add_0_r. reflexivity.
Qed.

Lemma step_advance next sraw id c cur i :
  trie cur -> c < length (toks sraw) -> i < length (label cur) ->
  nth c (toks sraw) [] = nth i (label cur) [] ->
  split_or_advance next (URLString_init sraw) id c cur (Z.of_nat i)
  = next cur (Z.of_nat (S i)).
Proof.
  intros Hcur Hc Hi Heq. unfold split_or_advance.
  destruct (Z.eqb_spec (Z.of_nat i) (-1)); [lia|].
  rewrite getitem_init by exact Hc. cbn [bind].
  rewrite (trie_label_init Hcur), Nat2Z.id.
  rewrite getitem_init by exact Hi. cbn [bind].
  unfold URLString_ne, URLString_eq. cbn [string URLString_init].
  fold (label cur). rewrite Heq.
  rewrite (proj2 (pystr_eqb_eq _ _) eq_refl). cbn [negb].
  f_equal. lia.
Qed.

Lemma step_split next sraw id c cur i :
  trie cur -> c < length (toks sraw) -> 0 < i < length (label cur) ->
  nth c (toks sraw) [] <> nth i (label cur) [] ->
  split_or_advance next (URLString_init sraw) id c cur (Z.of_nat i)
  = Ok (Node (URLString_init (concat (firstn i (label cur)))) None
          [(nth i (label cur) [],
            Node (URLString_init (concat (skipn i (label cur)))) (identity cur)
                 (children cur));
           (nth c (toks sraw) [], new_leaf sraw c id)]).
Proof.
  unfold label, new_leaf. intros Hcur Hc Hi Hne. unfold split_or_advance.
  destruct (Z.eqb_spec (Z.of_nat i) (-1)); [lia|].
  rewrite getitem_init by exact Hc. cbn [bind].
  rewrite (trie_label_init Hcur), Nat2Z.id.
  rewrite getitem_init by exact (proj2 Hi). cbn [bind].
  unfold URLString_ne, URLString_eq. cbn [string URLString_init].
  destruct (pystr_eqb (nth c (toks sraw) []) (nth i (toks (string (node_string cur))) []))
    eqn:E; [apply pystr_eqb_eq in E; contradiction|].
  cbn [negb]. rewrite getslice_from by lia. cbn [bind]. unfold split.
  destruct (Z.leb_spec (Z.of_nat i) 0); [lia|].
  rewrite (trie_label_init Hcur), Nat2Z.id. cbn [string URLString_init].
  rewrite getslice_upto by lia. cbn [bind].
  rewrite getslice_from by lia. cbn [bind].
  rewrite getitem_init by (rewrite toks_skipn, length_skipn; lia). cbn [bind].
  rewrite getitem_init by (rewrite toks_skipn, length_skipn; lia). cbn [bind].
  rewrite !toks_skipn. cbn [string URLString_init].
  rewrite !nth_skipn, !Nat.add_0_r. cbn [dict_set]. rewrite E.
  reflexivity.
Qed.

Lemma dict_get_none {V : Type} (d : list (pystr * V)) k :
  dict_get d k = None -> ~ In k (map fst d).
Proof.
  induction d as [|[k' v'] d IH]; cbn; [tauto|].
  destruct (pystr_eqb k k') eqn:E; [discriminate|].
  intros H [Hk|Hin]; [|now apply IH].
  subst. assert (pystr_eqb k k = true) by now apply pystr_eqb_eq. congruence.
Qed.

Lemma dict_set_fresh {V : Type} (d : list (pystr * V)) k v :
  dict_get d k = None -> dict_set d k v = d ++ [(k, v)].
Proof.
  induction d as [|[k' v'] d IH]; cbn; [reflexivity|].
  destruct (pystr_eqb k k'); [discriminate|]. intros H. now rewrite IH.
Qed.

Lemma dict_set_keys {V : Type} (d : list (pystr * V)) k v x :
  dict_get d k = Some x -> map fst (dict_set d k v) = map fst d.
Proof.
  induction d as [|[k' v'] d IH]; cbn; [discriminate|].
  destruct (pystr_eqb k k') eqn:E; [reflexivity|].
  intros H. cbn. now rewrite IH.
Qed.

Lemma dict_set_in {V : Type} (d : list (pystr * V)) k v x :
  dict_get d k = Some x -> NoDup (map fst d) ->
  forall k' y, In (k', y) (dict_set d k v) <->
               (k' = k /\ y = v) \/ (k' <> k /\ In (k', y) d).
Proof.
  induction d as [|[k0 v0] d IH]; cbn; [discriminate|].
  destruct (pystr_eqb k k0) eqn:E; intros Hget Hnd k' y.
  - apply pystr_eqb_eq in E. subst k0. inversion Hnd as [|? ? Hnotin _]; subst. cbn.
    split.
    + intros [[= <- <-]|Hin]; [now left|]. right. split; [|now right].
      intros ->. apply Hnotin. apply (in_map fst) in Hin. exact Hin.
    + intros [[-> ->]|[Hne [[= <- <-]|Hin]]]; [now left|congruence|now right].
  - inversion Hnd; subst. cbn. rewrite (IH Hget) by assumption.
    assert (k0 <> k).
    { intros ->. assert (pystr_eqb k k = true) by now apply pystr_eqb_eq. congruence. }
    split.
    + intros [[= <- <-]|[H'|H']]; [right; split; [assumption|now left]|now left|].
      right. split; [tauto|now right].
    + intros [H'|[Hne [[= <- <-]|Hin]]]; [right; now left|now left|].
      right. right. tauto.
Qed.

Lemma dict_get_nodup {V : Type} (d : list (pystr * V)) k v :
  NoDup (map fst d) -> In (k, v) d -> dict_get d k = Some v.
Proof.
  induction d as [|[k0 v0] d IH]; cbn; [tauto|]. intros Hnd Hin.
  inversion Hnd as [|? ? Hnotin Hnd']; subst.
  destruct (pystr_eqb k k0) eqn:E.
  - apply pystr_eqb_eq in E. subst k0. destruct Hin as [[= ->]|Hin]; [reflexivity|].
    exfalso. apply Hnotin. apply (in_map fst) in Hin. exact Hin.
  - destruct Hin as [[= -> ->]|Hin]; [|now apply IH].
    assert (pystr_eqb k k = true) by now apply pystr_eqb_eq. congruence.
Qed.

Lemma in_entries s ident cs e :
  In e (entries (Node s ident cs)) <->
  (ident = Some (snd e) /\ fst e = toks (string s)) \/
  (exists k c e', In (k, c) cs /\ In e' (entries c) /\ e = under (toks (string s)) e').
Proof.
  cbn [entries]. rewrite in_app_iff, in_flat_map. split.
  - intros [H|([k c] & Hin & H)].
    + left. destruct ident as [id|]; [|contradiction].
      destruct H as [<-|[]]. auto.
    + right. apply in_map_iff in H as (e' & <- & He'). cbn [snd] in He'.
      exists k, c, e'. auto.
  - intros [[-> He]|(k & c & e' & Hin & He' & ->)].
    + left. left. destruct e. cbn in *. now subst.
    + right. exists (k, c). split; [exact Hin|]. apply in_map. exact He'.
Qed.

Lemma trie_children n :
  trie n ->
  Forall (fun kc => (exists rest, label (snd kc) = fst kc :: rest) /\ trie (snd kc))
         (children n).
Proof. now destruct 1. Qed.

Lemma trie_keys n : trie n -> NoDup (map fst (children n)).
Proof. now destruct 1. Qed.

Lemma trie_internal n :
  trie n -> identity n = None -> Forall (fun x => clean_token x = true) (label n).
Proof. destruct 1 as [s ident cs _ Hshape _ _]. cbn. now intros ->. Qed.

Lemma trie_leaf n id :
  trie n -> identity n = Some id ->
  children n = [] /\
  exists l t, label n = l ++ [t] /\ Forall (fun x => clean_token x = true) l /\
              starts_with_terminator t = true.
Proof. destruct 1 as [s ident cs _ Hshape _ _]. cbn. now intros ->. Qed.

Lemma skipn_nth_cons {A : Type} (l : list A) k d :
  k < length l -> skipn k l = nth k l d :: skipn (S k) l.
Proof.
  revert k. induction l as [|a l IH]; intros k Hk; cbn [length] in Hk; [lia|].
  destruct k; [reflexivity|]. cbn [skipn nth]. apply IH. lia.
Qed.

Lemma terminator_is_last n i :
  trie n -> i < length (label n) ->
  starts_with_terminator (nth i (label n) []) = true ->
  exists id, identity n = Some id /\ S i = length (label n).
Proof.
  intros Hn Hi Hterm. destruct (identity n) as [id|] eqn:Hid.
  - exists id. split; [reflexivity|].
    destruct (trie_leaf Hn Hid) as (_ & l & t & HL & Hl & _).
    rewrite HL in *. rewrite length_app in *. cbn [length] in *.
    destruct (Nat.lt_ge_cases i (length l)) as [Hlt|Hge]; [|lia].
    rewrite app_nth1 in Hterm by exact Hlt.
    pose proof (proj1 (Forall_forall _ _) Hl _ (nth_In _ [] Hlt)) as Hc.
    apply clean_not_terminator in Hc. exfalso. exact (eq_true_false_abs _ Hterm Hc).
  - pose proof (trie_internal Hn Hid) as Hl.
    pose proof (proj1 (Forall_forall _ _) Hl _ (nth_In _ [] Hi)) as Hc.
    apply clean_not_terminator in Hc. exfalso. exact (eq_true_false_abs _ Hterm Hc).
Qed.

Lemma leaf_entry n id : identity n = Some id -> In (label n, id) (entries n).
Proof.
  destruct n as [s ident cs]. cbn [identity]. intros ->.
  apply in_entries. left. split; reflexivity.
Qed.

Lemma new_leaf_trie sraw c id body t :
  toks sraw = body ++ [t] ->
  Forall (fun x => clean_token x = true) body ->
  starts_with_terminator t = true ->
  c < length (body ++ [t]) ->
  trie (new_leaf sraw c id) /\
  label (new_leaf sraw c id) = nth c (body ++ [t]) [] :: skipn (S c) (body ++ [t]) /\
  entries (new_leaf sraw c id) = [(skipn c (body ++ [t]), id)].
Proof.
  intros Hs Hbody Ht Hc.
  assert (Hlab : label (new_leaf sraw c id) = skipn c (body ++ [t])).
  { unfold label, new_leaf. cbn [node_string string URLString_init].
    now rewrite toks_skipn, Hs. }
  split; [|split].
  - constructor; [reflexivity| |constructor|constructor].
    split; [reflexivity|]. exists (skipn c body), t.
    cbn [string URLString_init]. rewrite toks_skipn, Hs.
    rewrite length_app in Hc. cbn [length] in Hc.
    split; [|split; [now apply Forall_skipn|exact Ht]].
    rewrite skipn_app. replace (c - length body) with 0 by lia. reflexivity.
  - rewrite Hlab. now apply skipn_nth_cons.
  - unfold new_leaf. cbn [entries flat_map]. cbn [string URLString_init].
    rewrite toks_skipn, Hs. reflexivity.
Qed.

Section Walk.

Variables (sraw : pystr) (id : nat * nat) (body : list pystr) (t : pystr).
Hypothesis Hs : toks sraw = body ++ [t].
Hypothesis Hbody : Forall (fun x => clean_token x = true) body.
Hypothesis Ht : starts_with_terminator t = true.

Lemma walked_new_child cur c :
  trie cur -> c < length (body ++ [t]) -> identity cur = None ->
  dict_get (children cur) (nth c (body ++ [t]) []) = None ->
  walked (body ++ [t]) id cur (length (label cur)) c
    (Node (node_string cur) (identity cur)
          (dict_set (children cur) (nth c (body ++ [t]) []) (new_leaf sraw c id))).
Proof.
  intros Hcur Hc Hid Hget.
  destruct (@new_leaf_trie sraw c id body t Hs Hbody Ht Hc) as (Hleaf & Hlab & Hent).
  rewrite (@dict_set_fresh _ _ _ (new_leaf sraw c id) Hget).
  destruct cur as [s ident cs]. cbn [node_string identity children] in *.
  subst ident. unfold walked. cbn [label node_string].
  split; [|split; [|split]].
  - inversion Hcur as [? ? ? Hinit Hshape Hnd Hcs]; subst.
    constructor; [exact Hinit|exact Hshape| |].
    + rewrite map_app. cbn [map fst]. apply NoDup_app; [exact Hnd|repeat constructor; tauto|].
      intros k Hk [<-|[]]. exact (dict_get_none _ _ Hget Hk).
    + apply Forall_app. split; [exact Hcs|]. constructor; [|constructor].
      cbn [fst snd]. split; [eauto|exact Hleaf].
  - intros e. rewrite firstn_all. rewrite !in_entries. split.
    + intros [[H _]|(k & c0 & e' & Hin & He' & ->)]; [discriminate|].
      apply in_app_iff in Hin as [Hin|[[= <- <-]|[]]].
      * left. right. eauto 6.
      * right. rewrite Hent in He'. destruct He' as [<-|[]]. reflexivity.
    + intros [[[H _]|(k & c0 & e' & Hin & He' & ->)]| ->]; [discriminate| |].
      * right. exists k, c0, e'. repeat split; auto. apply in_app_iff. now left.
      * right. exists (nth c (body ++ [t]) []), (new_leaf sraw c id),
          (skipn c (body ++ [t]), id).
        repeat split; [apply in_app_iff; right; now left|rewrite Hent; now left].
  - eauto.
  - auto.
Qed.

Lemma label_node s ident cs : label (Node s ident cs) = toks (string s).
Proof. reflexivity. Qed.

Lemma under_under a b e : under a (under b e) = under (a ++ b) e.
Proof. unfold under. cbn [fst snd]. now rewrite app_assoc. Qed.

Lemma walked_split cur i c :
  trie cur -> c < length (body ++ [t]) -> 0 < i < length (label cur) ->
  nth c (body ++ [t]) [] <> nth i (label cur) [] ->
  Forall (fun x => clean_token x = true) (firstn i (label cur)) ->
  walked (body ++ [t]) id cur i c
    (Node (URLString_init (concat (firstn i (label cur)))) None
       [(nth i (label cur) [],
         Node (URLString_init (concat (skipn i (label cur)))) (identity cur)
              (children cur));
        (nth c (body ++ [t]) [], new_leaf sraw c id)]).
Proof.
  intros Hcur Hc Hi Hne Hclean.
  destruct (@new_leaf_trie sraw c id body t Hs Hbody Ht Hc) as (Hleaf & Hlab & Hent).
  assert (Hfront : toks (concat (firstn i (label cur))) = firstn i (label cur))
    by apply toks_firstn.
  assert (Hback : toks (concat (skipn i (label cur))) = skipn i (label cur))
    by apply toks_skipn.
  assert (Hold : trie (Node (URLString_init (concat (skipn i (label cur))))
                            (identity cur) (children cur))).
  { constructor; [reflexivity| |now apply trie_keys|now apply trie_children].
    cbn [string URLString_init]. rewrite Hback.
    destruct (identity cur) as [id'|] eqn:Hid.
    - destruct (trie_leaf Hcur Hid) as (Hcs & l & t' & HL & Hl & Ht').
      split; [exact Hcs|]. exists (skipn i l), t'.
      rewrite HL in *. rewrite length_app in Hi. cbn [length] in Hi.
      split; [|split; [now apply Forall_skipn|exact Ht']].
      rewrite skipn_app. replace (i - length l) with 0 by lia. reflexivity.
    - apply Forall_skipn. now apply trie_internal. }
  unfold walked. rewrite !label_node. cbn [string URLString_init]. rewrite Hfront.
  split; [|split; [|split]].
  - constructor; [reflexivity| | |].
    + cbn [string URLString_init]. now rewrite Hfront.
    + cbn [map fst]. constructor; [|constructor; [tauto|constructor]].
      intros [H|[]]. congruence.
    + constructor; [|constructor; [|constructor]]; cbn [fst snd].
      * split; [|exact Hold]. rewrite label_node. cbn [string URLString_init].
        rewrite Hback. rewrite (skipn_nth_cons (label cur) [] (proj2 Hi)). eauto.
      * split; [eauto|exact Hleaf].
  - intros e. rewrite (in_entries (URLString_init (concat (firstn i (label cur))))).
    cbn [string URLString_init]. rewrite Hfront. split.
    + intros [[H _]|(k & c0 & e' & Hin & He' & ->)]; [discriminate|].
      destruct Hin as [[= <- <-]|[[= <- <-]|[]]].
      * left. apply in_entries in He'. cbn [string URLString_init] in He'.
        rewrite Hback in He'. destruct cur as [s ident cs].
        cbn [identity children label node_string] in *. apply in_entries.
        destruct He' as [[Hid He']|(k & c1 & e'' & Hin & He'' & ->)].
        -- left. unfold under. cbn [fst snd]. split; [exact Hid|].
           rewrite He'. apply firstn_skipn.
        -- right. exists k, c1, e''. repeat split; auto.
           rewrite under_under. now rewrite firstn_skipn.
      * right. rewrite Hent in He'. destruct He' as [<-|[]]. reflexivity.
    + intros [He| ->].
      * right.
        exists (nth i (label cur) []),
          (Node (URLString_init (concat (skipn i (label cur)))) (identity cur)
                (children cur)).
        destruct cur as [s ident cs].
        cbn [identity children label node_string] in *. apply in_entries in He.
        destruct He as [[Hid He]|(k & c1 & e'' & Hin & He'' & ->)].
        -- exists (skipn i (toks (string s)), snd e). split; [now left|]. split.
           ++ apply in_entries. left. cbn [fst snd string URLString_init].
              rewrite Hback. auto.
           ++ unfold under. cbn [fst snd]. rewrite firstn_skipn, <- He.
              now destruct e.
        -- exists (under (skipn i (toks (string s))) e''). split; [now left|]. split.
           ++ apply in_entries. right. cbn [string URLString_init]. rewrite Hback.
              exists k, c1, e''. auto.
           ++ rewrite under_under. now rewrite firstn_skipn.
      * right. exists (nth c (body ++ [t]) []), (new_leaf sraw c id),
          (skipn c (body ++ [t]), id).
        repeat split; [right; now left|rewrite Hent; now left].
  - intros x rest HL. rewrite HL. destruct i as [|i']; [lia|]. cbn [firstn]. eauto.
  - intros HL. rewrite HL in Hi. cbn [length] in Hi. lia.
Qed.

Lemma walked_child cur c child child' :
  trie cur -> identity cur = None -> c < length (body ++ [t]) ->
  dict_get (children cur) (nth c (body ++ [t]) []) = Some child ->
  walked (body ++ [t]) id child 1 (S c) child' ->
  walked (body ++ [t]) id cur (length (label cur)) c
    (Node (node_string cur) (identity cur)
          (dict_set (children cur) (nth c (body ++ [t]) []) child')).
Proof.
  intros Hcur Hid Hc Hget (Htrie' & Hent' & Hhd' & _).
  pose proof (dict_get_in _ _ Hget) as Hin.
  pose proof (proj1 (Forall_forall _ _) (trie_children Hcur) _ Hin) as [[rest Hlab] Hchild].
  cbn [fst snd] in Hlab, Hchild.
  destruct (Hhd' _ _ Hlab) as [rest' Hlab'].
  assert (Hnew : firstn 1 (label child) ++ skipn (S c) (body ++ [t])
                 = skipn c (body ++ [t])).
  { rewrite Hlab. cbn [firstn app]. symmetry. now apply skipn_nth_cons. }
  rewrite Hnew in Hent'.
  destruct cur as [s ident cs]. cbn [node_string identity children] in *. subst ident.
  unfold walked. rewrite !label_node. rewrite firstn_all.
  inversion Hcur as [? ? ? Hinit Hshape Hnd Hcs]; subst.
  split; [|split; [|split]].
  - constructor; [exact Hinit|exact Hshape| |].
    + now rewrite (dict_set_keys _ _ child' Hget).
    + apply Forall_forall. intros [k y] Hky.
      apply (dict_set_in _ _ child' Hget Hnd) in Hky as [[-> ->]|[_ Hky]].
      * cbn [fst snd]. split; [eauto|exact Htrie'].
      * exact (proj1 (Forall_forall _ _) Hcs _ Hky).
  - intros e. rewrite !in_entries. split.
    + intros [[H _]|(k & c0 & e' & Hk & He' & ->)]; [discriminate|].
      apply (dict_set_in _ _ child' Hget Hnd) in Hk as [[-> ->]|[_ Hk]].
      * apply Hent' in He' as [He'| ->].
        -- left. right. exists (nth c (body ++ [t]) []), child, e'. auto.
        -- right. reflexivity.
      * left. right. exists k, c0, e'. auto.
    + intros [[[H _]|(k & c0 & e' & Hk & He' & ->)]| ->]; [discriminate| |].
      * right. destruct (list_eq_dec ascii_dec k (nth c (body ++ [t]) [])) as [->|Hne].
        -- rewrite (dict_get_nodup _ _ _ Hnd Hk) in Hget. injection Hget as ->.
           exists (nth c (body ++ [t]) []), child', e'. repeat split.
           ++ apply (dict_set_in _ _ child' (dict_get_nodup _ _ _ Hnd Hk) Hnd). now left.
           ++ apply Hent'. now left.
        -- exists k, c0, e'. repeat split; auto.
           apply (dict_set_in _ _ child' Hget Hnd). right. auto.
      * right. exists (nth c (body ++ [t]) []), child', (skipn c (body ++ [t]), id).
        repeat split.
        -- apply (dict_set_in _ _ child' Hget Hnd). now left.
        -- apply Hent'. now right.
  - eauto.
  - auto.
Qed.

Lemma suffix_position c :
  c < length (body ++ [t]) ->
  (S c < length (body ++ [t]) /\ clean_token (nth c (body ++ [t]) []) = true) \/
  (S c = length (body ++ [t]) /\ nth c (body ++ [t]) [] = t /\
   skipn c (body ++ [t]) = [t]).
Proof.
  rewrite length_app. cbn [length]. intros Hc.
  destruct (Nat.lt_ge_cases c (length body)) as [Hlt|Hge].
  - left. split; [lia|]. rewrite app_nth1 by exact Hlt.
    exact (proj1 (Forall_forall _ _) Hbody _ (nth_In _ [] Hlt)).
  - right. assert (c = length body) by lia. subst c. split; [lia|].
    rewrite nth_middle, skipn_app, skipn_all, Nat.sub_diag. auto.
Qed.

Lemma insert_walk_spec : forall todo cur i c,
  trie cur -> todo = length (body ++ [t]) - c -> c < length (body ++ [t]) ->
  i <= length (label cur) -> (i = 0 -> label cur = []) ->
  Forall (fun x => clean_token x = true) (firstn i (label cur)) ->
  (forall e, In e (entries cur) ->
             fst e <> firstn i (label cur) ++ skipn c (body ++ [t])) ->
  exists cur',
    insert_walk todo (URLString_init sraw) id cur (Z.of_nat i) c = Ok cur' /\
    walked (body ++ [t]) id cur i c cur'.
Proof.
  induction todo as [|todo IH]; intros cur i c Hcur Htodo Hc Hi Hi0 Hclean Hfresh;
    [lia|].
  cbn [insert_walk]. rewrite (len_label Hcur).
  assert (Hc' : c < length (toks sraw)) by (rewrite Hs; exact Hc).
  destruct (Z.eqb_spec (Z.of_nat i) (Z.of_nat (length (label cur)))) as [E|E].
  - apply Nat2Z.inj in E. subst i. rewrite firstn_all in Hclean, Hfresh.
    assert (Hid : identity cur = None).
    { destruct (identity cur) as [id'|] eqn:Hid; [exfalso|reflexivity].
      destruct (trie_leaf Hcur Hid) as (_ & l & t' & HL & _ & Ht').
      rewrite HL in Hclean. apply Forall_app in Hclean as [_ Hclean].
      inversion Hclean as [|? ? Hx _]; subst.
      apply clean_not_terminator in Hx. congruence. }
    rewrite getitem_init by exact Hc'. cbn [bind string URLString_init]. rewrite Hs.
    destruct (dict_get (children cur) (nth c (body ++ [t]) [])) as [child|] eqn:Hget.
    + pose proof (dict_get_in _ _ Hget) as Hin.
      pose proof (proj1 (Forall_forall _ _) (trie_children Hcur) _ Hin)
        as [[rest Hlab] Hchild].
      cbn [fst snd] in Hlab, Hchild.
      assert (Hnext : S c < length (body ++ [t]) /\
                      clean_token (nth c (body ++ [t]) []) = true).
      { destruct (suffix_position Hc) as [H|(_ & Hkey & Hrest)]; [exact H|exfalso].
        destruct (@terminator_is_last child 0 Hchild) as (id' & Hid' & Hlen).
        - rewrite Hlab. cbn [length]. lia.
        - rewrite Hlab. cbn [nth]. now rewrite Hkey.
        - apply leaf_entry in Hid'. rewrite Hlab in Hid', Hlen.
          destruct rest; [|cbn [length] in Hlen; lia].
          apply (Hfresh (under (label cur) ([nth c (body ++ [t]) []], id'))).
          + destruct cur as [s ident cs]. apply in_entries. right.
            exists (nth c (body ++ [t]) []), child, ([nth c (body ++ [t]) []], id').
            auto.
          + unfold under. cbn [fst]. now rewrite Hrest, Hkey. }
      destruct Hnext as [Hnext Hkeyclean].
      change 0%Z with (Z.of_nat 0).
      rewrite step_advance;
        [|exact Hchild|exact Hc'|rewrite Hlab; cbn [length]; lia
         |rewrite Hs, Hlab; reflexivity].
      destruct (IH child 1 (S c)) as (child' & Hw & Hwalked).
      * exact Hchild.
      * lia.
      * exact Hnext.
      * rewrite Hlab. cbn [length]. lia.
      * discriminate.
      * rewrite Hlab. cbn [firstn]. constructor; [exact Hkeyclean|constructor].
      * intros e He Heq.
        apply (Hfresh (under (label cur) e)).
        -- destruct cur as [s ident cs]. apply in_entries. right.
           exists (nth c (body ++ [t]) []), child, e. auto.
        -- unfold under. cbn [fst]. rewrite Heq, Hlab. cbn [firstn app].
           now rewrite <- (skipn_nth_cons (body ++ [t]) [] Hc).
      * rewrite Hw. cbn [bind]. eexists. split; [reflexivity|].
        eapply walked_child; eassumption.
    + rewrite step_new_child by exact Hc'. rewrite Hs.
      eexists. split; [reflexivity|]. now apply walked_new_child.
  - assert (Hlt : 0 < i < length (label cur)).
    { split; [|lia]. destruct i; [|lia]. rewrite Hi0 in E by reflexivity.
      cbn in E. lia. }
    destruct (list_eq_dec ascii_dec (nth c (body ++ [t]) []) (nth i (label cur) []))
      as [Heq|Hne].
    + rewrite step_advance;
        [|exact Hcur|exact Hc'|lia|rewrite Hs; exact Heq].
      assert (Hnext : S c < length (body ++ [t]) /\
                      clean_token (nth c (body ++ [t]) []) = true).
      { destruct (suffix_position Hc) as [H|(_ & Hkey & Hrest)]; [exact H|exfalso].
        destruct (@terminator_is_last cur i Hcur) as (id' & Hid' & Hlen).
        - lia.
        - now rewrite <- Heq, Hkey.
        - apply leaf_entry in Hid'. apply (Hfresh _ Hid'). cbn [fst].
          rewrite Hrest, <- Hkey, Heq.
          rewrite <- (firstn_skipn i (label cur)) at 1. f_equal.
          rewrite (skipn_nth_cons (label cur) [] (proj2 Hlt)). f_equal.
          apply skipn_all2. lia. }
      destruct Hnext as [Hnext Hkeyclean].
      assert (Hpath : firstn (S i) (label cur) ++ skipn (S c) (body ++ [t])
                      = firstn i (label cur) ++ skipn c (body ++ [t])).
      { rewrite (firstn_succ_nth (label cur) [] (proj2 Hlt)), <- app_assoc.
        cbn [app]. rewrite <- Heq. now rewrite <- (skipn_nth_cons (body ++ [t]) [] Hc). }
      destruct (IH cur (S i) (S c)) as (cur' & Hw & Hwalked).
      * exact Hcur.
      * lia.
      * exact Hnext.
      * lia.
      * discriminate.
      * rewrite (firstn_succ_nth (label cur) [] (proj2 Hlt)).
        apply Forall_app. split; [exact Hclean|].
        constructor; [|constructor]. now rewrite <- Heq.
      * intros e He. rewrite Hpath. now apply Hfresh.
      * exists cur'. split; [exact Hw|].
        unfold walked in *. now rewrite Hpath in Hwalked.
    + rewrite step_split;
        [|exact Hcur|exact Hc'|exact Hlt|rewrite Hs; exact Hne].
      rewrite Hs. eexists. split; [reflexivity|]. now apply walked_split.
Qed.

End Walk.

(** ** Building the index *)

Lemma insert_rec_spec m frag : 0 < m ->
  forall depth G off r,
    Forall (fun x => clean_token x = true) G ->
    trie r -> label r = [] ->
    length G < depth ->
    (forall e j, In e (entries r) -> fst e <> skipn j G ++ [terminator_token frag]) ->
    exists r',
      insert_rec depth m r (URLString_init (concat G)) (frag, off) = Ok r' /\
      trie r' /\ label r' = [] /\
      forall e, In e (entries r') <->
                In e (entries r) \/
                exists j, j + m <= length G /\
                          e = (skipn j G ++ [terminator_token frag], (frag, off + j)).
Proof.
  intros Hm. induction depth as [|depth IH]; intros G off r HG Hr Hlab Hdepth Hfresh;
    [lia|].
  cbn [insert_rec]. rewrite len_init, (toks_clean HG).
  destruct (Nat.ltb_spec (length G) m) as [Hshort|Hlong].
  - exists r. repeat split; auto.
    intros [H|(j & Hj & _)]; [exact H|lia].
  - cbn [URLString_add fst snd string URLString_init].
    fold (terminator_token frag).
    assert (Hs : toks (concat G ++ terminator_token frag) = G ++ [terminator_token frag])
      by now apply toks_terminated.
    rewrite len_init, Hs.
    destruct (@insert_walk_spec (concat G ++ terminator_token frag) (frag, off) G
                (terminator_token frag) Hs HG (terminator_token_starts frag)
                (length (G ++ [terminator_token frag])) r 0 0)
      as (r1 & Hwalk & Hr1 & Hent1 & _ & Hlab1); auto.
    + lia.
    + rewrite length_app. cbn [length]. lia.
    + lia.
    + intros e He. cbn [firstn skipn app]. exact (Hfresh e 0 He).
    + change (Z.of_nat 0) with 0%Z in Hwalk. rewrite Hwalk. cbn [bind].
      cbn [firstn skipn app] in Hent1.
      rewrite getslice_from by (rewrite (toks_clean HG); lia). cbn [bind].
      rewrite (toks_clean HG).
      destruct (IH (skipn 1 G) (off + 1) r1) as (r' & Hrec & Hr' & Hlab' & Hent').
      * now apply Forall_skipn.
      * exact Hr1.
      * now apply Hlab1.
      * rewrite length_skipn. lia.
      * intros e j He. rewrite skipn_skipn. apply Hent1 in He as [He| ->].
        -- now apply Hfresh.
        -- cbn [fst]. intros Heq.
           apply (f_equal (@length _)) in Heq. rewrite !length_app, length_skipn in Heq.
           cbn [length] in Heq. lia.
      * exists r'. split; [exact Hrec|]. split; [exact Hr'|]. split; [exact Hlab'|].
        intros e. rewrite Hent', Hent1. split.
        -- intros [[H| ->]|(j & Hj & ->)].
           ++ now left.
           ++ right. exists 0. split; [lia|]. cbn [skipn].
              now rewrite Nat.add_0_r.
           ++ right. exists (S j). rewrite length_skipn in Hj. split; [lia|].
              rewrite skipn_skipn.
              replace (off + 1 + j) with (off + S j) by lia.
              replace (j + 1) with (S j) by lia. reflexivity.
        -- intros [H|(j & Hj & ->)]; [now left; left|].
           destruct j as [|j].
           ++ left. right. cbn [skipn]. now rewrite Nat.add_0_r.
           ++ right. exists j. rewrite length_skipn. split; [lia|].
              rewrite skipn_skipn.
              replace (off + 1 + j) with (off + S j) by lia.
              replace (j + 1) with (S j) by lia. reflexivity.
Qed.

Lemma indexed_snoc done F e :
  indexed (done ++ [F]) e <->
  indexed done e \/
  exists j, j + MIN_OVERLAP <= length F /\
            e = (skipn j F ++ [terminator_token (length done)], (length done, 0 + j)).
Proof.
  unfold indexed. split.
  - intros (p & G & j & Hp & Hj & ->).
    destruct (Nat.lt_ge_cases p (length done)) as [Hlt|Hge].
    + left. rewrite nth_error_app1 in Hp by exact Hlt. eauto 6.
    + right. rewrite nth_error_app2 in Hp by exact Hge.
      destruct (p - length done) as [|q] eqn:Hq; cbn in Hp.
      * injection Hp as <-. assert (p = length done) by lia. subst p. eauto.
      * destruct q; discriminate.
  - intros [(p & G & j & Hp & Hj & ->)|(j & Hj & ->)].
    + exists p, G, j. split; [|auto]. rewrite nth_error_app1; [exact Hp|].
      apply nth_error_Some. congruence.
    + exists (length done), F, j. split; [|auto].
      rewrite nth_error_app2, Nat.sub_diag by lia. reflexivity.
Qed.

Lemma build_index_spec rest :
  Forall (Forall (fun x => clean_token x = true)) rest ->
  Forall (fun F => rstrip (concat F) = concat F) rest ->
  forall done t,
    trie (root t) -> label (root t) = [] -> min_suffix_len t = MIN_OVERLAP ->
    (forall e, In e (entries (root t)) <-> indexed done e) ->
    exists t',
      build_index (map (@concat ascii) rest) (length done) (fragment_objects done) t
      = Ok (fragment_objects (done ++ rest), t') /\
      trie (root t') /\ label (root t') = [] /\
      (forall e, In e (entries (root t')) <-> indexed (done ++ rest) e).
Proof.
  induction rest as [|F rest IH]; intros Hclean Hstrip done t Htrie Hlab Hmin Hent.
  - exists t. rewrite app_nil_r. cbn [map build_index]. auto.
  - inversion Hclean as [|? ? HF Hclean']; subst.
    inversion Hstrip as [|? ? HsF Hstrip']; subst.
    cbn [map build_index]. rewrite HsF.
    assert (Hidx : py_index (fragment_objects done ++ [URLString_init (concat F)])
                            (length done) = Ok (URLString_init (concat F))).
    { unfold py_index, fragment_objects.
      rewrite nth_error_app2 by (rewrite length_map; apply Nat.le_refl).
      rewrite length_map, Nat.sub_diag. reflexivity. }
    rewrite Hidx. cbn [bind string URLString_init]. unfold insert. rewrite Hmin.
    destruct (@insert_rec_spec MIN_OVERLAP (length done) ltac:(unfold MIN_OVERLAP; lia)
                (S (len (URLString_init (concat F)))) F 0 (root t))
      as (r' & Hrec & Hr' & Hlab' & Hent'); auto.
    + rewrite len_init, (toks_clean HF). lia.
    + intros e j He Heq. apply Hent in He as (p & G & j' & Hp & _ & ->).
      cbn [fst] in Heq. apply app_inj_tail in Heq as [_ Heq].
      apply terminator_token_inj in Heq. subst p.
      assert (length done < length done); [|lia].
      apply nth_error_Some. congruence.
    + rewrite Hrec. cbn [bind].
      destruct (IH Hclean' Hstrip' (done ++ [F])
                  {| root := r'; min_suffix_len := MIN_OVERLAP |})
        as (t' & Hbuild & Ht' & Hlabt & Hentt); auto.
      * intros e. cbn [root]. rewrite Hent', Hent. symmetry. apply indexed_snoc.
      * exists t'. rewrite <- app_assoc in Hbuild, Hentt. cbn [app] in Hbuild, Hentt.
        split; [|auto].
        rewrite <- Hbuild. unfold fragment_objects. rewrite map_app, length_app.
        cbn [map length]. rewrite Nat.add_1_r. reflexivity.
Qed.

(** ** The traversal of a trie *)

Lemma py_setitem_set_nth {A : Type} (l : list A) i v :
  i < length l -> py_setitem l i v = Ok (set_nth l i v).
Proof.
  revert i. induction l as [|a l IH]; intros i Hi; cbn [length] in Hi; [lia|].
  destruct i; cbn [py_setitem set_nth]; [reflexivity|].
  rewrite IH by lia. reflexivity.
Qed.

Lemma set_nth_length {A : Type} (l : list A) i v : length (set_nth l i v) = length l.
Proof.
  revert i. induction l as [|a l IH]; intros i; [reflexivity|].
  destruct i; cbn [set_nth length]; [reflexivity|]. now rewrite IH.
Qed.

Lemma nth_error_set_nth {A : Type} (l : list A) i j v :
  nth_error (set_nth l i v) j
  = if (i =? j) && (i <? length l) then Some v else nth_error l j.
Proof.
  revert i j. induction l as [|a l IH]; intros i j.
  - cbn [set_nth length]. destruct (i =? j); cbn; [|reflexivity].
    now destruct j.
  - destruct i, j; cbn [set_nth nth_error length]; try reflexivity.
    rewrite IH. cbn [Nat.eqb]. destruct (i =? j); cbn [andb]; [|reflexivity].
    reflexivity.
Qed.

Lemma apply_writes_length ja ws : length (apply_writes ja ws) = length ja.
Proof.
  unfold apply_writes. revert ja. induction ws as [|w ws IH]; intros ja; cbn [fold_left];
    [reflexivity|]. now rewrite IH, set_nth_length.
Qed.

Lemma apply_writes_app ja ws1 ws2 :
  apply_writes ja (ws1 ++ ws2) = apply_writes (apply_writes ja ws1) ws2.
Proof. unfold apply_writes. apply fold_left_app. Qed.

(** After the writes, an entry that was written holds one of the lists
    written to it, and an entry that was not is unchanged. *)
Lemma apply_writes_nth ja ws f :
  f < length ja ->
  (exists snap, In (f, snap) ws /\
                nth_error (apply_writes ja ws) f = Some (Matches snap)) \/
  ((forall snap, ~ In (f, snap) ws) /\
   nth_error (apply_writes ja ws) f = nth_error ja f).
Proof.
  revert ja. induction ws as [|[g snap] ws IH] using rev_ind; intros ja Hf.
  - right. split; [intros snap []|reflexivity].
  - assert (Hlast : nth_error (apply_writes ja (ws ++ [(g, snap)])) f
                    = if (g =? f) && (g <? length ja) then Some (Matches snap)
                      else nth_error (apply_writes ja ws) f).
    { rewrite apply_writes_app. unfold apply_writes at 1. cbn [fold_left fst snd].
      now rewrite nth_error_set_nth, apply_writes_length. }
    rewrite Hlast.
    destruct (Nat.eqb_spec g f) as [->|Hne].
    + left. exists snap. split; [apply in_app_iff; right; now left|].
      destruct (Nat.ltb_spec f (length ja)); [reflexivity|lia].
    + cbn [andb]. destruct (IH ja Hf) as [(s & Hin & Hnth)|[Hnone Hnth]].
      * left. exists s. split; [apply in_app_iff; now left|exact Hnth].
      * right. split; [|exact Hnth]. intros s Hin.
        apply in_app_iff in Hin as [Hin|[[= -> _]|[]]]; [exact (Hnone s Hin)|congruence].
Qed.

Lemma terminator_keys_filter keys :
  Forall (fun k => k <> []) keys ->
  terminator_keys keys = Ok (filter starts_with_terminator keys).
Proof.
  induction 1 as [|key keys Hkey _ IH]; [reflexivity|].
  cbn [terminator_keys filter]. destruct key as [|ch key']; [congruence|].
  rewrite IH. reflexivity.
Qed.

Lemma push_matches_pushed cs0 path cs1 :
  Forall (fun kc => dict_get cs0 (fst kc) = Some (snd kc) /\
                    (starts_with_terminator (fst kc) = true ->
                     identity (snd kc) <> None)) cs1 ->
  forall stack,
    push_matches cs0 path (filter starts_with_terminator (map fst cs1)) stack
    = Ok (stack ++ pushed cs1 path, length (pushed cs1 path)).
Proof.
  induction 1 as [|[key child] cs1 [Hget Hid] _ IH]; intros stack.
  - cbn. now rewrite app_nil_r.
  - cbn [map fst snd filter pushed flat_map] in *. fold (pushed cs1 path).
    destruct (starts_with_terminator key) eqn:Hkey.
    + cbn [push_matches]. rewrite Hget.
      destruct (identity child) as [[g off]|]; [|now specialize (Hid eq_refl)].
      destruct off as [|off]; cbn [Nat.eqb negb].
      * apply IH.
      * rewrite IH. cbn [bind app length]. now rewrite <- app_assoc.
    + apply IH.
Qed.

Lemma trie_child_key n key child :
  trie n -> In (key, child) (children n) ->
  trie child /\ (exists rest, label child = key :: rest) /\ key <> [] /\
  dict_get (children n) key = Some child.
Proof.
  intros Hn Hin.
  pose proof (proj1 (Forall_forall _ _) (trie_children Hn) _ Hin) as [[rest Hlab] Hc].
  cbn [fst snd] in *. split; [exact Hc|]. split; [eauto|]. split.
  - assert (Hk : In key (label child)) by (rewrite Hlab; now left).
    exact (proj1 (Forall_forall _ _) (toks_nonempty _) _ Hk).
  - apply dict_get_nodup; [now apply trie_keys|exact Hin].
Qed.

Lemma trie_terminator_child n key child :
  trie n -> In (key, child) (children n) -> starts_with_terminator key = true ->
  exists id, identity child = Some id /\ label child = [key].
Proof.
  intros Hn Hin Hkey.
  destruct (@trie_child_key n key child Hn Hin) as (Hc & [rest Hlab] & _ & _).
  destruct (@terminator_is_last child 0 Hc) as (id & Hid & Hlen).
  - rewrite Hlab. cbn [length]. lia.
  - now rewrite Hlab.
  - exists id. split; [exact Hid|]. rewrite Hlab in *. cbn [length] in Hlen.
    destruct rest; [reflexivity|cbn [length] in Hlen; lia].
Qed.

Lemma dfs_inner_writes n :
  trie n ->
  Forall (fun kc => trie (snd kc) ->
            forall path stack ja,
              Forall (fun w => fst w < length ja) (writes (snd kc) path stack) ->
              dfs_join (snd kc) path stack ja
              = Ok (stack, apply_writes ja (writes (snd kc) path stack)))
         (children n) ->
  forall path stack ja,
    let stack' := stack ++ if MIN_OVERLAP <=? len path
                           then pushed (children n) path else [] in
    let ws := flat_map (fun kc =>
                writes (snd kc) (URLString_add path (OfURL (node_string (snd kc))))
                       stack') (children n) in
    Forall (fun w => fst w < length ja) ws ->
    dfs_inner dfs_join (children n) path stack ja = Ok (stack, apply_writes ja ws).
Proof.
  intros Hn IH path stack ja stack' ws Hbound. unfold dfs_inner.
  rewrite terminator_keys_filter.
  2:{ apply Forall_forall. intros k Hk. apply in_map_iff in Hk as ([k' c] & <- & Hin).
      exact (proj1 (proj2 (proj2 (@trie_child_key n k' c Hn Hin)))). }
  cbn [bind].
  assert (Hpush : forall st,
            push_matches (children n) path
              (filter starts_with_terminator (map fst (children n))) st
            = Ok (st ++ pushed (children n) path, length (pushed (children n) path))).
  { apply push_matches_pushed. apply Forall_forall. intros [k c] Hin. cbn [fst snd].
    split; [exact (proj2 (proj2 (proj2 (@trie_child_key n k c Hn Hin))))|].
    intros Hk. destruct (@trie_terminator_child n k c Hn Hin Hk) as (id & -> & _). discriminate. }
  assert (Hstep :
    (match filter starts_with_terminator (map fst (children n)) with
     | [] => Ok (stack, 0)
     | _ :: _ =>
         if MIN_OVERLAP <=? len path
         then push_matches (children n) path
                (filter starts_with_terminator (map fst (children n))) stack
         else Ok (stack, 0)
     end)
    = Ok (stack', length (if MIN_OVERLAP <=? len path
                          then pushed (children n) path else []))).
  { subst stack'. destruct (MIN_OVERLAP <=? len path).
    - rewrite <- Hpush.
      destruct (filter starts_with_terminator (map fst (children n))); reflexivity.
    - rewrite app_nil_r.
      destruct (filter starts_with_terminator (map fst (children n))); reflexivity. }
  rewrite Hstep. cbn [bind].
  assert (Hvisit : forall cs ja0,
            Forall (fun kc => trie (snd kc) ->
               forall path stack ja,
                 Forall (fun w => fst w < length ja) (writes (snd kc) path stack) ->
                 dfs_join (snd kc) path stack ja
                 = Ok (stack, apply_writes ja (writes (snd kc) path stack))) cs ->
            Forall (fun kc => trie (snd kc)) cs ->
            Forall (fun w => fst w < length ja0)
              (flat_map (fun kc =>
                writes (snd kc) (URLString_add path (OfURL (node_string (snd kc))))
                       stack') cs) ->
            visit_children dfs_join path cs stack' ja0
            = Ok (stack', apply_writes ja0
                (flat_map (fun kc =>
                   writes (snd kc) (URLString_add path (OfURL (node_string (snd kc))))
                          stack') cs))).
  { induction cs as [|[k c] cs IHcs]; intros ja0 Hih Htr Hb; [reflexivity|].
    inversion Hih as [|? ? Hc Hih']; subst. inversion Htr as [|? ? Htc Htr']; subst.
    cbn [flat_map snd] in Hb. apply Forall_app in Hb as [Hb1 Hb2].
    cbn [visit_children flat_map snd]. rewrite (Hc Htc) by exact Hb1. cbn [bind].
    rewrite IHcs; [now rewrite apply_writes_app|exact Hih'|exact Htr'|].
    now rewrite apply_writes_length. }
  rewrite Hvisit; [|exact IH| |exact Hbound].
  - cbn [bind]. subst stack'. rewrite pop_matches_spec. reflexivity.
  - eapply Forall_impl; [|exact (trie_children Hn)]. now intros kc [_ H].
Qed.

Lemma dfs_join_writes n :
  trie n ->
  forall path stack ja,
    Forall (fun w => fst w < length ja) (writes n path stack) ->
    dfs_join n path stack ja = Ok (stack, apply_writes ja (writes n path stack)).
Proof.
  induction n as [s ident cs IH] using node_induction. intros Hn path stack ja Hbound.
  pose proof (@dfs_inner_writes (Node s ident cs) Hn IH path stack ja) as Hinner.
  cbn [children] in Hinner.
  destruct ident as [[f [|off]]|]; cbn [dfs_join writes] in *.
  - inversion Hbound as [|? ? Hf _]; subst. cbn [fst] in Hf.
    rewrite py_setitem_set_nth by exact Hf. reflexivity.
  - now apply Hinner.
  - now apply Hinner.
Qed.

(** The path of every entry of a trie is made of clean tokens closed by one
    terminator token, and starts with the label of the node. *)
Lemma entry_shape n :
  trie n ->
  forall e, In e (entries n) ->
    (exists tail, fst e = label n ++ tail) /\
    exists l t, fst e = l ++ [t] /\ Forall (fun x => clean_token x = true) l /\
                starts_with_terminator t = true.
Proof.
  induction n as [s ident cs IH] using node_induction. intros Hn e He.
  apply in_entries in He as [[Hid He]|(k & c & e' & Hin & He' & ->)].
  - split; [exists []; rewrite app_nil_r; exact He|].
    destruct (trie_leaf Hn (id := snd e)) as (_ & l & t & HL & Hl & Ht); [exact Hid|].
    exists l, t. rewrite He. auto.
  - pose proof (proj1 (Forall_forall _ _) IH _ Hin) as IHc. cbn [snd] in IHc.
    destruct (@trie_child_key (Node s ident cs) k c Hn Hin) as (Hc & _).
    destruct (IHc Hc e' He') as (_ & l & t & Hl & Hclean & Ht).
    unfold under. cbn [fst]. rewrite label_node. split; [eauto|].
    exists (toks (string s) ++ l), t. rewrite Hl, app_assoc.
    split; [reflexivity|]. split; [|exact Ht].
    apply Forall_app. split; [|exact Hclean].
    destruct ident as [id|].
    + destruct (trie_leaf Hn (id := id) eq_refl) as (Hcs & _). cbn in Hcs. subst.
      destruct Hin.
    + exact (trie_internal Hn eq_refl).
Qed.

Lemma app_split_le {A : Type} (P x R y : list A) :
  P ++ x = R ++ y -> length P <= length R ->
  R = P ++ skipn (length P) R /\ x = skipn (length P) R ++ y.
Proof.
  intros H Hlen.
  assert (HP : P = firstn (length P) R).
  { apply (f_equal (firstn (length P))) in H.
    rewrite firstn_app, Nat.sub_diag, firstn_all in H. cbn [firstn] in H.
    rewrite app_nil_r, firstn_app in H.
    replace (length P - length R) with 0 in H by lia. cbn [firstn] in H.
    now rewrite app_nil_r in H. }
  split.
  - rewrite HP at 1. symmetry. apply firstn_skipn.
  - apply (f_equal (skipn (length P))) in H.
    rewrite skipn_app, Nat.sub_diag, skipn_all in H. cbn [skipn app] in H.
    rewrite skipn_app in H. replace (length P - length R) with 0 in H by lia.
    exact H.
Qed.

Lemma leaf_entries n id :
  trie n -> identity n = Some id -> entries n = [(label n, id)].
Proof.
  intros Hn Hid. destruct (trie_leaf Hn Hid) as (Hcs & _).
  destruct n as [s ident cs]. cbn in *. subst. reflexivity.
Qed.

Lemma same_key_same_child n k c c' :
  trie n -> In (k, c) (children n) -> In (k, c') (children n) -> c = c'.
Proof.
  intros Hn H1 H2.
  pose proof (dict_get_nodup _ _ _ (trie_keys Hn) H1) as E1.
  pose proof (dict_get_nodup _ _ _ (trie_keys Hn) H2) as E2. congruence.
Qed.

Lemma path_extend (P : list pystr) (c : URLSuffixTreeNode) :
  URLString_add (URLString_init (concat P)) (OfURL (node_string c))
  = URLString_init (concat (P ++ label c)).
Proof.
  cbn [URLString_add string URLString_init]. unfold label.
  now rewrite concat_app, concat_toks.
Qed.

Lemma writes_internal s cs path stack :
  writes (Node s None cs) path stack
  = flat_map (fun kc =>
      writes (snd kc) (URLString_add path (OfURL (node_string (snd kc))))
             (stack ++ if MIN_OVERLAP <=? len path then pushed cs path else [])) cs.
Proof. reflexivity. Qed.

(** Every leaf that stands for a whole fragment is written. *)
Lemma writes_reach n :
  trie n ->
  forall path stack e f, In e (entries n) -> snd e = (f, 0) ->
    exists snap, In (f, snap) (writes n path stack).
Proof.
  induction n as [s ident cs IH] using node_induction.
  intros Hn path stack e f He Hf.
  apply in_entries in He as [[Hid He]|(k & c & e' & Hin & He' & ->)].
  - rewrite Hf in Hid. subst ident. exists stack. now left.
  - destruct ident as [id|].
    + destruct (trie_leaf Hn (id := id) eq_refl) as (Hcs & _). cbn in Hcs. subst.
      destruct Hin.
    + pose proof (proj1 (Forall_forall _ _) IH _ Hin) as IHc. cbn [snd] in IHc.
      destruct (@trie_child_key (Node s None cs) k c Hn Hin) as (Hc & _).
      destruct (IHc Hc (URLString_add path (OfURL (node_string c)))
                    (stack ++ if MIN_OVERLAP <=? len path then pushed cs path else [])
                    e' f He' Hf) as [snap Hsnap].
      exists snap. rewrite writes_internal. apply in_flat_map.
      exists (k, c). split; [exact Hin|exact Hsnap].
Qed.

Lemma label_within (L tail_g tail R' rest l : list pystr) (t t' : pystr) :
  L ++ tail_g = R' ++ [t] -> L ++ tail = R' ++ rest -> rest <> [t] ->
  L ++ tail = l ++ [t'] -> Forall (fun x => clean_token x = true) l ->
  starts_with_terminator t = true ->
  length L <= length R'.
Proof.
  intros Hg He Hrest Hshape Hl Ht.
  destruct (Nat.le_gt_cases (length L) (length R')) as [Hle|Hgt]; [exact Hle|exfalso].
  assert (Hlen : length L + length tail_g = length R' + 1).
  { apply (f_equal (@length _)) in Hg. now rewrite !length_app in Hg. }
  destruct tail_g as [|x tail_g]; [|cbn [length] in Hlen; lia].
  rewrite app_nil_r in Hg. subst L. rewrite <- app_assoc in He, Hshape.
  apply app_inv_head in He. cbn [app] in He. subst rest.
  destruct tail as [|x tail] using rev_ind; [now apply Hrest|].
  clear IHtail. rewrite !app_assoc in Hshape.
  apply app_inj_tail in Hshape as [Hshape _]. subst l.
  apply Forall_app in Hl as [Hl _]. apply Forall_app in Hl as [_ Hl].
  inversion Hl as [|? ? Hc _]; subst. apply clean_not_terminator in Hc. congruence.
Qed.

Lemma len_clean_path P :
  Forall (fun x => clean_token x = true) P ->
  len (URLString_init (concat P)) = length P.
Proof. intros H. now rewrite len_init, (toks_clean H). Qed.

Lemma in_pushed cs path g u :
  In (g, u) (pushed cs path) <->
  u = path /\ exists k c off, In (k, c) cs /\ starts_with_terminator k = true /\
                              identity c = Some (g, S off).
Proof.
  unfold pushed. rewrite in_flat_map. split.
  - intros ([k c] & Hin & H). cbn [fst snd] in H.
    destruct (starts_with_terminator k) eqn:Hk; [|destruct H].
    destruct (identity c) as [[g' [|off]]|] eqn:Hid; try contradiction.
    destruct H as [H|[]]. injection H as <- <-. split; [reflexivity|]. exists k, c, off. auto.
  - intros [-> (k & c & off & Hin & Hk & Hid)]. exists (k, c). split; [exact Hin|].
    cbn [fst snd]. rewrite Hk, Hid. now left.
Qed.

Lemma terminator_child_entry n k c g off :
  trie n -> In (k, c) (children n) -> starts_with_terminator k = true ->
  identity c = Some (g, off) ->
  In (label n ++ [k], (g, off)) (entries n).
Proof.
  intros Hn Hin Hk Hid.
  destruct (@trie_terminator_child n k c Hn Hin Hk) as (id & Hid' & Hlab).
  destruct (@trie_child_key n k c Hn Hin) as (Hc & _).
  destruct n as [s ident cs]. apply in_entries. right.
  exists k, c, ([k], (g, off)). split; [exact Hin|]. split; [|reflexivity].
  rewrite (leaf_entries Hc Hid), Hlab. now left.
Qed.

Lemma writes_explained n :
  trie n ->
  forall Q stack f snap,
    Forall (fun x => clean_token x = true) Q ->
    In (f, snap) (writes n (URLString_init (concat (Q ++ label n))) stack) ->
    exists e, In e (entries n) /\ snd e = (f, 0) /\ explains Q n stack e snap.
Proof.
  induction n as [s ident cs IH] using node_induction.
  intros Hn Q stack f snap HQ Hw.
  destruct ident as [[f0 [|off0]]|].
  - cbn [writes] in Hw. destruct Hw as [[= <- <-]|[]].
    exists (toks (string s), (f0, 0)). split; [now apply in_entries; left|].
    split; [reflexivity|]. exists []. rewrite app_nil_r. split; [reflexivity|].
    split; [intros g u []|].
    intros R t g off rest Hin _ _ _ _ _.
    rewrite (leaf_entries Hn (id := (f0, 0)) eq_refl) in Hin.
    destruct Hin as [[= _ _ ?]|[]].
  - destruct (trie_leaf Hn (id := (f0, S off0)) eq_refl) as (Hcs & _).
    cbn in Hcs. subst cs. destruct Hw.
  - rewrite writes_internal in Hw. apply in_flat_map in Hw as ([k c] & Hin & Hw).
    cbn [snd] in Hw. rewrite path_extend in Hw.
    pose proof (trie_internal Hn eq_refl) as Hlabn. rewrite label_node in *.
    set (Q' := Q ++ toks (string s)) in *.
    assert (HQ' : Forall (fun x => clean_token x = true) Q')
      by (apply Forall_app; split; assumption).
    rewrite (len_clean_path HQ') in Hw.
    destruct (@trie_child_key (Node s None cs) k c Hn Hin) as (Hc & [restc Hlabc] & _).
    pose proof (proj1 (Forall_forall _ _) IH _ Hin) as IHc. cbn [snd] in IHc.
    destruct (IHc Hc Q' _ f snap HQ' Hw) as (e' & He' & Hf & extra' & Hsnap & Hsound & Hcomplete).
    exists (under (toks (string s)) e').
    split; [apply in_entries; right; exists k, c, e'; auto|].
    split; [exact Hf|].
    exists ((if MIN_OVERLAP <=? length Q'
             then pushed cs (URLString_init (concat Q')) else []) ++ extra').
    split; [now rewrite app_assoc|].
    assert (Hlift : forall x, In x (map (under Q') (entries c)) ->
                              In x (map (under Q) (entries (Node s None cs)))).
    { intros x Hx. apply in_map_iff in Hx as (e0 & <- & He0).
      apply in_map_iff. exists (under (toks (string s)) e0).
      split; [apply under_under|]. apply in_entries. right. exists k, c, e0. auto. }
    assert (Hpath : Q ++ fst (under (toks (string s)) e') = Q' ++ fst e').
    { unfold under, Q'. cbn [fst]. now rewrite app_assoc. }
    split.
    + intros g u Hgu. apply in_app_iff in Hgu as [Hgu|Hgu].
      * destruct (Nat.leb_spec MIN_OVERLAP (length Q')) as [Hmin|]; [|destruct Hgu].
        apply in_pushed in Hgu as [-> (k1 & c1 & off & Hin1 & Hk1 & Hid1)].
        exists Q', k1, off, (fst e'). repeat split; auto.
        apply in_map_iff.
        exists (toks (string s) ++ [k1], (g, S off)). split.
        -- unfold under, Q'. cbn [fst snd]. now rewrite app_assoc.
        -- exact (@terminator_child_entry (Node s None cs) k1 c1 g (S off) Hn Hin1 Hk1 Hid1).
      * destruct (Hsound g u Hgu) as (R & t & off & rest & Hu & Hmin & HR & HinR & Hrest).
        exists R, t, off, rest. repeat split; auto. now rewrite Hpath.
    + intros R t g off rest HinR Ht Hrest Hne Hmin Hlen.
      rewrite Hpath in Hrest.
      apply in_map_iff in HinR as (eg & Heg & Hineg).
      apply in_entries in Hineg as [[Hid _]|(kg & cg & eg' & Hing & Heg' & ->)];
        [discriminate|].
      rewrite under_under in Heg. fold Q' in Heg.
      unfold under in Heg. cbn [fst snd] in Heg. injection Heg as Hpg Hidg.
      destruct (app_split_le _ _ _ _ Hpg Hlen) as [HR Hg].
      destruct (app_split_le _ _ _ _ Hrest Hlen) as [_ He].
      destruct (@trie_child_key (Node s None cs) kg cg Hn Hing)
        as (Hcg & [restg Hlabg] & _).
      destruct (entry_shape Hcg _ Heg') as ([tailg Htailg] & _).
      destruct (entry_shape Hc _ He') as ([taile Htaile] & le & te & Hshape & Hle & _).
      apply in_app_iff.
      destruct (skipn (length Q') R) as [|r0 R''] eqn:HR'.
      * left. rewrite app_nil_r in HR. cbn [app] in Hg.
        rewrite Hg, Hlabg in Htailg. injection Htailg as Hkg Htl.
        assert (Hkt : starts_with_terminator kg = true) by now rewrite <- Hkg.
        destruct (@trie_terminator_child (Node s None cs) kg cg Hn Hing Hkt)
          as (id & Hid & Hlab1).
        rewrite (leaf_entries Hcg Hid) in Heg'. destruct Heg' as [<-|[]].
        cbn [snd] in Hidg. subst id.
        destruct (Nat.leb_spec MIN_OVERLAP (length Q')) as [_|Hlt];
          [|rewrite HR in Hmin; lia].
        apply in_pushed. split; [now rewrite HR|]. exists kg, cg, off. auto.
      * right. rewrite Hg, Hlabg in Htailg. rewrite He, Hlabc in Htaile.
        cbn [app] in Htailg, Htaile.
        injection Htailg as Hkg _. injection Htaile as Hk _.
        assert (cg = c).
        { apply (@same_key_same_child (Node s None cs) k cg c Hn); [|exact Hin].
          now rewrite <- Hk, Hkg. }
        subst cg.
        destruct (entry_shape Hc _ Heg') as ([tailg2 Htailg] & _).
        destruct (entry_shape Hc _ He') as ([taile2 Htaile] & _).
        apply (Hcomplete R t g off rest); auto.
        -- apply in_map_iff. exists eg'. split; [|exact Heg'].
           unfold under. now rewrite Hpg, <- Hidg.
        -- rewrite HR, !length_app. apply Nat.add_le_mono_l.
           apply (@label_within (label c) tailg2 taile2 (r0 :: R'') rest le t te); auto.
           ++ now rewrite <- Htailg.
           ++ now rewrite <- Htaile.
           ++ now rewrite <- Htaile.
Qed.

(** ** The candidate lists of clean fragments *)

Lemma map_under_nil (l : list (list pystr * (nat * nat))) : map (under []) l = l.
Proof.
  induction l as [|[p i] l IH]; [reflexivity|]. cbn [map]. unfold under at 1.
  cbn [fst snd app]. now rewrite IH.
Qed.

Lemma terminator_token_not_clean f : clean_token (terminator_token f) = false.
Proof.
  destruct (clean_token (terminator_token f)) eqn:E; [|reflexivity].
  apply clean_not_terminator in E. rewrite terminator_token_starts in E. discriminate.
Qed.

Lemma in_firstn {A : Type} (x : A) k l : In x (firstn k l) -> In x l.
Proof. intros H. rewrite <- (firstn_skipn k l). apply in_app_iff. now left. Qed.

Lemma prefix_of_terminated (R F rest : list pystr) (tf : pystr) :
  F ++ [tf] = R ++ rest ->
  Forall (fun x => clean_token x = true) R -> clean_token tf = false ->
  length R <= length F /\ R = firstn (length R) F.
Proof.
  intros H HR Htf.
  destruct (Nat.le_gt_cases (length R) (length F)) as [Hle|Hgt].
  - split; [exact Hle|].
    apply (f_equal (firstn (length R))) in H.
    rewrite !firstn_app, Nat.sub_diag, firstn_all in H.
    replace (length R - length F) with 0 in H by lia.
    cbn [firstn] in H. rewrite !app_nil_r in H. now symmetry.
  - exfalso.
    apply (f_equal (firstn (length F + 1))) in H.
    rewrite <- (length_app F [tf]) in H at 1. rewrite firstn_all in H.
    rewrite firstn_app in H.
    replace (length F + 1 - length R) with 0 in H by lia.
    cbn [firstn] in H. rewrite app_nil_r in H.
    assert (Hin : In tf (firstn (length F + 1) R)).
    { rewrite <- H. apply in_app_iff. right. now left. }
    apply in_firstn in Hin.
    pose proof (proj1 (Forall_forall _ _) HR _ Hin) as Hc. cbv beta in Hc.
    congruence.
Qed.

Lemma explains_overlaps frs f F e snap r :
  Forall (Forall (fun x => clean_token x = true)) frs ->
  trie r -> label r = [] ->
  (forall x, In x (entries r) <-> indexed frs x) ->
  nth_error frs f = Some F ->
  In e (entries r) -> snd e = (f, 0) ->
  explains [] r [] e snap ->
  lists_overlaps frs F snap.
Proof.
  intros Hclean Hr Hlab Hent Hf He Hid (extra & -> & Hsound & Hcomplete).
  cbn [app] in *. rewrite map_under_nil in *.
  assert (HF : Forall (fun x => clean_token x = true) F).
  { exact (proj1 (Forall_forall _ _) Hclean _ (nth_error_In _ _ Hf)). }
  assert (Hpath : fst e = F ++ [terminator_token f]).
  { apply Hent in He as (p & F' & j & Hp & _ & ->). cbn [snd] in Hid.
    injection Hid as -> ->. rewrite Hf in Hp. injection Hp as <-. reflexivity. }
  split.
  - intros g u Hgu.
    destruct (Hsound g u Hgu) as (R & t & off & rest & -> & Hmin & HR & HinR & Hrest).
    apply Hent in HinR as (p & G & j & Hp & Hj & Heq).
    injection Heq as Heq Hgp Hoff. subst p j. apply app_inj_tail in Heq as [HRG _].
    exists G. split; [exact Hp|].
    rewrite (len_clean_path HR). rewrite Hpath in Hrest.
    destruct (prefix_of_terminated _ _ _ Hrest HR (terminator_token_not_clean f))
      as [Hle Hpre].
    assert (HlenR : length R = length G - S off)
      by (rewrite HRG; apply length_skipn).
    unfold overlaps_by, MIN_OVERLAP, pystr in *. repeat split; try lia.
    replace (length G - length R) with (S off) by lia.
    rewrite <- HRG. exact Hpre.
  - intros g G k Hg (Hmin & Hlt & Hle & Heq).
    exists (URLString_init (concat (firstn k F))).
    assert (HRc : Forall (fun x => clean_token x = true) (firstn k F))
      by now apply Forall_firstn.
    split; [|rewrite (len_clean_path HRc), length_firstn; lia].
    apply (Hcomplete (firstn k F) (terminator_token g) g (length G - k - 1)
             (skipn k F ++ [terminator_token f])).
    + apply Hent. exists g, G, (S (length G - k - 1)). split; [exact Hg|].
      split; [unfold MIN_OVERLAP in *; lia|].
      replace (S (length G - k - 1)) with (length G - k) by lia.
      now rewrite Heq.
    + apply terminator_token_starts.
    + now rewrite Hpath, app_assoc, firstn_skipn.
    + intros Hx.
      destruct (skipn k F) as [|x l] eqn:Hsk.
      * cbn [app] in Hx. apply (f_equal (fun l => hd [] l)) in Hx. cbn [hd] in Hx.
        apply terminator_token_inj in Hx. subst g.
        rewrite Hf in Hg. injection Hg as <-.
        apply (f_equal (@length _)) in Hsk. rewrite length_skipn in Hsk. cbn in Hsk. lia.
      * destruct l; discriminate.
    + rewrite length_firstn. lia.
    + rewrite Hlab. cbn. lia.
Qed.

Lemma empty_node_trie : trie empty_node.
Proof. constructor; [reflexivity|constructor|constructor|constructor]. Qed.

Lemma indexed_nil e : ~ indexed [] e.
Proof. intros (p & F & j & Hp & _). destruct p; discriminate. Qed.

Lemma root_path r :
  trie r -> label r = [] -> node_string r = URLString_init (concat ([] ++ label r)).
Proof.
  intros Hr Hlab. rewrite (trie_label_init Hr). f_equal. rewrite Hlab. cbn.
  rewrite <- (concat_toks (string (node_string r))). fold (label r). now rewrite Hlab.
Qed.

Lemma candidate_lists_spec frs :
  Forall (Forall (fun x => clean_token x = true)) frs ->
  Forall (fun F => rstrip (concat F) = concat F) frs ->
  Forall (fun F => MIN_OVERLAP <= length F) frs ->
  exists ja,
    candidate_lists (map (@concat ascii) frs) = Ok (fragment_objects frs, ja) /\
    length ja = length frs /\
    forall f F, nth_error frs f = Some F ->
      exists snap, nth_error ja f = Some (Matches snap) /\
                   ascending snap /\ lists_overlaps frs F snap.
Proof.
  intros Hclean Hstrip Hlong.
  destruct (@build_index_spec frs Hclean Hstrip [] (URLSuffixTree_init MIN_OVERLAP))
    as (t & Hbuild & Ht & Hlab & Hent); auto.
  { apply empty_node_trie. }
  { intros e. split; [intros []|intros H; now apply indexed_nil in H]. }
  cbn [app length fragment_objects map] in Hbuild, Hent.
  fold (fragment_objects frs) in Hbuild.
  unfold candidate_lists. rewrite Hbuild. cbn [bind].
  set (n := length (fragment_objects frs)).
  assert (Hn : n = length frs) by (unfold n, fragment_objects; apply length_map).
  set (ws := writes (root t) (URLString_init (concat ([] ++ label (root t)))) []).
  assert (Hws : forall f snap, In (f, snap) ws ->
            exists F e, nth_error frs f = Some F /\ In e (entries (root t)) /\
                        snd e = (f, 0) /\ explains [] (root t) [] e snap).
  { intros f snap Hin.
    destruct (@writes_explained (root t) Ht [] [] f snap) as (e & He & Hid & Hex);
      [constructor|exact Hin|].
    pose proof (proj1 (Hent e) He) as (p & F & j & Hp & _ & Heq).
    assert (Hpj : p = f /\ j = 0) by (rewrite Heq in Hid; now injection Hid).
    destruct Hpj as [-> ->]. exists F, e. repeat split; assumption. }
  assert (Hbound : Forall (fun w => fst w < length (repeat Zero n)) ws).
  { apply Forall_forall. intros [f snap] Hin. cbn [fst]. rewrite repeat_length, Hn.
    destruct (Hws f snap Hin) as (F & _ & HF & _).
    apply nth_error_Some. congruence. }
  rewrite (root_path Ht Hlab).
  rewrite (dfs_join_writes Ht _ _ _ Hbound). cbn [bind].
  fold ws. exists (apply_writes (repeat Zero n) ws).
  split; [reflexivity|]. split; [now rewrite apply_writes_length, repeat_length|].
  intros f F Hf.
  assert (Hflt : f < length (repeat Zero n)).
  { rewrite repeat_length, Hn. apply nth_error_Some. congruence. }
  destruct (apply_writes_nth (repeat Zero n) ws Hflt) as [(snap & Hin & Hnth)|[Hnone _]].
  - exists snap. split; [exact Hnth|].
    destruct (Hws f snap Hin) as (F' & e & HF' & He & Hid & Hex).
    rewrite Hf in HF'. injection HF' as <-.
    split; [|exact (explains_overlaps Hclean Ht Hlab Hent Hf He Hid Hex)].
    assert (Hord : Forall cell_ascending (apply_writes (repeat Zero n) ws)).
    { pose proof (@dfs_join_ordered (root t)
                    (URLString_init (concat ([] ++ label (root t)))) []
                    (repeat Zero n) [] (apply_writes (repeat Zero n) ws)) as H.
      apply H; [reflexivity|constructor|constructor| |].
      - apply Forall_repeat. exact I.
      - now rewrite (dfs_join_writes Ht _ _ _ Hbound). }
    pose proof (proj1 (Forall_forall _ _) Hord _ (nth_error_In _ _ Hnth)) as Hc.
    exact (proj1 Hc).
  - exfalso.
    destruct (@writes_reach (root t) Ht (URLString_init (concat ([] ++ label (root t))))
                [] (F ++ [terminator_token f], (f, 0)) f) as [snap Hsnap].
    + apply Hent. exists f, F, 0. split; [exact Hf|]. split; [|reflexivity].
      exact (proj1 (Forall_forall _ _) Hlong _ (nth_error_In _ _ Hf)).
    + reflexivity.
    + exact (Hnone snap Hsnap).
Qed.

(** ** The stitch attempt on a chain *)

Lemma list_index_some l v p :
  nth_error l p = Some v ->
  (forall p', p' < p -> nth_error l p' <> Some v) ->
  list_index l v = Some p.
Proof.
  revert p. induction l as [|x l IH]; intros p Hp Hfirst.
  - destruct p; discriminate.
  - cbn [list_index]. destruct p as [|p].
    + injection Hp as ->. now rewrite Z.eqb_refl.
    + destruct (Z.eqb_spec x v) as [->|Hne].
      * exfalso. apply (Hfirst 0); [lia|reflexivity].
      * rewrite (IH p); [reflexivity|exact Hp|].
        intros p' Hlt. apply (Hfirst (S p')). lia.
Qed.

Lemma list_index_none l v :
  (forall p, nth_error l p <> Some v) -> list_index l v = None.
Proof.
  induction l as [|x l IH]; intros Hnone; [reflexivity|].
  cbn [list_index]. destruct (Z.eqb_spec x v) as [->|Hne].
  - exfalso. now apply (Hnone 0).
  - rewrite IH; [reflexivity|]. intros p. apply (Hnone (S p)).
Qed.

Lemma nth_error_nodup {A : Type} (l : list A) i j x :
  NoDup l -> nth_error l i = Some x -> nth_error l j = Some x -> i = j.
Proof.
  intros Hnd Hi Hj. apply (proj1 (NoDup_nth_error l) Hnd); [|congruence].
  apply nth_error_Some. congruence.
Qed.

Lemma count_equal_all a first rs r :
  Forall (fun x => x = r) rs -> nth_error (store a) r = Some first ->
  count_equal a first rs = Ok (length rs).
Proof.
  intros Hall Hr. induction Hall as [|x rs -> _ IH]; [reflexivity|].
  cbn [count_equal length]. unfold py_index. rewrite Hr. cbn [bind].
  rewrite IH. cbn [bind URLString_eq].
  now rewrite (proj2 (pystr_eqb_eq _ _) eq_refl).
Qed.

Lemma firstn_one {A : Type} (l : list A) x :
  nth_error l 0 = Some x -> firstn 1 l = [x].
Proof. destruct l; cbn; [discriminate|]. now intros [= ->]. Qed.

Lemma merge_chain_snoc frs order ks p k :
  length order = length ks ->
  merge_chain frs (order ++ [p]) (ks ++ [k])
  = merge_chain frs order ks ++ skipn k (nth p frs []).
Proof.
  revert ks. induction order as [|q order IH]; intros [|k0 ks] Hlen;
    cbn [length] in Hlen; try discriminate.
  - cbn. now rewrite app_nil_r.
  - cbn [app merge_chain]. rewrite IH by lia. now rewrite app_assoc.
Qed.

Section Trace.

Variables (frs : list (list pystr)) (order ks : list nat).
Variables (stitchings : list Z) (overlaps : list nat).

Hypothesis Hclean : Forall (Forall (fun x => clean_token x = true)) frs.
Hypothesis Hperm : Permutation order (seq 0 (length frs)).
Hypothesis Hks : length ks = length order.
Hypothesis Hk0 : nth 0 ks 0 = 0.
Hypothesis Hfit : forall i p, nth_error order i = Some p ->
                              nth i ks 0 <= length (nth p frs []).
Hypothesis Hchain : follows_chain order ks stitchings overlaps.
Hypothesis Hlen : length stitchings = length frs.

Lemma order_length : length order = length frs.
Proof. rewrite (Permutation_length Hperm). apply length_seq. Qed.

Lemma order_nodup : NoDup order.
Proof.
  apply (Permutation_NoDup (Permutation_sym Hperm)). apply seq_NoDup.
Qed.

Lemma order_covers p : p < length frs -> exists j, nth_error order j = Some p.
Proof.
  intros Hp. apply In_nth_error.
  apply (Permutation_in _ (Permutation_sym Hperm)). apply in_seq. lia.
Qed.

Lemma order_range j p : nth_error order j = Some p -> p < length frs.
Proof.
  intros Hj. apply nth_error_In in Hj.
  apply (Permutation_in _ Hperm) in Hj. apply in_seq in Hj. lia.
Qed.

(** What [stitchings] holds at a position, by its place in the chain. *)
Lemma stitchings_at p v :
  nth_error stitchings p = Some v ->
  exists j, nth_error order j = Some p /\
    match j with
    | O => v = (-1)%Z
    | S j' => exists q, nth_error order j' = Some q /\ v = Z.of_nat q
    end.
Proof.
  intros Hv.
  assert (Hp : p < length frs) by (rewrite <- Hlen; apply nth_error_Some; congruence).
  destruct (@order_covers p Hp) as [j Hj]. exists j. split; [exact Hj|].
  destruct Hchain as [Hhead Hnext]. destruct j as [|j'].
  - rewrite (Hhead _ Hj) in Hv. congruence.
  - destruct (nth_error order j') as [q|] eqn:Hq.
    + exists q. split; [reflexivity|].
      destruct (Hnext _ _ _ Hq Hj) as [Hs _]. congruence.
    + apply nth_error_None in Hq.
      assert (S j' < length order) by (apply nth_error_Some; congruence). lia.
Qed.

Lemma head_index h :
  nth_error order 0 = Some h -> list_index stitchings (-1)%Z = Some h.
Proof.
  intros Hh. apply list_index_some; [exact (proj1 Hchain _ Hh)|].
  intros p' Hlt Hv. destruct (@stitchings_at p' _ Hv) as ([|j'] & Hj & Hcase).
  - rewrite Hh in Hj. injection Hj as <-. lia.
  - destruct Hcase as (q & _ & Hq). lia.
Qed.

Lemma next_index i q p :
  nth_error order i = Some q -> nth_error order (S i) = Some p ->
  list_index stitchings (Z.of_nat q) = Some p.
Proof.
  intros Hq Hp. apply list_index_some; [exact (proj1 (proj2 Hchain _ _ _ Hq Hp))|].
  intros p' Hlt Hv. destruct (@stitchings_at p' _ Hv) as ([|j'] & Hj & Hcase).
  - lia.
  - destruct Hcase as (q' & Hq' & Heq). apply Nat2Z.inj in Heq. subst q'.
    pose proof (@nth_error_nodup _ order _ _ _ order_nodup Hq Hq'). subst j'.
    rewrite Hp in Hj. injection Hj as <-. lia.
Qed.

Lemma last_index q :
  nth_error order (length frs - 1) = Some q ->
  list_index stitchings (Z.of_nat q) = None.
Proof.
  intros Hq. apply list_index_none. intros p' Hv.
  destruct (@stitchings_at p' _ Hv) as ([|j'] & Hj & Hcase).
  - lia.
  - destruct Hcase as (q' & Hq' & Heq). apply Nat2Z.inj in Heq. subst q'.
    pose proof (@nth_error_nodup _ order _ _ _ order_nodup Hq Hq'). subst j'.
    assert (S (length frs - 1) < length order) by (apply nth_error_Some; congruence).
    rewrite order_length in H. lia.
Qed.

Lemma fragment_object_at p :
  p < length frs ->
  nth_error (fragment_objects frs) p = Some (URLString_init (concat (nth p frs []))).
Proof.
  intros Hp. unfold fragment_objects.
  erewrite map_nth_error; [reflexivity|]. now apply nth_error_nth'.
Qed.

Lemma join_clean M F k :
  Forall (fun x => clean_token x = true) F -> k <= length F ->
  join (URLString_init (concat M)) (URLString_init (concat F)) k
  = Ok (URLString_init (concat (M ++ skipn k F))).
Proof.
  intros HF Hk. unfold join.
  rewrite getslice_from by (rewrite (toks_clean HF); exact Hk). cbn [bind].
  cbn [string URLString_init]. rewrite (toks_clean HF). now rewrite concat_app.
Qed.

Lemma trace_unfold fuel (a : attempt) cur_index :
  trace (S fuel) stitchings overlaps a cur_index
  = match list_index stitchings cur_index with
    | None => Ok a
    | Some cur =>
        match list_index stitchings (Z.of_nat cur) with
        | None => Ok a
        | Some next =>
            rc <- py_index (refs a) cur ;;
            self <- py_index (store a) rc ;;
            rn <- py_index (refs a) next ;;
            other <- py_index (store a) rn ;;
            overlap <- py_index overlaps next ;;
            self' <- join self other overlap ;;
            store' <- py_setitem (store a) rc self' ;;
            refs' <- py_setitem (refs a) next rc ;;
            trace fuel stitchings overlaps
                  {| store := store'; refs := refs' |} (Z.of_nat cur)
        end
    end.
Proof. reflexivity. Qed.

Lemma trace_stage h (Hh : nth_error order 0 = Some h) :
  forall d fuel i a p cur_index,
    d < fuel ->
    nth_error order i = Some p ->
    list_index stitchings cur_index = Some p ->
    i + d = length frs - 1 ->
    merged_upto frs order ks i h a ->
    exists a', trace fuel stitchings overlaps a cur_index = Ok a' /\
               merged_upto frs order ks (length frs - 1) h a'.
Proof.
  induction d as [|d IH]; intros fuel i a p cur_index Hfuel Hp Hcur Hid Hstage;
    (destruct fuel as [|fuel]; [lia|]); rewrite trace_unfold, Hcur.
  - assert (i = length frs - 1) by lia. subst i.
    rewrite (@last_index p Hp). exists a. auto.
  - assert (Hnext : exists p', nth_error order (S i) = Some p').
    { destruct (nth_error order (S i)) as [p'|] eqn:E; [eauto|].
      apply nth_error_None in E. rewrite order_length in E. lia. }
    destruct Hnext as [p' Hp'].
    rewrite (@next_index i p p' Hp Hp').
    destruct Hstage as (Hlr & Hls & Hrefs & Hstore & Hrest).
    assert (Hne : p' <> h).
    { intros ->. pose proof (@nth_error_nodup _ order _ _ _ order_nodup Hh Hp').
      discriminate. }
    unfold py_index.
    rewrite (Hrefs _ _ Hp), Nat.leb_refl. cbn [bind]. rewrite Hstore. cbn [bind].
    rewrite (Hrefs _ _ Hp').
    destruct (Nat.leb_spec (S i) i) as [Hbad|_]; [lia|]. cbn [bind].
    rewrite (Hrest _ Hne), (@fragment_object_at p' (@order_range (S i) p' Hp')). cbn [bind].
    rewrite (proj2 (proj2 Hchain _ _ _ Hp Hp')). cbn [bind].
    assert (HF : Forall (fun x => clean_token x = true) (nth p' frs [])).
    { apply (proj1 (Forall_forall _ _) Hclean). apply nth_In. exact (@order_range (S i) p' Hp'). }
    rewrite (@join_clean _ _ _ HF (Hfit _ Hp')). cbn [bind].
    assert (Hh' : h < length frs) by exact (@order_range 0 h Hh).
    rewrite py_setitem_set_nth by (rewrite Hls; exact Hh'). cbn [bind].
    rewrite py_setitem_set_nth by (rewrite Hlr; exact (@order_range (S i) p' Hp')). cbn [bind].
    apply (IH fuel (S i) _ p'); [lia|exact Hp'|exact (@next_index i p p' Hp Hp')|lia|].
    unfold merged_upto. cbn [refs store]. rewrite !set_nth_length.
    split; [exact Hlr|]. split; [exact Hls|]. split; [|split].
    + intros j q Hq. rewrite nth_error_set_nth, Hlr.
      destruct (Nat.eqb_spec p' q) as [<-|Hpq].
      * destruct (Nat.ltb_spec p' (length frs)) as [_|Hbad];
          [|pose proof (@order_range (S i) p' Hp'); lia].
        cbn [andb]. pose proof (@nth_error_nodup _ order _ _ _ order_nodup Hq Hp').
        subst j. now rewrite Nat.leb_refl.
      * cbn [andb]. rewrite (Hrefs _ _ Hq).
        destruct (Nat.leb_spec j i), (Nat.leb_spec j (S i)); try reflexivity; try lia.
        assert (j = S i) by lia. subst j. congruence.
    + rewrite nth_error_set_nth, Nat.eqb_refl, Hls.
      destruct (Nat.ltb_spec h (length frs)) as [_|Hbad]; [|lia]. cbn [andb].
      do 3 f_equal.
      assert (Hi : S i < length order) by (apply nth_error_Some; congruence).
      rewrite (@firstn_succ_nth _ order (S i) 0 Hi).
      rewrite (@firstn_succ_nth _ ks (S i) 0) by (rewrite Hks; exact Hi).
      rewrite merge_chain_snoc
        by (rewrite !length_firstn, Hks; reflexivity).
      rewrite (nth_error_nth _ _ 0 Hp'). reflexivity.
    + intros q Hq. rewrite nth_error_set_nth.
      destruct (Nat.eqb_spec h q) as [->|_]; [contradiction|]. cbn [andb].
      now apply Hrest.
Qed.

Lemma stitch_attempt_chain unquote_plus :
  frs <> [] ->
  stitch_attempt unquote_plus stitchings overlaps (fragment_objects frs)
  = Ok (Some (unquote_plus (concat (merge_chain frs order ks)))).
Proof.
  intros Hne.
  assert (Hn : 0 < length frs) by (destruct frs; [congruence|cbn; lia]).
  assert (Hhead : exists h, nth_error order 0 = Some h).
  { destruct (nth_error order 0) as [h|] eqn:E; [eauto|].
    apply nth_error_None in E. rewrite order_length in E. lia. }
  destruct Hhead as [h Hh].
  assert (Hh' : h < length frs) by exact (@order_range 0 h Hh).
  assert (Hstart : merged_upto frs order ks 0 h (deepcopy (fragment_objects frs))).
  { unfold merged_upto, deepcopy. cbn [refs store].
    assert (Hlf : length (fragment_objects frs) = length frs)
      by (unfold fragment_objects; apply length_map).
    rewrite length_seq, Hlf. repeat split.
    - intros j p Hp. pose proof (@order_range j p Hp) as Hlt.
      rewrite nth_error_seq.
      destruct (Nat.ltb_spec p (length frs)) as [_|Hbad]; [|lia]. cbn [Nat.add].
      destruct j as [|j]; cbn [Nat.leb]; [|reflexivity]. congruence.
    - rewrite (fragment_object_at Hh'). do 3 f_equal.
      rewrite (firstn_one order Hh).
      assert (Hk : nth_error ks 0 = Some 0).
      { assert (Hlt : 0 < length ks) by (rewrite Hks, order_length; exact Hn).
        pose proof (nth_error_nth' ks 0 Hlt) as Hnth. now rewrite Hk0 in Hnth. }
      rewrite (firstn_one ks Hk).
      cbn [merge_chain skipn]. now rewrite app_nil_r. }
  unfold stitch_attempt.
  destruct (@trace_stage h Hh (length frs - 1) (S (length stitchings)) 0
              (deepcopy (fragment_objects frs)) h (-1)%Z)
    as (a & Htrace & Hlr & Hls & Hrefs & Hstore & _).
  - rewrite Hlen. lia.
  - exact Hh.
  - exact (head_index Hh).
  - lia.
  - exact Hstart.
  - rewrite Htrace. cbn [bind].
    assert (Hall : forall p, p < length frs -> nth_error (refs a) p = Some h).
    { intros p Hp. destruct (@order_covers p Hp) as [j Hj].
      rewrite (Hrefs _ _ Hj).
      assert (j < length order) by (apply nth_error_Some; congruence).
      rewrite order_length in H.
      destruct (Nat.leb_spec j (length frs - 1)); [reflexivity|lia]. }
    unfold py_index at 1. rewrite (Hall 0 Hn). cbn [bind].
    unfold py_index at 1. rewrite Hstore. cbn [bind].
    rewrite (@count_equal_all a _ (refs a) h).
    + cbn [bind]. rewrite Nat.eqb_refl. unfold to_convention_text.
      cbn [string URLString_init].
      replace (S (length frs - 1)) with (length frs) by lia.
      rewrite <- order_length at 1. rewrite firstn_all.
      rewrite <- order_length, <- Hks, firstn_all. reflexivity.
    + apply Forall_forall. intros x Hx. apply In_nth_error in Hx as [p Hp].
      assert (p < length frs) by (rewrite <- Hlr; apply nth_error_Some; congruence).
      rewrite (Hall p H) in Hp. congruence.
    + exact Hstore.
Qed.

End Trace.

(** ** The search takes the chain at its first attempt *)

Lemma perm_seq_length l n : Permutation l (seq 0 n) -> length l = n.
Proof. intros H. rewrite (Permutation_length H). apply length_seq. Qed.

Lemma perm_seq_nodup l n : Permutation l (seq 0 n) -> NoDup l.
Proof.
  intros H. apply (Permutation_NoDup (Permutation_sym H)). apply seq_NoDup.
Qed.

Lemma perm_seq_covers l n p :
  Permutation l (seq 0 n) -> p < n -> exists j, nth_error l j = Some p.
Proof.
  intros H Hp. apply In_nth_error.
  apply (Permutation_in _ (Permutation_sym H)). apply in_seq. lia.
Qed.

Lemma perm_seq_range l n j p :
  Permutation l (seq 0 n) -> nth_error l j = Some p -> p < n.
Proof.
  intros H Hj. apply nth_error_In in Hj.
  apply (Permutation_in _ H) in Hj. apply in_seq in Hj. lia.
Qed.

Lemma placed_chain order ks search n st :
  Permutation order (seq 0 n) -> Permutation search (seq 0 n) ->
  search_inv order ks search n n st ->
  follows_chain order ks (stitchings st) (overlaps st).
Proof.
  intros Ho Hs (_ & _ & _ & Hpl & _). split.
  - intros h Hh.
    assert (Hr : h < n) by exact (@perm_seq_range order n 0 h Ho Hh).
    destruct (@perm_seq_covers search n h Hs Hr) as [j Hj].
    assert (j < n).
    { rewrite <- (@perm_seq_length search n Hs). apply nth_error_Some. congruence. }
    exact (Hpl j h H Hj 0 Hh).
  - intros i q p Hq Hp.
    assert (Hr : p < n) by exact (@perm_seq_range order n (S i) p Ho Hp).
    destruct (@perm_seq_covers search n p Hs Hr) as [j Hj].
    assert (j < n).
    { rewrite <- (@perm_seq_length search n Hs). apply nth_error_Some. congruence. }
    destruct (Hpl j p H Hj (S i) Hp) as (q' & Hq' & H1 & H2).
    assert (q' = q) by congruence. subst q'. now split.
Qed.

Lemma placed_other order ks st st' target p :
  p <> target ->
  stitchings st' = set_nth (stitchings st) target (nth target (stitchings st') 0%Z) ->
  overlaps st' = set_nth (overlaps st) target (nth target (overlaps st') 0) ->
  placed order ks st p -> placed order ks st' p.
Proof.
  intros Hne Hs Ho Hp i Hi. specialize (Hp i Hi).
  assert (Hb : forall b, (target =? p) && b = false).
  { intros b. destruct (Nat.eqb_spec target p); [congruence|reflexivity]. }
  destruct i.
  - rewrite Hs, nth_error_set_nth, Hb. exact Hp.
  - destruct Hp as (q & Hq & H1 & H2). exists q. split; [exact Hq|].
    rewrite Hs, Ho, !nth_error_set_nth, !Hb. now split.
Qed.

Lemma set_nth_self {A : Type} (l : list A) i v d :
  i < length l -> set_nth l i v = set_nth l i (nth i (set_nth l i v) d).
Proof.
  revert i. induction l as [|a l IH]; intros i Hi; cbn [length] in Hi; [lia|].
  destruct i; cbn [set_nth nth]; [reflexivity|]. f_equal. apply IH. lia.
Qed.

Lemma set_nth_same {A : Type} (l : list A) i d :
  i < length l -> l = set_nth l i (nth i l d).
Proof.
  revert i. induction l as [|a l IH]; intros i Hi; cbn [length] in Hi; [lia|].
  destruct i; cbn [set_nth nth]; [reflexivity|]. f_equal. apply IH. lia.
Qed.

Section Search.

Variable unquote_plus : pystr -> pystr.
Variables (n : nat) (order ks search : list nat).
Variables (ja : list cell) (fragments : list URLString) (text : pystr).

Hypothesis Horder : Permutation order (seq 0 n).
Hypothesis Hsearch : Permutation search (seq 0 n).
Hypothesis Hja : length ja = n.
Hypothesis Hhead : forall h, nth_error order 0 = Some h ->
                             nth_error ja h = Some (Matches []).
Hypothesis Hnext : forall i q p,
  nth_error order i = Some q -> nth_error order (S i) = Some p ->
  exists l u, nth_error ja p = Some (Matches (l ++ [(q, u)])) /\
              len u = nth (S i) ks 0.
Hypothesis Hattempt : forall st,
  follows_chain order ks (stitchings st) (overlaps st) ->
  length (stitchings st) = n ->
  stitch_attempt unquote_plus (stitchings st) (overlaps st) fragments
  = Ok (Some text).
Hypothesis Htext : text <> [].

Lemma search_inv_head index st target :
  search_inv order ks search n index st ->
  nth_error search index = Some target ->
  nth_error order 0 = Some target ->
  search_inv order ks search n (index + 1)
    (mkState (seen_array st) (set_nth (stitchings st) target (-1)%Z) (overlaps st)).
Proof.
  intros (Hls & Hlst & Hlo & Hpl & Hseen) Ht Ho.
  assert (Htn : target < n) by exact (@perm_seq_range order n 0 target Horder Ho).
  unfold search_inv. cbn [seen_array stitchings overlaps].
  rewrite set_nth_length. repeat split; try assumption.
  - intros j p Hj Hp.
    destruct (Nat.eq_dec p target) as [->|Hne].
    + intros i Hi.
      assert (i = 0)
        by exact (@nth_error_nodup _ order i 0 target
                    (@perm_seq_nodup order n Horder) Hi Ho).
      subst i. cbn [stitchings]. rewrite nth_error_set_nth, Nat.eqb_refl.
      destruct (Nat.ltb_spec target (length (stitchings st))); [reflexivity|lia].
    + assert (j <> index) by congruence.
      apply (@placed_other order ks st _ target p Hne).
      * cbn [stitchings]. apply set_nth_self. lia.
      * cbn [overlaps]. apply set_nth_same. lia.
      * apply (Hpl j p); [lia|exact Hp].
  - intros q Hq Hs. destruct (Hseen q Hq Hs) as (j & i & p & Hj & H).
    exists j, i, p. split; [lia|exact H].
Qed.

Lemma search_inv_unseen index st target i q :
  search_inv order ks search n index st ->
  nth_error search index = Some target ->
  nth_error order (S i) = Some target -> nth_error order i = Some q ->
  nth_error (seen_array st) q = Some 0.
Proof.
  intros (Hls & Hlst & Hlo & Hpl & Hseen) Ht Ho Hq.
  assert (Hqn : q < n) by exact (@perm_seq_range order n i q Horder Hq).
  destruct (nth_error (seen_array st) q) as [v|] eqn:Hv.
  2:{ apply nth_error_None in Hv. lia. }
  destruct v; [reflexivity|]. exfalso.
  destruct (Hseen q Hqn) as (j & i' & p & Hj & Hp & Hp' & Hq').
  { rewrite Hv. discriminate. }
  assert (i' = i)
    by exact (@nth_error_nodup _ order i' i q (@perm_seq_nodup order n Horder) Hq' Hq).
  subst i'. assert (p = target) by congruence. subst p.
  assert (j = index)
    by exact (@nth_error_nodup _ search j index target
                (@perm_seq_nodup search n Hsearch) Hp Ht).
  lia.
Qed.

Lemma search_inv_next index st target i q :
  search_inv order ks search n index st ->
  nth_error search index = Some target ->
  nth_error order (S i) = Some target -> nth_error order i = Some q ->
  search_inv order ks search n (index + 1)
    (mkState (set_nth (seen_array st) q 1)
             (set_nth (stitchings st) target (Z.of_nat q))
             (set_nth (overlaps st) target (nth (S i) ks 0))).
Proof.
  intros (Hls & Hlst & Hlo & Hpl & Hseen) Ht Ho Hq.
  assert (Htn : target < n) by exact (@perm_seq_range order n (S i) target Horder Ho).
  unfold search_inv. cbn [seen_array stitchings overlaps].
  rewrite !set_nth_length. repeat split; try assumption.
  - intros j p Hj Hp.
    destruct (Nat.eq_dec p target) as [->|Hne].
    + intros i' Hi'.
      assert (i' = S i)
        by exact (@nth_error_nodup _ order i' (S i) target
                    (@perm_seq_nodup order n Horder) Hi' Ho).
      subst i'. exists q. cbn [stitchings overlaps].
      rewrite !nth_error_set_nth, Nat.eqb_refl.
      destruct (Nat.ltb_spec target (length (stitchings st))); [|lia].
      destruct (Nat.ltb_spec target (length (overlaps st))); [|lia].
      repeat split; [exact Hq].
    + assert (j <> index) by congruence.
      apply (@placed_other order ks st _ target p Hne).
      * cbn [stitchings]. apply set_nth_self. lia.
      * cbn [overlaps]. apply set_nth_self. lia.
      * apply (Hpl j p); [lia|exact Hp].
  - intros q' Hq' Hs. rewrite nth_error_set_nth in Hs.
    destruct (Nat.eqb_spec q q') as [<-|Hne].
    + exists index, i, target. repeat split; try assumption. lia.
    + cbn [andb] in Hs.
      destruct (Hseen q' Hq' Hs) as (j & i' & p & Hj & H).
      exists j, i', p. split; [lia|exact H].
Qed.

Lemma stitch_first_choice d :
  forall index st, index + d = n ->
    search_inv order ks search n index st ->
    exists st', stitch unquote_plus d ja index search st fragments
                = Ok (Some text, st').
Proof.
  induction d as [|d IH]; intros index st Hd Hinv.
  - assert (index = n) by lia. subst index.
    destruct Hinv as (Hls & Hlst & Hlo & Hpl & Hseen).
    cbn [stitch]. rewrite Hja, Nat.eqb_refl. rewrite Hattempt.
    + cbn [bind]. eexists. reflexivity.
    + apply (@placed_chain order ks search n st Horder Hsearch).
      repeat split; assumption.
    + exact Hlst.
  - cbn [stitch]. destruct (Nat.eqb_spec index (length ja)) as [He|_]; [lia|].
    pose proof Hinv as (Hls & Hlst & Hlo & Hpl & Hseen).
    destruct (nth_error search index) as [target|] eqn:Ht.
    2:{ apply nth_error_None in Ht.
        rewrite (@perm_seq_length search n Hsearch) in Ht. lia. }
    unfold py_index at 1. rewrite Ht. cbn [bind].
    assert (Htn : target < n)
      by exact (@perm_seq_range search n index target Hsearch Ht).
    destruct (@perm_seq_covers order n target Horder Htn) as [i Hi].
    destruct i as [|i].
    + unfold py_index at 1. rewrite (Hhead Hi). cbn [bind].
      rewrite py_setitem_set_nth by lia. cbn [bind].
      destruct (IH (index + 1) _ ltac:(lia) (search_inv_head Hinv Ht Hi))
        as [st' Hst'].
      rewrite Hst'. cbn [bind]. destruct text; [contradiction|].
      cbn [truthy]. eexists. reflexivity.
    + assert (Hq : exists q, nth_error order i = Some q).
      { destruct (nth_error order i) eqn:E; [eauto|].
        apply nth_error_None in E.
        assert (S i < length order) by (apply nth_error_Some; congruence).
        lia. }
      destruct Hq as [q Hq].
      destruct (Hnext _ Hq Hi) as (l & u & Hl & Hu).
      unfold py_index at 1. rewrite Hl. cbn [bind].
      destruct (l ++ [(q, u)]) as [|m ms] eqn:E; [destruct l; discriminate|].
      rewrite <- E, rev_app_distr. cbn [rev app try_candidates].
      unfold py_index at 1.
      rewrite (@search_inv_unseen index st target i q Hinv Ht Hi Hq). cbn [bind Nat.eqb negb].
      assert (Hqn : q < n) by exact (@perm_seq_range order n i q Horder Hq).
      rewrite !py_setitem_set_nth by lia. cbn [bind].
      rewrite Hu.
      destruct (IH (index + 1) _ ltac:(lia) (@search_inv_next index st target i q Hinv Ht Hi Hq))
        as [st' Hst'].
      rewrite Hst'. cbn [bind]. destruct text; [contradiction|].
      cbn [truthy]. eexists. reflexivity.
Qed.

End Search.

(** ** The search order *)

Lemma map_result_ok {A B : Type} (f : A -> result B) (g : A -> B) l :
  (forall x, In x l -> f x = Ok (g x)) -> map_result f l = Ok (map g l).
Proof.
  induction l as [|a l IH]; intros H; [reflexivity|].
  cbn [map_result map]. rewrite (H a (or_introl eq_refl)). cbn [bind].
  rewrite IH by (intros x Hx; apply H; now right). reflexivity.
Qed.

Lemma sort_insert_perm x l : Permutation (sort_insert x l) (x :: l).
Proof.
  induction l as [|y l IH]; [apply Permutation_refl|].
  cbn [sort_insert]. destruct (fst x <=? fst y); [apply Permutation_refl|].
  rewrite perm_swap. now apply perm_skip.
Qed.

Lemma sort_keyed_perm l : Permutation (sort_keyed l) l.
Proof.
  induction l as [|x l IH]; [apply perm_nil|].
  unfold sort_keyed in *. cbn [fold_right].
  rewrite sort_insert_perm. now apply perm_skip.
Qed.

Lemma map_snd_combine {A B : Type} (l : list A) (l' : list B) :
  length l = length l' -> map snd (combine l l') = l'.
Proof.
  revert l'. induction l as [|a l IH]; intros [|b l'] H; try discriminate.
  - reflexivity.
  - cbn [combine map snd]. f_equal. apply IH. now injection H.
Qed.

Lemma sorted_search_perm ja n :
  (forall p, p < n -> exists snap, nth_error ja p = Some (Matches snap)) ->
  exists search, sorted_search ja n = Ok search /\ Permutation search (seq 0 n).
Proof.
  intros H. unfold sorted_search.
  rewrite (@map_result_ok _ _ _
             (fun x => match nth_error ja x with
                       | Some (Matches s) => length s
                       | _ => 0
                       end)).
  - cbn [bind]. eexists. split; [reflexivity|].
    rewrite (Permutation_map snd (sort_keyed_perm _)).
    rewrite map_snd_combine; [apply Permutation_refl|].
    now rewrite length_map.
  - intros x Hx. apply in_seq in Hx. destruct (H x) as [snap Hs]; [lia|].
    unfold py_index. rewrite Hs. reflexivity.
Qed.

Lemma empty_entries_head ja h :
  (forall p, p < length ja -> exists snap, nth_error ja p = Some (Matches snap)) ->
  nth_error ja h = Some (Matches []) ->
  exists x rest, empty_entries ja = Ok (x :: rest).
Proof.
  revert h. induction ja as [|c ja IH]; intros h Hall Hh.
  - destruct h; discriminate.
  - cbn [empty_entries].
    destruct (Hall 0) as [snap Hs]; [cbn; lia|]. cbn in Hs. injection Hs as ->.
    cbn [cell_len bind].
    assert (Hall' : forall p, p < length ja ->
                      exists snap, nth_error ja p = Some (Matches snap)).
    { intros p Hp. apply (Hall (S p)). cbn [length]. lia. }
    destruct h as [|h].
    + cbn in Hh. injection Hh as ->. cbn [length Nat.eqb].
      destruct (empty_entries ja) as [rest|e] eqn:E.
      * cbn [bind]. eauto.
      * exfalso. clear - E Hall'. revert e E.
        induction ja as [|c ja IH]; intros e E; [discriminate|].
        cbn [empty_entries] in E.
        destruct (Hall' 0) as [snap Hs]; [cbn; lia|]. cbn in Hs.
        injection Hs as ->. cbn [cell_len bind] in E.
        destruct (empty_entries ja) eqn:E'; [discriminate|].
        eapply IH; [|reflexivity].
        intros p Hp. apply (Hall' (S p)). cbn [length]. lia.
    + destruct (IH h Hall' Hh) as (x & rest & ->). cbn [bind].
      destruct (length snap =? 0); eauto.
Qed.

(** ** Step 3 on a chain *)

Lemma fresh_state_inv order ks search n :
  search_inv order ks search n 0 (fresh_state n).
Proof.
  unfold search_inv, fresh_state. cbn [seen_array stitchings overlaps].
  rewrite !repeat_length. repeat split.
  - intros j p Hj. lia.
  - intros q Hq Hs. exfalso. apply Hs.
    rewrite nth_error_repeat by exact Hq. reflexivity.
Qed.

Lemma assemble_chain unquote_plus frs order ks ja :
  frs <> [] ->
  Forall (Forall (fun x => clean_token x = true)) frs ->
  Permutation order (seq 0 (length frs)) ->
  length ks = length order -> nth 0 ks 0 = 0 ->
  (forall i p, nth_error order i = Some p -> nth i ks 0 <= length (nth p frs [])) ->
  length ja = length frs ->
  (forall h, nth_error order 0 = Some h -> nth_error ja h = Some (Matches [])) ->
  (forall i q p,
     nth_error order i = Some q -> nth_error order (S i) = Some p ->
     exists l u, nth_error ja p = Some (Matches (l ++ [(q, u)])) /\
                 len u = nth (S i) ks 0) ->
  unquote_plus (concat (merge_chain frs order ks)) <> [] ->
  assemble unquote_plus ja (fragment_objects frs)
  = Ok (Some (unquote_plus (concat (merge_chain frs order ks)))).
Proof.
  intros Hne Hclean Hperm Hks Hk0 Hfit Hja Hhead Hnext Htext.
  assert (Hlo : length order = length frs)
    by exact (@perm_seq_length order (length frs) Hperm).
  assert (Hall : forall p, p < length frs ->
                   exists snap, nth_error ja p = Some (Matches snap)).
  { intros p Hp.
    destruct (@perm_seq_covers order (length frs) p Hperm Hp) as [[|i] Hi].
    - rewrite (Hhead p Hi). eauto.
    - destruct (nth_error order i) as [q|] eqn:Hq.
      + destruct (Hnext i q p Hq Hi) as (l & u & Hl & _). eauto.
      + apply nth_error_None in Hq.
        assert (S i < length order) by (apply nth_error_Some; congruence).
        lia. }
  assert (Hh : exists h, nth_error order 0 = Some h).
  { destruct order as [|h o]; [|cbn; eauto].
    destruct frs; [congruence|discriminate]. }
  destruct Hh as [h Hh].
  unfold assemble.
  destruct (@empty_entries_head ja h) as (x & rest & ->).
  { rewrite Hja. exact Hall. }
  { exact (Hhead h Hh). }
  cbn [bind]. unfold run_search.
  assert (Hlf : length (fragment_objects frs) = length frs)
    by (unfold fragment_objects; apply length_map).
  rewrite Hlf.
  destruct (@sorted_search_perm ja (length frs) Hall) as (search & -> & Hsearch).
  cbn [bind].
  destruct (@stitch_first_choice unquote_plus (length frs) order ks search ja
              (fragment_objects frs)
              (unquote_plus (concat (merge_chain frs order ks)))
              Hperm Hsearch Hja Hhead Hnext) with (d := length ja) (index := 0)
              (st := fresh_state (length frs)) as [st' Hst'].
  - intros st Hchain Hlen.
    exact (@stitch_attempt_chain frs order ks (stitchings st) (overlaps st)
             Hclean Hperm Hks Hk0 Hfit Hchain Hlen unquote_plus Hne).
  - exact Htext.
  - lia.
  - apply fresh_state_inv.
  - rewrite Hst'. reflexivity.
Qed.

(** ** The search with backtracking *)

Lemma py_setitem_ok_inv {A : Type} (l l' : list A) i v :
  py_setitem l i v = Ok l' -> i < length l /\ l' = set_nth l i v.
Proof.
  revert i l'. induction l as [|a l IH]; intros i l' H; cbn [py_setitem] in H.
  - discriminate.
  - destruct i as [|i].
    + injection H as <-. cbn. split; [lia|reflexivity].
    + apply bind_ok in H as (tl' & Htl & H). injection H as <-.
      destruct (IH _ _ Htl) as [Hi ->]. cbn. split; [lia|reflexivity].
Qed.

Lemma set_nth_undo {A : Type} (l : list A) i a b :
  nth_error l i = Some b -> set_nth (set_nth l i a) i b = l.
Proof.
  revert i. induction l as [|x l IH]; intros i H.
  - destruct i; discriminate.
  - destruct i as [|i]; cbn [set_nth].
    + cbn in H. now injection H as ->.
    + f_equal. now apply IH.
Qed.

Lemma same_searched_refl search index st : same_searched search index st st.
Proof. repeat split; reflexivity. Qed.

Lemma back_inv_same order search n index st st' :
  back_inv order search n index st -> same_searched search index st st' ->
  back_inv order search n index st'.
Proof.
  intros (Hls & Hlst & Hlo & Hhd & Hpred & Hflag & Hinj) (Hseen & Hl1 & Hl2 & Hsame).
  unfold back_inv. rewrite Hseen, Hl1, Hl2. repeat split; try assumption.
  - intros j p Hj Hp Ho. rewrite (proj1 (Hsame j p Hj Hp)). eauto.
  - intros j p i Hj Hp Ho. destruct (Hpred j p i Hj Hp Ho) as (i' & g & H1 & H2 & H3 & H4).
    exists i', g. rewrite (proj1 (Hsame j p Hj Hp)). auto.
  - intros g Hg Hs. destruct (Hflag g Hg Hs) as (j & p & i & Hj & Hp & Ho & Hst).
    exists j, p, i. rewrite (proj1 (Hsame j p Hj Hp)). auto.
  - intros j1 j2 p1 p2 i1 i2 v Hj1 Hj2 Hp1 Hp2 Ho1 Ho2 H1 H2.
    rewrite (proj1 (Hsame j1 p1 Hj1 Hp1)) in H1.
    rewrite (proj1 (Hsame j2 p2 Hj2 Hp2)) in H2.
    exact (Hinj j1 j2 p1 p2 i1 i2 v Hj1 Hj2 Hp1 Hp2 Ho1 Ho2 H1 H2).
Qed.

Lemma on_chain_same order ks search index st st' :
  on_chain order ks search index st -> same_searched search index st st' ->
  on_chain order ks search index st'.
Proof.
  intros H (_ & _ & _ & Hsame) j p i q Hj Hp Ho Hq.
  destruct (Hsame j p Hj Hp) as [-> ->]. eauto.
Qed.

Lemma off_chain_same order search index st st' :
  off_chain order search index st -> same_searched search index st st' ->
  off_chain order search index st'.
Proof.
  intros (j & p & i & q & Hj & Hp & Ho & Hq & Hne) (_ & _ & _ & Hsame).
  exists j, p, i, q. rewrite (proj1 (Hsame j p Hj Hp)). auto.
Qed.

Lemma same_searched_trans search index st1 st2 st3 :
  same_searched search index st1 st2 -> same_searched search index st2 st3 ->
  same_searched search index st1 st3.
Proof.
  intros (H1 & H2 & H3 & H4) (H1' & H2' & H3' & H4').
  repeat split; try congruence.
  - rewrite (proj1 (H4' j p H H0)). exact (proj1 (H4 j p H H0)).
  - rewrite (proj2 (H4' j p H H0)). exact (proj2 (H4 j p H H0)).
Qed.

Lemma nth_error_set_other {A : Type} (l : list A) i j v :
  i <> j -> nth_error (set_nth l i v) j = nth_error l j.
Proof.
  intros H. rewrite nth_error_set_nth.
  destruct (Nat.eqb_spec i j); [contradiction|reflexivity].
Qed.

Lemma nth_error_set_same {A : Type} (l : list A) i v :
  i < length l -> nth_error (set_nth l i v) i = Some v.
Proof.
  intros H. rewrite nth_error_set_nth, Nat.eqb_refl.
  destruct (Nat.ltb_spec i (length l)); [reflexivity|lia].
Qed.

Section Backtrack.

Variable unquote_plus : pystr -> pystr.
Variables (n : nat) (order ks search : list nat).
Variables (ja : list cell) (fragments : list URLString) (text : pystr).

Hypothesis Horder : Permutation order (seq 0 n).
Hypothesis Hsearch : Permutation search (seq 0 n).

Lemma searched_before_index index target j p :
  nth_error search index = Some target -> j < index ->
  nth_error search j = Some p -> p <> target.
Proof.
  intros Ht Hj Hp ->.
  assert (j = index)
    by exact (@nth_error_nodup _ search j index target
                (@perm_seq_nodup search n Hsearch) Hp Ht).
  lia.
Qed.

Lemma searched_upto index target j p :
  nth_error search index = Some target -> j < index + 1 ->
  nth_error search j = Some p -> (j < index /\ p <> target) \/ (j = index /\ p = target).
Proof.
  intros Ht Hj Hp. destruct (Nat.eq_dec j index) as [->|Hne].
  - right. split; [reflexivity|congruence].
  - left. assert (Hlt : j < index) by lia. split; [exact Hlt|].
    exact (searched_before_index Ht Hlt Hp).
Qed.

(** The searched fragment is the first of the source: it gets [-1]. *)
Lemma back_inv_head index st target :
  back_inv order search n index st ->
  nth_error search index = Some target ->
  nth_error order 0 = Some target ->
  back_inv order search n (index + 1)
    (mkState (seen_array st) (set_nth (stitchings st) target (-1)%Z) (overlaps st)) /\
  (on_chain order ks search index st ->
   on_chain order ks search (index + 1)
     (mkState (seen_array st) (set_nth (stitchings st) target (-1)%Z) (overlaps st))) /\
  (off_chain order search index st ->
   off_chain order search (index + 1)
     (mkState (seen_array st) (set_nth (stitchings st) target (-1)%Z) (overlaps st))) /\
  (forall st1,
     same_searched search (index + 1)
       (mkState (seen_array st) (set_nth (stitchings st) target (-1)%Z) (overlaps st))
       st1 ->
     same_searched search index st st1).
Proof.
  intros (Hls & Hlst & Hlo & Hhd & Hpred & Hflag & Hinj) Ht Ho.
  assert (Htn : target < n) by exact (@perm_seq_range order n 0 target Horder Ho).
  assert (Hnd : NoDup order) by exact (@perm_seq_nodup order n Horder).
  assert (Hnothead : forall i, nth_error order (S i) = Some target -> False).
  { intros i Hi. pose proof (@nth_error_nodup _ order (S i) 0 target Hnd Hi Ho).
    discriminate. }
  split; [|split; [|split]].
  - unfold back_inv. cbn [seen_array stitchings overlaps]. rewrite set_nth_length.
    repeat split; try assumption.
    + intros j p Hj Hp Hp0.
      destruct (@searched_upto index target j p Ht Hj Hp) as [[Hlt Hne]|[_ ->]].
      * rewrite nth_error_set_other by congruence. eauto.
      * apply nth_error_set_same. lia.
    + intros j p i Hj Hp Hpi.
      destruct (@searched_upto index target j p Ht Hj Hp) as [[Hlt Hne]|[_ ->]].
      * rewrite nth_error_set_other by congruence. eauto.
      * destruct (Hnothead i Hpi).
    + intros g Hg Hs. destruct (Hflag g Hg Hs) as (j & p & i & Hj & Hp & Hpi & Hst).
      exists j, p, i. rewrite nth_error_set_other
        by (intros <-; exact (@searched_before_index index target j target Ht Hj Hp eq_refl)).
      repeat split; try assumption. lia.
    + intros j1 j2 p1 p2 i1 i2 v Hj1 Hj2 Hp1 Hp2 Ho1 Ho2 H1 H2.
      destruct (@searched_upto index target j1 p1 Ht Hj1 Hp1) as [[Hlt1 Hne1]|[_ ->]];
        [|destruct (Hnothead i1 Ho1)].
      destruct (@searched_upto index target j2 p2 Ht Hj2 Hp2) as [[Hlt2 Hne2]|[_ ->]];
        [|destruct (Hnothead i2 Ho2)].
      rewrite nth_error_set_other in H1, H2 by congruence.
      exact (Hinj j1 j2 p1 p2 i1 i2 v Hlt1 Hlt2 Hp1 Hp2 Ho1 Ho2 H1 H2).
  - intros Hon j p i q Hj Hp Hpi Hq. cbn [stitchings overlaps].
    destruct (@searched_upto index target j p Ht Hj Hp) as [[Hlt Hne]|[_ ->]].
    + rewrite nth_error_set_other by congruence. eauto.
    + destruct (Hnothead i Hpi).
  - intros (j & p & i & q & Hj & Hp & Hpi & Hq & Hne).
    exists j, p, i, q. cbn [stitchings].
    rewrite nth_error_set_other
      by (intros <-; exact (@searched_before_index index target j target Ht Hj Hp eq_refl)).
    repeat split; try assumption. lia.
  - intros st1 (H1 & H2 & H3 & H4). cbn [seen_array stitchings overlaps] in *.
    rewrite set_nth_length in H2. repeat split; try assumption.
    + rewrite (proj1 (H4 j p ltac:(lia) H0)).
      apply nth_error_set_other. intros <-.
      exact (@searched_before_index index target j target Ht H H0 eq_refl).
    + exact (proj2 (H4 j p ltac:(lia) H0)).
Qed.

(** The searched fragment takes a candidate [g] that is not flagged. *)
Lemma back_inv_assign index st target i i' g w st_a :
  back_inv order search n index st ->
  nth_error search index = Some target ->
  nth_error order (S i) = Some target ->
  i' <= i -> nth_error order i' = Some g ->
  nth_error (seen_array st) g = Some 0 ->
  st_a = mkState (set_nth (seen_array st) g 1)
                 (set_nth (stitchings st) target (Z.of_nat g))
                 (set_nth (overlaps st) target w) ->
  back_inv order search n (index + 1) st_a /\
  (on_chain order ks search index st -> i' = i -> w = nth (S i) ks 0 ->
   on_chain order ks search (index + 1) st_a) /\
  (off_chain order search index st -> off_chain order search (index + 1) st_a) /\
  (i' <> i -> off_chain order search (index + 1) st_a) /\
  (forall st1,
     same_searched search (index + 1) st_a st1 ->
     same_searched search index st
       (mkState (set_nth (seen_array st1) g 0) (stitchings st1) (overlaps st1))).
Proof.
  intros (Hls & Hlst & Hlo & Hhd & Hpred & Hflag & Hinj) Ht Ho Hle Hg Hunseen ->.
  assert (Htn : target < n) by exact (@perm_seq_range order n (S i) target Horder Ho).
  assert (Hgn : g < n) by exact (@perm_seq_range order n i' g Horder Hg).
  assert (Hnd : NoDup order) by exact (@perm_seq_nodup order n Horder).
  assert (Hq : exists q, nth_error order i = Some q).
  { destruct (nth_error order i) eqn:E; [eauto|].
    apply nth_error_None in E.
    assert (S i < length order) by (apply nth_error_Some; congruence). lia. }
  destruct Hq as [q Hq].
  assert (Hold : forall j p, j < index -> nth_error search j = Some p -> p <> target)
    by (intros j p Hj Hp; exact (@searched_before_index index target j p Ht Hj Hp)).
  split; [|split; [|split; [|split]]].
  - unfold back_inv. cbn [seen_array stitchings overlaps]. rewrite !set_nth_length.
    repeat split; try assumption.
    + intros j p Hj Hp Hp0.
      destruct (@searched_upto index target j p Ht Hj Hp) as [[Hlt Hne]|[_ ->]].
      * rewrite nth_error_set_other by congruence. eauto.
      * pose proof (@nth_error_nodup _ order (S i) 0 target Hnd Ho Hp0). discriminate.
    + intros j p i0 Hj Hp Hpi.
      destruct (@searched_upto index target j p Ht Hj Hp) as [[Hlt Hne]|[_ ->]].
      * destruct (Hpred j p i0 Hlt Hp Hpi) as (i1 & g1 & H1 & H2 & H3 & H4).
        exists i1, g1. rewrite nth_error_set_other by congruence.
        repeat split; try assumption.
        destruct (Nat.eq_dec g g1) as [<-|Hne1].
        -- apply nth_error_set_same. lia.
        -- now rewrite nth_error_set_other.
      * pose proof (@nth_error_nodup _ order (S i0) (S i) target Hnd Hpi Ho) as He.
        injection He as ->. exists i', g. repeat split; try assumption.
        -- apply nth_error_set_same. lia.
        -- apply nth_error_set_same. lia.
    + intros g0 Hg0 Hs. destruct (Nat.eq_dec g g0) as [<-|Hne].
      * exists index, target, i. repeat split; try assumption; [lia|].
        apply nth_error_set_same. lia.
      * rewrite nth_error_set_other in Hs by exact Hne.
        destruct (Hflag g0 Hg0 Hs) as (j & p & i0 & Hj & Hp & Hpi & Hst).
        exists j, p, i0. rewrite nth_error_set_other
          by (intros Heq; exact (Hold j p Hj Hp (eq_sym Heq))).
        repeat split; try assumption. lia.
    + assert (Hclash : forall j p i0 v, j < index -> nth_error search j = Some p ->
                nth_error order (S i0) = Some p ->
                nth_error (stitchings st) p = Some v -> v <> Z.of_nat g).
      { intros j p i0 v Hj Hp Hpi Hv ->.
        destruct (Hpred j p i0 Hj Hp Hpi) as (i1 & g1 & _ & _ & H3 & H4).
        rewrite Hv in H3. injection H3 as H3. apply Nat2Z.inj in H3. subst g1.
        congruence. }
      intros j1 j2 p1 p2 i1 i2 v Hj1 Hj2 Hp1 Hp2 Ho1 Ho2 H1 H2.
      destruct (@searched_upto index target j1 p1 Ht Hj1 Hp1) as [[Hlt1 Hne1]|[_ ->]];
        destruct (@searched_upto index target j2 p2 Ht Hj2 Hp2) as [[Hlt2 Hne2]|[_ ->]].
      * rewrite nth_error_set_other in H1, H2 by congruence.
        exact (Hinj j1 j2 p1 p2 i1 i2 v Hlt1 Hlt2 Hp1 Hp2 Ho1 Ho2 H1 H2).
      * rewrite nth_error_set_other in H1 by congruence.
        rewrite nth_error_set_same in H2 by lia. injection H2 as <-.
        destruct (Hclash j1 p1 i1 _ Hlt1 Hp1 Ho1 H1 eq_refl).
      * rewrite nth_error_set_other in H2 by congruence.
        rewrite nth_error_set_same in H1 by lia. injection H1 as <-.
        destruct (Hclash j2 p2 i2 _ Hlt2 Hp2 Ho2 H2 eq_refl).
      * reflexivity.
  - intros Hon -> -> j p i0 q0 Hj Hp Hpi Hq0. cbn [stitchings overlaps].
    destruct (@searched_upto index target j p Ht Hj Hp) as [[Hlt Hne]|[_ ->]].
    + rewrite !nth_error_set_other by congruence. eauto.
    + pose proof (@nth_error_nodup _ order (S i0) (S i) target Hnd Hpi Ho) as He.
      injection He as ->. assert (q0 = g) by congruence. subst q0.
      split; apply nth_error_set_same; lia.
  - intros (j & p & i0 & q0 & Hj & Hp & Hpi & Hq0 & Hne).
    exists j, p, i0, q0. cbn [stitchings].
    rewrite nth_error_set_other
      by (intros Heq; exact (Hold j p Hj Hp (eq_sym Heq))).
    repeat split; try assumption. lia.
  - intros Hne. exists index, target, i, q. cbn [stitchings].
    rewrite nth_error_set_same by lia.
    repeat split; try assumption; [lia|].
    intros Heq. injection Heq as Heq. apply Nat2Z.inj in Heq. subst q.
    apply Hne. exact (@nth_error_nodup _ order i' i g Hnd Hg Hq).
  - intros st1 (H1 & H2 & H3 & H4). cbn [seen_array stitchings overlaps] in *.
    rewrite set_nth_length in H2. rewrite set_nth_length in H3.
    repeat split; cbn [seen_array stitchings overlaps]; try assumption.
    + rewrite H1. now apply set_nth_undo.
    + rewrite (proj1 (H4 j p ltac:(lia) H0)).
      apply nth_error_set_other. intros Heq. exact (Hold j p H H0 (eq_sym Heq)).
    + rewrite (proj2 (H4 j p ltac:(lia) H0)).
      apply nth_error_set_other. intros Heq. exact (Hold j p H H0 (eq_sym Heq)).
Qed.

(** Once every fragment is searched, each has the fragment just before
    it: the predecessors are pairwise distinct and each comes earlier in
    the source. *)
Lemma back_inv_full st :
  back_inv order search n n st ->
  forall i p q, nth_error order (S i) = Some p -> nth_error order i = Some q ->
                nth_error (stitchings st) p = Some (Z.of_nat q).
Proof.
  intros (Hls & Hlst & Hlo & Hhd & Hpred & Hflag & Hinj).
  assert (Hnd : NoDup order) by exact (@perm_seq_nodup order n Horder).
  assert (Hsearched : forall p, p < n -> exists j, j < n /\ nth_error search j = Some p).
  { intros p Hp. destruct (@perm_seq_covers search n p Hsearch Hp) as [j Hj].
    exists j. split; [|exact Hj].
    rewrite <- (@perm_seq_length search n Hsearch). apply nth_error_Some. congruence. }
  induction i as [i IH] using lt_wf_ind. intros p q Hp Hq.
  assert (Hpn : p < n) by exact (@perm_seq_range order n (S i) p Horder Hp).
  destruct (Hsearched p Hpn) as (j & Hj & Hsj).
  destruct (Hpred j p i Hj Hsj Hp) as (i' & g & Hle & Hg & Hst & _).
  destruct (Nat.eq_dec i' i) as [->|Hne]; [congruence|]. exfalso.
  assert (Hlt : i' < i) by lia.
  destruct (nth_error order (S i')) as [p2|] eqn:Hp2.
  - pose proof (IH i' Hlt p2 g Hp2 Hg) as Hst2.
    assert (Hp2n : p2 < n) by exact (@perm_seq_range order n (S i') p2 Horder Hp2).
    destruct (Hsearched p2 Hp2n) as (j2 & Hj2 & Hsj2).
    pose proof (Hinj j j2 p p2 i i' _ Hj Hj2 Hsj Hsj2 Hp Hp2 Hst Hst2) as Heq.
    subst p2.
    pose proof (@nth_error_nodup _ order (S i) (S i') p Hnd Hp Hp2). lia.
  - apply nth_error_None in Hp2.
    assert (S i < length order) by (apply nth_error_Some; congruence). lia.
Qed.

Hypothesis Hja : length ja = n.
Hypothesis Hhead : forall h, nth_error order 0 = Some h ->
                             nth_error ja h = Some (Matches []).
Hypothesis Hcand : forall i q p,
  nth_error order i = Some q -> nth_error order (S i) = Some p ->
  exists l u r,
    nth_error ja p = Some (Matches (l ++ (q, u) :: r)) /\
    len u = nth (S i) ks 0 /\
    (forall g v, In (g, v) r -> g <> q) /\
    (forall g v, In (g, v) (l ++ (q, u) :: r) ->
       exists i', i' <= i /\ nth_error order i' = Some g).
Hypothesis Hattempt : forall st,
  follows_chain order ks (stitchings st) (overlaps st) ->
  length (stitchings st) = n ->
  stitch_attempt unquote_plus (stitchings st) (overlaps st) fragments
  = Ok (Some text).
Hypothesis Htext : text <> [].

(** The candidates of a fragment, tried when a searched fragment is off
    the chain: each is skipped, or taken, given up and unflagged. *)
Lemma try_candidates_off_chain
    (next : search_state -> result (option pystr * search_state))
    index target i :
  nth_error search index = Some target ->
  nth_error order (S i) = Some target ->
  (forall st, back_inv order search n (index + 1) st ->
              off_chain order search (index + 1) st ->
              exists st', next st = Ok (None, st') /\
                          same_searched search (index + 1) st st') ->
  forall cands,
    (forall g v, In (g, v) cands ->
       exists i', i' <= i /\ nth_error order i' = Some g) ->
    forall st, back_inv order search n index st -> off_chain order search index st ->
      exists st', try_candidates next target cands st = Ok (None, st') /\
                  same_searched search index st st'.
Proof.
  intros Ht Ho Hnext. induction cands as [|[g v] cands IH]; intros Hsound st Hinv Hoff.
  - exists st. split; [reflexivity|apply same_searched_refl].
  - destruct (Hsound g v (or_introl eq_refl)) as (i' & Hle & Hg).
    assert (Hsound' : forall g0 v0, In (g0, v0) cands ->
              exists i0, i0 <= i /\ nth_error order i0 = Some g0)
      by (intros g0 v0 H0; apply (Hsound g0 v0); now right).
    pose proof Hinv as (Hls & Hlst & Hlo & _).
    assert (Htn : target < n) by exact (@perm_seq_range order n (S i) target Horder Ho).
    assert (Hgn : g < n) by exact (@perm_seq_range order n i' g Horder Hg).
    cbn [try_candidates]. unfold py_index at 1.
    destruct (nth_error (seen_array st) g) as [s0|] eqn:Hs0.
    2:{ apply nth_error_None in Hs0. lia. }
    cbn [bind]. destruct (Nat.eqb_spec s0 0) as [->|Hnz]; cbn [negb].
    2:{ exact (IH Hsound' st Hinv Hoff). }
    rewrite !py_setitem_set_nth by lia. cbn [bind].
    destruct (@back_inv_assign index st target i i' g (len v) _ Hinv Ht Ho Hle Hg Hs0
                eq_refl) as (Hinv1 & _ & Hoff1 & _ & Hback).
    destruct (Hnext _ Hinv1 (Hoff1 Hoff)) as (st1 & -> & Hsame1).
    cbn [bind truthy].
    assert (Hl1 : length (seen_array st1) = n).
    { destruct Hsame1 as (-> & _). cbn [seen_array]. now rewrite set_nth_length. }
    rewrite py_setitem_set_nth by lia. cbn [bind].
    pose proof (Hback st1 Hsame1) as Hsame2.
    destruct (IH Hsound' _ (back_inv_same Hinv Hsame2) (off_chain_same Hoff Hsame2))
      as (st' & Htry & Hsame').
    exists st'. split; [exact Htry|].
    exact (same_searched_trans Hsame2 Hsame').
Qed.

(** On the chain, the fragment just before the searched one is not
    flagged yet. *)
Lemma predecessor_not_flagged index st target i q :
  back_inv order search n index st -> on_chain order ks search index st ->
  nth_error search index = Some target ->
  nth_error order (S i) = Some target -> nth_error order i = Some q ->
  nth_error (seen_array st) q = Some 0.
Proof.
  intros (Hls & _ & _ & _ & _ & Hflag & _) Hon Ht Ho Hq.
  assert (Hnd : NoDup order) by exact (@perm_seq_nodup order n Horder).
  assert (Hqn : q < n) by exact (@perm_seq_range order n i q Horder Hq).
  destruct (nth_error (seen_array st) q) as [s0|] eqn:Hs0.
  2:{ apply nth_error_None in Hs0. lia. }
  destruct s0 as [|s0]; [reflexivity|]. exfalso.
  destruct (Hflag q Hqn) as (j & p & i0 & Hj & Hp & Hpi & Hst).
  { rewrite Hs0. discriminate. }
  assert (Hq0 : exists q0, nth_error order i0 = Some q0).
  { destruct (nth_error order i0) eqn:E; [eauto|].
    apply nth_error_None in E.
    assert (S i0 < length order) by (apply nth_error_Some; congruence). lia. }
  destruct Hq0 as [q0 Hq0].
  destruct (Hon j p i0 q0 Hj Hp Hpi Hq0) as [Hst0 _].
  rewrite Hst in Hst0. injection Hst0 as Heq. apply Nat2Z.inj in Heq. subst q0.
  pose proof (@nth_error_nodup _ order i0 i q Hnd Hq0 Hq). subst i0.
  assert (p = target) by congruence. subst p.
  exact (@searched_before_index index target j target Ht Hj Hp eq_refl).
Qed.

(** The candidates of a fragment, tried on the chain: those after the
    last entry of the fragment just before it are skipped or given up, and
    that entry is taken. *)
Lemma try_candidates_on_chain
    (next : search_state -> result (option pystr * search_state))
    index target i q u :
  nth_error search index = Some target ->
  nth_error order (S i) = Some target -> nth_error order i = Some q ->
  len u = nth (S i) ks 0 ->
  (forall st, back_inv order search n (index + 1) st ->
              off_chain order search (index + 1) st ->
              exists st', next st = Ok (None, st') /\
                          same_searched search (index + 1) st st') ->
  (forall st, back_inv order search n (index + 1) st ->
              on_chain order ks search (index + 1) st ->
              exists st', next st = Ok (Some text, st')) ->
  forall front rest,
    (forall g v, In (g, v) front ->
       g <> q /\ exists i', i' <= i /\ nth_error order i' = Some g) ->
    forall st, back_inv order search n index st -> on_chain order ks search index st ->
      exists st', try_candidates next target (front ++ (q, u) :: rest) st
                  = Ok (Some text, st').
Proof.
  intros Ht Ho Hq Hu Hoffnext Honnext.
  assert (Htn : target < n) by exact (@perm_seq_range order n (S i) target Horder Ho).
  assert (Hnd : NoDup order) by exact (@perm_seq_nodup order n Horder).
  induction front as [|[g v] front IH]; intros rest Hfront st Hinv Hon.
  - pose proof Hinv as (Hls & Hlst & Hlo & _).
    assert (Hqn : q < n) by exact (@perm_seq_range order n i q Horder Hq).
    pose proof (@predecessor_not_flagged index st target i q Hinv Hon Ht Ho Hq) as Hs0.
    cbn [app try_candidates]. unfold py_index at 1. rewrite Hs0.
    cbn [bind Nat.eqb negb]. rewrite !py_setitem_set_nth by lia. cbn [bind].
    destruct (@back_inv_assign index st target i i q (len u) _ Hinv Ht Ho
                (Nat.le_refl i) Hq Hs0 eq_refl) as (Hinv1 & Hon1 & _).
    destruct (Honnext _ Hinv1 (Hon1 Hon eq_refl Hu)) as (st1 & ->).
    cbn [bind]. destruct text; [congruence|]. cbn [truthy]. eauto.
  - destruct (Hfront g v (or_introl eq_refl)) as (Hgq & i' & Hle & Hg).
    assert (Hfront' : forall g0 v0, In (g0, v0) front ->
              g0 <> q /\ exists i0, i0 <= i /\ nth_error order i0 = Some g0)
      by (intros g0 v0 H0; apply (Hfront g0 v0); now right).
    pose proof Hinv as (Hls & Hlst & Hlo & _).
    assert (Hgn : g < n) by exact (@perm_seq_range order n i' g Horder Hg).
    cbn [app try_candidates]. unfold py_index at 1.
    destruct (nth_error (seen_array st) g) as [s0|] eqn:Hs0.
    2:{ apply nth_error_None in Hs0. lia. }
    cbn [bind]. destruct (Nat.eqb_spec s0 0) as [->|Hnz]; cbn [negb].
    2:{ exact (IH rest Hfront' st Hinv Hon). }
    rewrite !py_setitem_set_nth by lia. cbn [bind].
    destruct (@back_inv_assign index st target i i' g (len v) _ Hinv Ht Ho Hle Hg Hs0
                eq_refl) as (Hinv1 & _ & _ & Hoff1 & Hback).
    assert (Hne : i' <> i).
    { intros ->. apply Hgq. congruence. }
    destruct (Hoffnext _ Hinv1 (Hoff1 Hne)) as (st1 & -> & Hsame1).
    cbn [bind truthy].
    assert (Hl1 : length (seen_array st1) = n).
    { destruct Hsame1 as (-> & _). cbn [seen_array]. now rewrite set_nth_length. }
    rewrite py_setitem_set_nth by lia. cbn [bind].
    pose proof (Hback st1 Hsame1) as Hsame2.
    exact (IH rest Hfront' _ (back_inv_same Hinv Hsame2) (on_chain_same Hon Hsame2)).
Qed.

Lemma on_chain_follows st :
  back_inv order search n n st -> on_chain order ks search n st ->
  follows_chain order ks (stitchings st) (overlaps st).
Proof.
  intros (_ & _ & _ & Hhd & _) Hon.
  assert (Hsearched : forall p, p < n -> exists j, j < n /\ nth_error search j = Some p).
  { intros p Hp. destruct (@perm_seq_covers search n p Hsearch Hp) as [j Hj].
    exists j. split; [|exact Hj].
    rewrite <- (@perm_seq_length search n Hsearch). apply nth_error_Some. congruence. }
  split.
  - intros h Hh.
    destruct (Hsearched h (@perm_seq_range order n 0 h Horder Hh)) as (j & Hj & Hsj).
    exact (Hhd j h Hj Hsj Hh).
  - intros i q p Hq Hp.
    destruct (Hsearched p (@perm_seq_range order n (S i) p Horder Hp)) as (j & Hj & Hsj).
    exact (Hon j p i q Hj Hsj Hp Hq).
Qed.

(** [stitch] entered on the chain returns the text; entered off the chain
    it returns [None] and leaves the searched part of the arrays as it
    was. *)
Lemma stitch_backtrack d :
  forall index st, index + d = n -> back_inv order search n index st ->
    (on_chain order ks search index st ->
     exists st', stitch unquote_plus d ja index search st fragments
                 = Ok (Some text, st')) /\
    (off_chain order search index st ->
     exists st', stitch unquote_plus d ja index search st fragments
                 = Ok (None, st') /\
                 same_searched search index st st').
Proof.
  induction d as [|d IH]; intros index st Hd Hinv.
  - assert (index = n) by lia. subst index. split.
    + intros Hon. cbn [stitch]. rewrite Hja, Nat.eqb_refl.
      rewrite Hattempt.
      * cbn [bind]. eauto.
      * now apply on_chain_follows.
      * exact (proj1 (proj2 Hinv)).
    + intros (j & p & i & q & Hj & Hp & Hpi & Hq & Hne). exfalso.
      apply Hne. exact (back_inv_full Hinv i Hpi Hq).
  - assert (Hnext : forall st1, back_inv order search n (index + 1) st1 ->
              (on_chain order ks search (index + 1) st1 ->
               exists st', stitch unquote_plus d ja (index + 1) search st1 fragments
                           = Ok (Some text, st')) /\
              (off_chain order search (index + 1) st1 ->
               exists st', stitch unquote_plus d ja (index + 1) search st1 fragments
                           = Ok (None, st') /\
                           same_searched search (index + 1) st1 st'))
      by (intros st1 H1; apply IH; [lia|exact H1]).
    pose proof Hinv as (Hls & Hlst & Hlo & _).
    destruct (nth_error search index) as [target|] eqn:Ht.
    2:{ apply nth_error_None in Ht.
        rewrite (@perm_seq_length search n Hsearch) in Ht. lia. }
    assert (Htn : target < n)
      by exact (@perm_seq_range search n index target Hsearch Ht).
    destruct (@perm_seq_covers order n target Horder Htn) as [k Hk].
    assert (Hunfold : forall entry, nth_error ja target = Some entry ->
              stitch unquote_plus (S d) ja index search st fragments
              = match entry with
                | Zero => Raise TypeError
                | Matches [] =>
                    stitchings' <- py_setitem (stitchings st) target (-1)%Z ;;
                    '(r, st') <- stitch unquote_plus d ja (index + 1) search
                                   (mkState (seen_array st) stitchings' (overlaps st))
                                   fragments ;;
                    Ok (if truthy r then r else None, st')
                | Matches matches =>
                    try_candidates
                      (fun st' => stitch unquote_plus d ja (index + 1) search st'
                                         fragments)
                      target (rev matches) st
                end).
    { intros entry He. cbn [stitch].
      destruct (Nat.eqb_spec index (length ja)) as [Heq|_]; [lia|].
      unfold py_index. rewrite Ht. cbn [bind]. rewrite He. reflexivity. }
    destruct k as [|i].
    + rewrite (Hunfold _ (@Hhead target Hk)).
      rewrite py_setitem_set_nth by lia. cbn [bind].
      destruct (@back_inv_head index st target Hinv Ht Hk)
        as (Hinv1 & Hon1 & Hoff1 & Hback).
      destruct (Hnext _ Hinv1) as [HA HB]. split.
      * intros Hon. destruct (HA (Hon1 Hon)) as (st' & ->). cbn [bind].
        destruct text; [congruence|]. cbn [truthy]. eauto.
      * intros Hoff. destruct (HB (Hoff1 Hoff)) as (st' & -> & Hsame).
        cbn [bind truthy]. exists st'. split; [reflexivity|]. exact (Hback st' Hsame).
    + assert (Hq : exists q, nth_error order i = Some q).
      { destruct (nth_error order i) eqn:E; [eauto|].
        apply nth_error_None in E.
        assert (S i < length order) by (apply nth_error_Some; congruence). lia. }
      destruct Hq as [q Hq].
      destruct (@Hcand i q target Hq Hk) as (l & u & r & Hl & Hu & Hr & Hsound).
      rewrite (Hunfold _ Hl).
      destruct (l ++ (q, u) :: r) as [|m ms] eqn:E; [destruct l; discriminate|].
      rewrite <- E in *. clear m ms E.
      rewrite rev_app_distr. cbn [rev]. rewrite <- app_assoc. cbn [app].
      split.
      * intros Hon.
        apply (@try_candidates_on_chain
                 (fun st' => stitch unquote_plus d ja (index + 1) search st' fragments)
                 index target i q u Ht Hk Hq Hu).
        -- intros st1 H1 H2. exact (proj2 (Hnext st1 H1) H2).
        -- intros st1 H1 H2. exact (proj1 (Hnext st1 H1) H2).
        -- intros g v Hin. apply in_rev in Hin. split; [exact (Hr g v Hin)|].
           apply (Hsound g v). apply in_app_iff. right. now right.
        -- exact Hinv.
        -- exact Hon.
      * intros Hoff.
        apply (@try_candidates_off_chain
                 (fun st' => stitch unquote_plus d ja (index + 1) search st' fragments)
                 index target i Ht Hk).
        -- intros st1 H1 H2. exact (proj2 (Hnext st1 H1) H2).
        -- intros g v Hin. apply (Hsound g v).
           apply in_app_iff in Hin as [Hin|[Hin|Hin]].
           ++ apply in_rev in Hin. apply in_app_iff. right. now right.
           ++ apply in_app_iff. right. left. exact Hin.
           ++ apply in_rev in Hin. apply in_app_iff. now left.
        -- exact Hinv.
        -- exact Hoff.
Qed.

End Backtrack.

Lemma fresh_back_inv order ks search n :
  back_inv order search n 0 (fresh_state n) /\
  on_chain order ks search 0 (fresh_state n).
Proof.
  split.
  - unfold back_inv, fresh_state. cbn [seen_array stitchings overlaps].
    rewrite !repeat_length. repeat split; try (intros; lia).
    intros g Hg Hs. exfalso. apply Hs. now apply nth_error_repeat.
  - intros j p i q Hj. lia.
Qed.

Lemma assemble_backtrack unquote_plus frs order ks ja :
  frs <> [] ->
  Forall (Forall (fun x => clean_token x = true)) frs ->
  Permutation order (seq 0 (length frs)) ->
  length ks = length order -> nth 0 ks 0 = 0 ->
  (forall i p, nth_error order i = Some p -> nth i ks 0 <= length (nth p frs [])) ->
  length ja = length frs ->
  (forall h, nth_error order 0 = Some h -> nth_error ja h = Some (Matches [])) ->
  (forall i q p,
     nth_error order i = Some q -> nth_error order (S i) = Some p ->
     exists l u r,
       nth_error ja p = Some (Matches (l ++ (q, u) :: r)) /\
       len u = nth (S i) ks 0 /\
       (forall g v, In (g, v) r -> g <> q) /\
       (forall g v, In (g, v) (l ++ (q, u) :: r) ->
          exists i', i' <= i /\ nth_error order i' = Some g)) ->
  unquote_plus (concat (merge_chain frs order ks)) <> [] ->
  assemble unquote_plus ja (fragment_objects frs)
  = Ok (Some (unquote_plus (concat (merge_chain frs order ks)))).
Proof.
  intros Hne Hclean Hperm Hks Hk0 Hfit Hja Hhead Hcand Htext.
  assert (Hlo : length order = length frs)
    by exact (@perm_seq_length order (length frs) Hperm).
  assert (Hall : forall p, p < length frs ->
                   exists snap, nth_error ja p = Some (Matches snap)).
  { intros p Hp.
    destruct (@perm_seq_covers order (length frs) p Hperm Hp) as [[|i] Hi].
    - rewrite (Hhead p Hi). eauto.
    - destruct (nth_error order i) as [q|] eqn:Hq.
      + destruct (Hcand i q p Hq Hi) as (l & u & r & Hl & _). eauto.
      + apply nth_error_None in Hq.
        assert (S i < length order) by (apply nth_error_Some; congruence).
        lia. }
  assert (Hh : exists h, nth_error order 0 = Some h).
  { destruct order as [|h o]; [|cbn; eauto].
    destruct frs; [congruence|discriminate]. }
  destruct Hh as [h Hh].
  unfold assemble.
  destruct (@empty_entries_head ja h) as (x & rest & ->).
  { rewrite Hja. exact Hall. }
  { exact (Hhead h Hh). }
  cbn [bind]. unfold run_search.
  assert (Hlf : length (fragment_objects frs) = length frs)
    by (unfold fragment_objects; apply length_map).
  rewrite Hlf.
  destruct (@sorted_search_perm ja (length frs) Hall) as (search & -> & Hsearch).
  cbn [bind].
  destruct (@fresh_back_inv order ks search (length frs)) as [Hinv Hon].
  destruct (@stitch_backtrack unquote_plus (length frs) order ks search ja
              (fragment_objects frs)
              (unquote_plus (concat (merge_chain frs order ks)))
              Hperm Hsearch Hja Hhead Hcand) with (d := length ja) (index := 0)
              (st := fresh_state (length frs)) as [HA _].
  - intros st Hchain Hlen.
    exact (@stitch_attempt_chain frs order ks (stitchings st) (overlaps st)
             Hclean Hperm Hks Hk0 Hfit Hchain Hlen unquote_plus Hne).
  - exact Htext.
  - lia.
  - exact Hinv.
  - destruct (HA Hon) as [st' Hst']. rewrite Hst'. reflexivity.
Qed.

(** ** Splits of a source text *)

Lemma piece_length (T : list pystr) c :
  snd c <= length T -> length (piece T c) = snd c - fst c.
Proof.
  intros H. unfold piece. rewrite length_firstn, length_skipn. lia.
Qed.

Lemma skipn_piece (T : list pystr) a b j :
  skipn j (piece T (a, b)) = piece T (a + j, b).
Proof.
  unfold piece. cbn [fst snd].
  rewrite skipn_firstn_comm, skipn_skipn.
  replace (b - a - j) with (b - (a + j)) by lia.
  now replace (j + a) with (a + j) by lia.
Qed.

Lemma firstn_piece (T : list pystr) a b j :
  j <= b - a -> firstn j (piece T (a, b)) = piece T (a, a + j).
Proof.
  intros H. unfold piece. cbn [fst snd].
  rewrite firstn_firstn. replace (Init.Nat.min j (b - a)) with j by lia.
  now replace (a + j - a) with j by lia.
Qed.

Lemma piece_app (T : list pystr) a b c :
  a <= b -> b <= c -> piece T (a, b) ++ piece T (b, c) = piece T (a, c).
Proof.
  intros Hab Hbc.
  rewrite <- (firstn_skipn (b - a) (piece T (a, c))).
  rewrite firstn_piece, skipn_piece by lia.
  now replace (a + (b - a)) with b by lia.
Qed.

Lemma piece_all (T : list pystr) : piece T (0, length T) = T.
Proof.
  unfold piece. cbn [fst snd skipn]. rewrite Nat.sub_0_r. apply firstn_all.
Qed.

Lemma piece_overlap (T : list pystr) c c' :
  fst c < fst c' -> snd c <= snd c' -> fst c' + MIN_OVERLAP <= snd c ->
  snd c' <= length T ->
  overlaps_by (piece T c) (piece T c') (snd c - fst c').
Proof.
  destruct c as [a b], c' as [a' b']. cbn [fst snd]. intros Ha Hb Ho Hl.
  unfold overlaps_by. rewrite !piece_length by (cbn [snd]; lia). cbn [fst snd].
  repeat split; try (unfold MIN_OVERLAP in *; lia).
  rewrite skipn_piece, firstn_piece by lia.
  f_equal. f_equal; lia.
Qed.

Lemma adjacent_ok_nth cuts i c c' :
  adjacent_ok cuts = true ->
  nth_error cuts i = Some c -> nth_error cuts (S i) = Some c' ->
  fst c < fst c' /\ snd c <= snd c' /\ fst c' + MIN_OVERLAP <= snd c.
Proof.
  revert i. induction cuts as [|x cuts IH]; intros i H Hc Hc'.
  - destruct i; discriminate.
  - destruct cuts as [|y cuts]; [destruct i; discriminate|].
    cbn [adjacent_ok] in H.
    apply andb_prop in H as [H Htl]. apply andb_prop in H as [H H3].
    apply andb_prop in H as [H1 H2].
    destruct i as [|i].
    + cbn in Hc, Hc'. injection Hc as <-. injection Hc' as <-.
      apply Nat.ltb_lt in H1. apply Nat.leb_le in H2, H3. lia.
    + apply (IH i Htl); assumption.
Qed.

Lemma adjacent_mono cuts i j c c' :
  adjacent_ok cuts = true -> i < j ->
  nth_error cuts i = Some c -> nth_error cuts j = Some c' ->
  fst c < fst c' /\ snd c <= snd c'.
Proof.
  intros H Hij Hc. revert c'. induction Hij as [|j Hij IH]; intros c' Hc'.
  - destruct (@adjacent_ok_nth cuts i c c' H Hc Hc') as (? & ? & _). lia.
  - destruct (nth_error cuts j) as [d|] eqn:Hd.
    + destruct (IH d eq_refl) as [? ?].
      destruct (@adjacent_ok_nth cuts j d c' H Hd Hc') as (? & ? & _). lia.
    + apply nth_error_None in Hd.
      assert (S j < length cuts) by (apply nth_error_Some; congruence). lia.
Qed.

Lemma overlap_sizes_length cuts :
  cuts <> [] -> length (0 :: overlap_sizes cuts) = length cuts.
Proof.
  induction cuts as [|c cuts IH]; intros H; [congruence|].
  destruct cuts as [|c' cuts]; [reflexivity|].
  cbn [overlap_sizes length] in *. rewrite IH by discriminate. reflexivity.
Qed.

Lemma overlap_sizes_nth cuts i c c' :
  nth_error cuts i = Some c -> nth_error cuts (S i) = Some c' ->
  nth (S i) (0 :: overlap_sizes cuts) 0 = snd c - fst c'.
Proof.
  revert i. induction cuts as [|x cuts IH]; intros i Hc Hc'.
  - destruct i; discriminate.
  - destruct cuts as [|y cuts]; [destruct i; discriminate|].
    destruct i as [|i].
    + cbn in Hc, Hc'. injection Hc as <-. injection Hc' as <-. reflexivity.
    + cbn [overlap_sizes]. change (nth (S (S i)) (0 :: ?a :: ?l) 0)
        with (nth (S i) (0 :: l) 0).
      apply IH; assumption.
Qed.

Lemma is_split_spec T cuts :
  is_split T cuts = true ->
  (exists c rest, cuts = c :: rest /\ fst c = 0) /\
  snd (last cuts (0, 0)) = length T /\
  (forall c, In c cuts -> fst c + MIN_OVERLAP <= snd c /\ snd c <= length T) /\
  adjacent_ok cuts = true.
Proof.
  unfold is_split. intros H.
  apply andb_prop in H as [H H4]. apply andb_prop in H as [H H3].
  apply andb_prop in H as [H1 H2].
  split; [|split; [|split]].
  - destruct cuts as [|c rest]; [discriminate|].
    exists c, rest. split; [reflexivity|]. now apply Nat.eqb_eq.
  - now apply Nat.eqb_eq.
  - intros c Hc. apply (proj1 (forallb_forall _ _) H3) in Hc.
    apply andb_prop in Hc as [Ha Hb].
    apply Nat.leb_le in Ha, Hb. now split.
  - exact H4.
Qed.

Lemma tokens_eqb_eq a b : tokens_eqb a b = true <-> a = b.
Proof.
  unfold tokens_eqb.
  destruct (list_eq_dec (list_eq_dec ascii_dec) a b); split; congruence.
Qed.

Lemma overlaps_byb_spec G F k : overlaps_by G F k -> overlaps_byb G F k = true.
Proof.
  intros (H1 & H2 & H3 & H4). unfold overlaps_byb.
  rewrite (proj2 (Nat.leb_le _ _) H1), (proj2 (Nat.ltb_lt _ _) H2),
    (proj2 (Nat.leb_le _ _) H3), (proj2 (tokens_eqb_eq _ _) H4).
  reflexivity.
Qed.

Lemma no_unintended_spec T cuts cg cp k :
  no_unintended_overlap T cuts = true ->
  In cg cuts -> In cp cuts -> snd cp <= length T ->
  overlaps_by (piece T cg) (piece T cp) k ->
  k <= implied_overlap cg cp.
Proof.
  intros H Hg Hp Hl Ho. unfold no_unintended_overlap in H.
  apply (proj1 (forallb_forall _ _) H) in Hg.
  apply (proj1 (forallb_forall _ _) Hg) in Hp.
  assert (Hk : In k (seq 0 (S (length T)))).
  { apply in_seq. destruct Ho as (_ & _ & Hk & _).
    rewrite piece_length in Hk by exact Hl. lia. }
  apply (proj1 (forallb_forall _ _) Hp) in Hk.
  rewrite (overlaps_byb_spec Ho) in Hk. cbn [negb orb] in Hk.
  now apply Nat.leb_le.
Qed.

Lemma merge_chain_split T frs cuts :
  forall order b0 c,
    nth_error cuts 0 = Some c -> fst c <= b0 -> b0 <= snd c ->
    adjacent_ok cuts = true ->
    length order = length cuts ->
    (forall i p, nth_error order i = Some p ->
                 nth p frs [] = piece T (nth i cuts (0, 0))) ->
    snd c <= snd (last cuts (0, 0)) /\
    merge_chain frs order ((b0 - fst c) :: overlap_sizes cuts)
    = piece T (b0, snd (last cuts (0, 0))).
Proof.
  induction cuts as [|x cuts IH]; intros order b0 c Hc H1 H2 Hadj Hlen Hfr.
  - discriminate.
  - cbn in Hc. injection Hc as ->.
    destruct order as [|p order]; [discriminate|].
    assert (Hp : nth p frs [] = piece T c) by exact (Hfr 0 p eq_refl).
    cbn [merge_chain]. rewrite Hp. destruct c as [a b]. cbn [fst snd] in *.
    rewrite skipn_piece. replace (a + (b0 - a)) with b0 by lia.
    destruct cuts as [|c' cuts].
    + destruct order; [|discriminate]. cbn [overlap_sizes merge_chain last snd].
      split; [lia|]. apply app_nil_r.
    + destruct (@adjacent_ok_nth ((a, b) :: c' :: cuts) 0 (a, b) c' Hadj
                  eq_refl eq_refl) as (Ha & Hb & Ho).
      cbn [fst snd] in Ha, Hb, Ho.
      cbn [adjacent_ok] in Hadj. apply andb_prop in Hadj as [_ Hadj].
      destruct (IH order b c' eq_refl) as [Hl Hm].
      * unfold MIN_OVERLAP in Ho. lia.
      * lia.
      * exact Hadj.
      * now injection Hlen.
      * intros i q Hq. exact (Hfr (S i) q Hq).
      * change (last ((a, b) :: c' :: cuts) (0, 0)) with (last (c' :: cuts) (0, 0)).
        split; [lia|].
        change (overlap_sizes ((a, b) :: c' :: cuts))
          with ((b - fst c') :: overlap_sizes (c' :: cuts)).
        rewrite Hm. apply piece_app; lia.
Qed.

Lemma lstrip_idem s : lstrip (lstrip s) = lstrip s.
Proof.
  induction s as [|c s IH]; [reflexivity|].
  cbn [lstrip]. destruct (isspace c) eqn:E; [exact IH|].
  cbn [lstrip]. now rewrite E.
Qed.

Lemma rstrip_idem s : rstrip (rstrip s) = rstrip s.
Proof. unfold rstrip. now rewrite rev_involutive, lstrip_idem. Qed.

Lemma build_index_rstrip file_object :
  forall i fragments t,
    build_index file_object i fragments t
    = build_index (map rstrip file_object) i fragments t.
Proof.
  induction file_object as [|frag tl IH]; intros i fragments t; [reflexivity|].
  cbn [build_index map]. rewrite rstrip_idem.
  destruct (py_index _ i); [|reflexivity]. cbn [bind].
  destruct (insert _ _ _); [|reflexivity]. cbn [bind]. apply IH.
Qed.

Lemma reconstruct_rstrip unquote_plus file_object :
  reconstruct unquote_plus file_object
  = reconstruct unquote_plus (map rstrip file_object).
Proof.
  unfold reconstruct, candidate_lists. now rewrite build_index_rstrip.
Qed.

Lemma piece_clean T c :
  Forall (fun x => clean_token x = true) T ->
  Forall (fun x => clean_token x = true) (piece T c).
Proof.
  intros H. unfold piece. apply Forall_forall. intros x Hx.
  apply in_firstn in Hx. apply In_nth_error in Hx as [j Hj].
  rewrite nth_error_skipn in Hj. apply nth_error_In in Hj.
  exact (proj1 (Forall_forall _ _) H x Hj).
Qed.

Lemma ascending_before l x r :
  ascending (l ++ x :: r) ->
  Forall (fun y => overlap_of y <= overlap_of x) l.
Proof.
  unfold ascending. induction l as [|a l IH]; intros H; [constructor|].
  cbn [app] in H. apply StronglySorted_inv in H as [Hs Ha].
  constructor; [|exact (IH Hs)].
  apply Forall_app in Ha as [_ Ha]. now inversion Ha.
Qed.

Lemma last_entry_of (snap : list (nat * URLString)) q u0 :
  In (q, u0) snap ->
  exists l u r, snap = l ++ (q, u) :: r /\ forall g v, In (g, v) r -> g <> q.
Proof.
  revert u0. induction snap as [|[g0 v0] snap IH]; intros u0 Hin; [destruct Hin|].
  destruct (in_dec Nat.eq_dec q (map fst snap)) as [Hq|Hq].
  - apply in_map_iff in Hq as ([q' u1] & Hf & Hin1). cbn in Hf. subst q'.
    destruct (IH u1 Hin1) as (l & u & r & -> & Hr).
    exists ((g0, v0) :: l), u, r. split; [reflexivity|exact Hr].
  - destruct Hin as [Heq|Hin].
    + injection Heq as -> ->. exists [], u0, snap. split; [reflexivity|].
      intros g v Hgv ->. apply Hq. now apply (in_map fst) in Hgv.
    + exfalso. apply Hq. now apply (in_map fst) in Hin.
Qed.

(** ** The round trip *)

Section Split.

Variables (T : list pystr) (cuts : list (nat * nat)).
Variables (order : list nat) (frs : list (list pystr)).

Hypothesis Hsplit : is_split T cuts = true.
Hypothesis Hno : no_unintended_overlap T cuts = true.
Hypothesis Hperm : Permutation order (seq 0 (length cuts)).
Hypothesis Hlen : length frs = length cuts.
Hypothesis Hfrs : forall i p, nth_error order i = Some p ->
  nth_error frs p = Some (piece T (nth i cuts (0, 0))).

Lemma cut_at i p :
  nth_error order i = Some p ->
  exists c, nth_error cuts i = Some c /\ nth_error frs p = Some (piece T c) /\
            fst c + MIN_OVERLAP <= snd c /\ snd c <= length T.
Proof.
  intros Hi.
  assert (Hlt : i < length cuts).
  { rewrite <- (@perm_seq_length order (length cuts) Hperm).
    apply nth_error_Some. congruence. }
  exists (nth i cuts (0, 0)). split; [now apply nth_error_nth'|].
  split; [exact (Hfrs _ Hi)|].
  apply (proj1 (proj2 (proj2 (is_split_spec _ _ Hsplit)))).
  now apply nth_In.
Qed.

Lemma fragment_cut p F :
  nth_error frs p = Some F ->
  exists i c, nth_error order i = Some p /\ nth_error cuts i = Some c /\
              F = piece T c /\ snd c <= length T.
Proof.
  intros Hp.
  assert (Hlt : p < length cuts).
  { rewrite <- Hlen. apply nth_error_Some. congruence. }
  destruct (@perm_seq_covers order (length cuts) p Hperm Hlt) as [i Hi].
  destruct (@cut_at i p Hi) as (c & Hc & Hf & _ & Hl).
  exists i, c. repeat split; try assumption. congruence.
Qed.

Variable ja : list cell.
Hypothesis Hja : forall f F, nth_error frs f = Some F ->
  exists snap, nth_error ja f = Some (Matches snap) /\ ascending snap /\
               lists_overlaps frs F snap.

(** The first fragment of the source has no candidate. *)
Lemma split_head h :
  nth_error order 0 = Some h -> nth_error ja h = Some (Matches []).
Proof.
  intros Hh. destruct (@cut_at 0 h Hh) as (c & Hc & Hf & _ & Hl).
  destruct (is_split_spec _ _ Hsplit) as ((c0 & rest & Hcuts & Hc0) & _).
  assert (c = c0) by (rewrite Hcuts in Hc; cbn in Hc; congruence). subst c0.
  destruct (Hja _ Hf) as (snap & Hs & _ & Hsound & _).
  destruct snap as [|[g u] tl]; [exact Hs|]. exfalso.
  destruct (Hsound g u (or_introl eq_refl)) as (G & HG & Ho).
  destruct (@fragment_cut g G HG) as (i' & cg & _ & Hcg & -> & _).
  assert (Hk : len u <= implied_overlap cg c).
  { apply (@no_unintended_spec T cuts cg c (len u) Hno).
    - exact (nth_error_In _ _ Hcg).
    - exact (nth_error_In _ _ Hc).
    - exact Hl.
    - exact Ho. }
  unfold implied_overlap in Hk. rewrite Hc0 in Hk. cbn in Hk.
  destruct Ho as (Hmin & _). unfold MIN_OVERLAP in Hmin. lia.
Qed.

(** The candidates of every other fragment come from fragments that start
    before it in the source, and the last of those of the fragment just
    before it has the overlap that the split gives them. *)
Lemma split_candidates i q p :
  nth_error order i = Some q -> nth_error order (S i) = Some p ->
  exists l u r,
    nth_error ja p = Some (Matches (l ++ (q, u) :: r)) /\
    len u = nth (S i) (0 :: overlap_sizes cuts) 0 /\
    (forall g v, In (g, v) r -> g <> q) /\
    (forall g v, In (g, v) (l ++ (q, u) :: r) ->
       exists i', i' <= i /\ nth_error order i' = Some g).
Proof.
  intros Hq Hp.
  destruct (@cut_at i q Hq) as (c & Hc & Hfq & _ & Hlc).
  destruct (@cut_at (S i) p Hp) as (c' & Hc' & Hfp & _ & Hlc').
  destruct (is_split_spec _ _ Hsplit) as (_ & _ & _ & Hadj).
  destruct (@adjacent_ok_nth cuts i c c' Hadj Hc Hc') as (Ha & Hb & Hmin).
  rewrite (@overlap_sizes_nth cuts i c c' Hc Hc').
  destruct (Hja _ Hfp) as (snap & Hs & Hasc & Hsound & Hcomplete).
  destruct (Hcomplete q (piece T c) (snd c - fst c') Hfq
              (@piece_overlap T c c' Ha Hb Hmin Hlc')) as (u0 & Hin & Hu0).
  destruct (last_entry_of _ _ _ Hin) as (l & u & r & -> & Hr).
  assert (Hbound : forall g v, In (g, v) (l ++ (q, u) :: r) ->
            exists i' cg, nth_error order i' = Some g /\
              nth_error cuts i' = Some cg /\ len v <= implied_overlap cg c' /\
              MIN_OVERLAP <= len v).
  { intros g v Hgv. destruct (Hsound g v Hgv) as (G & HG & Ho).
    destruct (@fragment_cut g G HG) as (i' & cg & Hg & Hcg & -> & _).
    exists i', cg. split; [exact Hg|]. split; [exact Hcg|]. split.
    - apply (@no_unintended_spec T cuts cg c' (len v) Hno).
      + exact (nth_error_In _ _ Hcg).
      + exact (nth_error_In _ _ Hc').
      + exact Hlc'.
      + exact Ho.
    - exact (proj1 Ho). }
  exists l, u, r. split; [exact Hs|]. split; [|split; [exact Hr|]].
  - destruct (Hbound q u) as (i' & cg & Hg & Hcg & Hk & _).
    { apply in_app_iff. right. now left. }
    assert (i' = i)
      by exact (@nth_error_nodup _ order i' i q (@perm_seq_nodup order _ Hperm) Hg Hq).
    subst i'. assert (cg = c) by congruence. subst cg.
    unfold implied_overlap in Hk.
    destruct (Nat.ltb_spec (fst c) (fst c')) as [_|Hnlt]; [|lia].
    assert (Hge : snd c - fst c' <= len u).
    { apply in_app_iff in Hin as [Hin|[Hin|Hin]].
      - pose proof (proj1 (Forall_forall _ _)
                      (@ascending_before l (q, u) r Hasc) _ Hin) as Hle.
        unfold overlap_of in Hle. cbn [snd] in Hle. lia.
      - injection Hin as <-. lia.
      - destruct (Hr q u0 Hin eq_refl). }
    lia.
  - intros g v Hgv. destruct (Hbound g v Hgv) as (i' & cg & Hg & Hcg & Hk & Hmin').
    exists i'. split; [|exact Hg].
    unfold implied_overlap in Hk. unfold MIN_OVERLAP in Hmin'.
    destruct (Nat.ltb_spec (fst cg) (fst c')) as [Hlt|Hnlt]; [|lia].
    destruct (Nat.le_gt_cases i' i) as [Hle|Hgt]; [exact Hle|]. exfalso.
    destruct (Nat.eq_dec i' (S i)) as [->|Hne].
    + assert (cg = c') by congruence. subst cg. lia.
    + assert (Hlt' : S i < i') by lia.
      destruct (@adjacent_mono cuts (S i) i' c' cg Hadj Hlt' Hc' Hcg). lia.
Qed.

End Split.

Lemma round_trip_tokens unquote_plus T cuts order frs :
  Forall (fun x => clean_token x = true) T ->
  is_split T cuts = true ->
  no_unintended_overlap T cuts = true ->
  Permutation order (seq 0 (length cuts)) ->
  length frs = length cuts ->
  (forall i p, nth_error order i = Some p ->
               nth_error frs p = Some (piece T (nth i cuts (0, 0)))) ->
  Forall (fun F => rstrip (concat F) = concat F) frs ->
  unquote_plus (concat T) <> [] ->
  reconstruct unquote_plus (map (@concat ascii) frs)
  = Ok (Some (unquote_plus (concat T))).
Proof.
  intros HT Hsplit Hno Hperm Hlen Hfrs Hstrip Htext.
  pose proof (@fragment_cut T cuts order frs Hsplit Hperm Hlen Hfrs) as Hcut.
  pose proof (@cut_at T cuts order frs Hsplit Hperm Hfrs) as Hat.
  destruct (is_split_spec _ _ Hsplit)
    as ((c0 & rest & Hcuts & Hc0) & Hlast & Heach & Hadj).
  assert (Hclean : Forall (Forall (fun x => clean_token x = true)) frs).
  { apply Forall_forall. intros F HF. apply In_nth_error in HF as [p Hp].
    destruct (Hcut p F Hp) as (_ & c & _ & _ & -> & _).
    now apply piece_clean. }
  assert (Hmin : Forall (fun F => MIN_OVERLAP <= length F) frs).
  { apply Forall_forall. intros F HF. apply In_nth_error in HF as [p Hp].
    destruct (Hcut p F Hp) as (i & c & Hi & Hc & -> & _).
    destruct (Hat i p Hi) as (c' & Hc' & Hf & H1 & H2).
    assert (c' = c) by congruence. subst c'.
    rewrite piece_length by exact H2. lia. }
  destruct (candidate_lists_spec Hclean Hstrip Hmin) as (ja & Hcl & Hlja & Hja).
  unfold reconstruct. rewrite Hcl. cbn [bind].
  assert (Hnth : forall i p, nth_error order i = Some p ->
                   nth p frs [] = piece T (nth i cuts (0, 0))).
  { intros i p Hi. apply nth_error_nth. exact (Hfrs i p Hi). }
  assert (Hks : length (0 :: overlap_sizes cuts) = length order).
  { rewrite overlap_sizes_length by (rewrite Hcuts; discriminate).
    symmetry. exact (@perm_seq_length order (length cuts) Hperm). }
  assert (Hmerge : merge_chain frs order (0 :: overlap_sizes cuts) = T).
  { destruct (@merge_chain_split T frs cuts order 0 c0) as [_ Hm].
    - now rewrite Hcuts.
    - lia.
    - lia.
    - exact Hadj.
    - exact (@perm_seq_length order (length cuts) Hperm).
    - exact Hnth.
    - rewrite Hc0 in Hm. cbn [Nat.sub] in Hm. rewrite Hm, Hlast.
      apply piece_all. }
  rewrite <- Hmerge at 1.
  rewrite <- Hmerge in Htext.
  rewrite <- Hlen in Hperm.
  apply assemble_backtrack.
  - intros ->. rewrite Hcuts in Hlen. discriminate.
  - exact Hclean.
  - exact Hperm.
  - exact Hks.
  - reflexivity.
  - intros [|i] p Hi; [cbn; lia|].
    rewrite Hlen in Hperm.
    destruct (Hat (S i) p Hi) as (c' & Hc' & Hf & H1 & H2).
    destruct (nth_error order i) as [q|] eqn:Hq.
    + destruct (Hat i q Hq) as (c & Hc & _).
      rewrite (@overlap_sizes_nth cuts i c c' Hc Hc').
      rewrite (nth_error_nth _ _ _ Hf), piece_length by exact H2.
      destruct (@adjacent_ok_nth cuts i c c' Hadj Hc Hc') as (? & ? & ?). lia.
    + apply nth_error_None in Hq.
      assert (S i < length order) by (apply nth_error_Some; congruence). lia.
  - exact Hlja.
  - rewrite Hlen in Hperm.
    exact (@split_head T cuts order frs Hsplit Hno Hperm Hlen Hfrs ja Hja).
  - rewrite Hlen in Hperm.
    exact (@split_candidates T cuts order frs Hsplit Hno Hperm Hlen Hfrs ja Hja).
  - exact Htext.
Qed.

(** The places of the fragments of a split in an arrangement of them. *)
Lemma inverse_arrangement arr n :
  Permutation arr (seq 0 n) ->
  exists order, Permutation order (seq 0 n) /\
    forall i p, nth_error order i = Some p -> nth_error arr p = Some i.
Proof.
  intros Hperm.
  assert (Hk : forall k, k <= n ->
            exists o, length o = k /\
              forall i p, nth_error o i = Some p -> nth_error arr p = Some i).
  { induction k as [|k IH]; intros Hle.
    - exists []. split; [reflexivity|]. intros [|i] p H; discriminate.
    - destruct IH as (o & Hlen & Ho); [lia|].
      destruct (@perm_seq_covers arr n k Hperm) as [p Hp]; [lia|].
      exists (o ++ [p]). split; [rewrite length_app; cbn; lia|].
      intros i p' Hi.
      destruct (Nat.lt_ge_cases i (length o)) as [Hlt|Hge].
      + rewrite nth_error_app1 in Hi by exact Hlt. exact (Ho i p' Hi).
      + rewrite nth_error_app2 in Hi by exact Hge.
        destruct (i - length o) as [|d] eqn:Hd.
        * cbn in Hi. injection Hi as <-. replace i with k by lia. exact Hp.
        * destruct d; discriminate. }
  destruct (Hk n (Nat.le_refl n)) as (o & Hlen & Ho).
  exists o. split; [|exact Ho].
  apply NoDup_Permutation_bis.
  - apply NoDup_nth_error. intros i j Hi Hij.
    destruct (nth_error o i) as [p|] eqn:Hp.
    + pose proof (Ho i p Hp). symmetry in Hij. pose proof (Ho j p Hij).
      congruence.
    + apply nth_error_None in Hp. lia.
  - rewrite length_seq. lia.
  - intros x Hx. apply In_nth_error in Hx as [i Hi].
    apply Ho in Hi. apply in_seq.
    assert (x < length arr) by (apply nth_error_Some; congruence).
    rewrite (@perm_seq_length arr n Hperm) in H. lia.
Qed.

(** C1, amended: let the source text be a list [T] of tokens, each a
    character other than [%] and [$] or a [%] with the two characters after
    it, and let [cuts] split it into fragments [T[a:b]], listed in the order
    of the source, such that the first starts at the first token, the last
    ends at the last token, every fragment has at least [MIN_OVERLAP]
    tokens, every fragment but the first starts after the start of the one
    before it, ends no earlier than it and shares at least [MIN_OVERLAP]
    tokens with it, and no end of a fragment agrees with the start of a
    fragment on more tokens than their places in [T] imply.  Let every line
    of the file be one of the fragments followed by white space only, each
    fragment on one line, in any arrangement; since a line is read through
    [rstrip], this asks that no fragment itself ends in white space (see
    [fragment_ending_in_white_space_not_reconstructed]).  Then
    [reconstruct] returns the decoded text of [T], provided that this text
    is not empty. *)
Theorem round_trip unquote_plus (T : list pystr) (cuts : list (nat * nat))
    (arrangement : list nat) (file_object : list pystr) :
  forallb clean_token T = true ->
  is_split T cuts = true ->
  no_unintended_overlap T cuts = true ->
  Permutation arrangement (seq 0 (length cuts)) ->
  map rstrip file_object
  = map (fun i => concat (piece T (nth i cuts (0, 0)))) arrangement ->
  unquote_plus (concat T) <> [] ->
  reconstruct unquote_plus file_object = Ok (Some (unquote_plus (concat T))).
Proof.
  intros HT Hsplit Hno Hperm Hlines Htext.
  destruct (@inverse_arrangement arrangement (length cuts) Hperm)
    as (order & Horder & Hinv).
  rewrite reconstruct_rstrip, Hlines.
  set (frs := map (fun i => piece T (nth i cuts (0, 0))) arrangement).
  assert (Hmap : map (fun i => concat (piece T (nth i cuts (0, 0)))) arrangement
                 = map (@concat ascii) frs).
  { unfold frs. now rewrite map_map. }
  rewrite Hmap in *.
  apply (@round_trip_tokens unquote_plus T cuts order frs).
  - apply Forall_forall. exact (proj1 (forallb_forall _ _) HT).
  - exact Hsplit.
  - exact Hno.
  - exact Horder.
  - unfold frs. rewrite length_map.
    exact (@perm_seq_length arrangement (length cuts) Hperm).
  - intros i p Hi. unfold frs. rewrite nth_error_map, (Hinv i p Hi). reflexivity.
  - apply Forall_forall. intros F HF.
    apply (in_map (@concat ascii)) in HF. rewrite <- Hlines in HF.
    apply in_map_iff in HF as (line & <- & _). apply rstrip_idem.
  - exact Htext.
Qed.

(** The hypotheses of [round_trip] hold for the text ["AB%41CDEFGHI"] of
    ten tokens split at tokens 0 to 6, 2 to 6 and 3 to 10: the second
    fragment ends where the first ends, so the third has two candidates
    with the same overlap.  The last fragment is on the first line, and a
    line feed follows the first two lines; the result is the decoded
    text. *)
Lemma round_trip_witness :
  reconstruct unquote_plus_ascii
    [lit "CDEFGHI" ++ [ascii_of_nat 10]; lit "AB%41CDE" ++ [ascii_of_nat 10];
     lit "%41CDE"]
  = Ok (Some (lit "ABACDEFGHI")).
Proof.
  apply (@round_trip unquote_plus_ascii (toks (lit "AB%41CDEFGHI"))
           [(0, 6); (2, 6); (3, 10)] [2; 0; 1]).
  - vm_compute. reflexivity.
  - vm_compute. reflexivity.
  - vm_compute. reflexivity.
  - apply perm_trans with [0; 2; 1]; [apply perm_swap|].
    apply perm_skip, perm_swap.
  - vm_compute. reflexivity.
  - vm_compute. discriminate.
Defined.

(** * Further properties of the code *)

(** ** url_string.py: the boundary table *)

Lemma bounds_lower a l x : In x (bounds a l) -> a <= x.
Proof.
  revert a. induction l as [|t l IH]; intros a H; cbn [bounds] in H.
  - destruct H as [<-|[]]. lia.
  - destruct H as [<-|H]; [lia|]. apply IH in H. lia.
Qed.

Lemma bounds_sorted a l :
  Forall (fun x : pystr => x <> []) l -> StronglySorted lt (bounds a l).
Proof.
  intros H. revert a. induction H as [|t l Ht _ IH]; intros a; cbn [bounds].
  - repeat constructor.
  - constructor; [apply IH|].
    apply Forall_forall. intros x Hx. apply bounds_lower in Hx.
    destruct t; [congruence|]. cbn [length] in Hx. lia.
Qed.

Lemma bounds_last a l : last (bounds a l) 0 = a + length (concat l).
Proof.
  revert a. induction l as [|t l IH]; intros a.
  - cbn. lia.
  - cbn [bounds concat]. rewrite length_app.
    replace (last (a :: bounds (a + length t) l) 0)
      with (last (bounds (a + length t) l) 0).
    + rewrite IH. lia.
    + destruct l; reflexivity.
Qed.

Lemma nonempty_tokens_count (l : list pystr) :
  Forall (fun x => x <> []) l -> length l <= length (concat l).
Proof.
  induction 1 as [|t l Ht _ IH]; [apply Nat.le_refl|].
  cbn [concat length]. rewrite length_app.
  destruct t; [congruence|]. cbn [length]. lia.
Qed.

(** X1: the table that [update_true_positions] builds starts at 0, ends
    at [len(self.string)] and is strictly increasing, for every raw text;
    so no token is empty and there are at most as many tokens as
    characters. *)
Theorem true_positions_increasing (s : pystr) :
  hd_error (true_positions (URLString_init s)) = Some 0 /\
  last (true_positions (URLString_init s)) 0 = length s /\
  StronglySorted lt (true_positions (URLString_init s)) /\
  len (URLString_init s) <= length s.
Proof.
  rewrite len_init, true_positions_bounds.
  split; [destruct (toks s); reflexivity|].
  split; [rewrite bounds_last, concat_toks; reflexivity|].
  split; [apply bounds_sorted, toks_nonempty|].
  rewrite <- (concat_toks s) at 2.
  apply nonempty_tokens_count, toks_nonempty.
Qed.

(** ** url_string.py: indexing and slicing *)

Lemma toks_token s x : In x (toks s) -> toks x = [x].
Proof.
  revert x. pattern s. apply toks_induction; clear s.
  - intros x [].
  - intros c a b tl Hp IH x. cbn [toks]. rewrite Hp. intros [<-|Hx].
    + cbn [toks]. now rewrite Hp.
    + now apply IH.
  - intros c tl Hp Hlen x Hx.
    assert (Hs : toks (c :: tl) = [c :: tl]).
    { cbn [toks]. rewrite Hp.
      destruct tl as [|a [|b tl]]; cbn [length] in Hlen; try lia; reflexivity. }
    rewrite Hs in Hx. destruct Hx as [<-|[]]. exact Hs.
  - intros c tl Hp Ht x Hx.
    assert (Hs : toks (c :: tl) = [c :: tl]) by (cbn [toks]; now rewrite Hp, Ht).
    rewrite Hs in Hx. destruct Hx as [<-|[]]. exact Hs.
  - intros c tl Hp Ht IH x. cbn [toks]. rewrite Hp, Ht. intros [<-|Hx].
    + cbn [toks]. now rewrite Hp, Ht.
    + now apply IH.
Qed.

(** X2: [u[k]] for [0 <= k < len(u)] is a [URLString] of exactly one
    token, not empty, which is its own item 0; [u[k]] for [k >= len(u)]
    raises [IndexError] (a text of no token has no item at all). *)
Theorem getitem_single_token_or_index_error (s : pystr) :
  (forall k, k < len (URLString_init s) ->
     exists t, getitem (URLString_init s) k = Ok t /\
               len t = 1 /\ string t <> [] /\ getitem t 0 = Ok t) /\
  (forall k, len (URLString_init s) <= k ->
     getitem (URLString_init s) k = Raise IndexError).
Proof.
  rewrite len_init. split.
  - intros k Hk. exists (URLString_init (nth k (toks s) [])).
    assert (Hin : In (nth k (toks s) []) (toks s)) by now apply nth_In.
    pose proof (toks_token _ _ Hin) as Hone.
    split; [now apply getitem_init|].
    split; [rewrite len_init, Hone; reflexivity|].
    split.
    + cbn [string URLString_init].
      exact (proj1 (Forall_forall _ _) (toks_nonempty s) _ Hin).
    + rewrite getitem_init by (rewrite Hone; cbn; lia).
      now rewrite Hone.
  - intros k Hk. now apply getitem_init_out.
Qed.

(** X3: for [0 < k <= len(u)] the slices [u[:k]] and [u[k:]] cut [u] at
    its [k]-th token boundary: both succeed, they have [k] and
    [len(u) - k] tokens, the tokens of [u] are those of [u[:k]] followed by
    those of [u[k:]], and so are the raw texts. *)
Theorem slices_split_at_token_boundary (s : pystr) (k : nat) :
  0 < k <= len (URLString_init s) ->
  exists a b,
    getslice (URLString_init s) None (Some k) = Ok a /\
    getslice (URLString_init s) (Some k) None = Ok b /\
    len a = k /\ len b = len (URLString_init s) - k /\
    tokens a ++ tokens b = tokens (URLString_init s) /\
    string a ++ string b = s.
Proof.
  rewrite len_init. intros Hk.
  exists (URLString_init (concat (firstn k (toks s)))),
         (URLString_init (concat (skipn k (toks s)))).
  split; [now apply getslice_upto|].
  split; [apply getslice_from; lia|].
  rewrite !len_init, !tokens_toks, toks_firstn, toks_skipn.
  split; [rewrite length_firstn; lia|].
  split; [now rewrite length_skipn|].
  split; [apply firstn_skipn|].
  cbn [string URLString_init]. rewrite <- concat_app, firstn_skipn.
  apply concat_toks.
Qed.

(** The hypothesis of [slices_split_at_token_boundary] holds for the text
    ["A%41BC"] of four tokens cut after its second token. *)
Lemma slices_split_at_token_boundary_witness :
  exists a b,
    getslice (URLString_init (lit "A%41BC")) None (Some 2) = Ok a /\
    getslice (URLString_init (lit "A%41BC")) (Some 2) None = Ok b /\
    len a = 2 /\ len b = len (URLString_init (lit "A%41BC")) - 2 /\
    tokens a ++ tokens b = tokens (URLString_init (lit "A%41BC")) /\
    string a ++ string b = lit "A%41BC".
Proof.
  apply (@slices_split_at_token_boundary (lit "A%41BC") 2).
  vm_compute. split; repeat constructor.
Defined.

(** X4: the edge cases of slicing.  A bound of 0 is read as no bound
    ([if key.stop]), so [u[:0]] is all of [u] and not the empty text, as are
    [u[0:]] and [u[0:0]]; [u[len(u):]] is the empty text; and a bound
    beyond [len(u)] raises [IndexError], where a [str] would clamp it. *)
Theorem slice_edge_cases (s : pystr) :
  getslice (URLString_init s) None (Some 0) = Ok (URLString_init s) /\
  getslice (URLString_init s) (Some 0) None = Ok (URLString_init s) /\
  getslice (URLString_init s) (Some 0) (Some 0) = Ok (URLString_init s) /\
  getslice (URLString_init s) (Some (len (URLString_init s))) None
  = Ok (URLString_init []) /\
  (forall k, len (URLString_init s) < k ->
     getslice (URLString_init s) (Some k) None = Raise IndexError /\
     getslice (URLString_init s) None (Some k) = Raise IndexError).
Proof.
  rewrite len_init.
  split; [reflexivity|]. split; [reflexivity|]. split; [reflexivity|].
  split.
  - rewrite getslice_from by apply Nat.le_refl. now rewrite skipn_all.
  - intros k Hk. split; [now apply getslice_from_out|].
    unfold getslice, slice_bound. destruct k as [|k]; [lia|]. cbn [bind].
    rewrite true_positions_bounds. unfold py_index.
    rewrite nth_error_bounds_none by lia. reflexivity.
Qed.

(** ** url_string.py: the terminator, [+] and [join] *)

Lemma forallb_clean l :
  forallb clean_token l = true -> Forall (fun x => clean_token x = true) l.
Proof.
  intros H. apply Forall_forall. exact (proj1 (forallb_forall _ _) H).
Qed.

(** X5: the scan stops at a [TERMINATOR] that starts a token.  After
    tokens [l], each a character other than [%] and [$] or a [%] with the
    two characters after it, a [$] and all that follows it, whatever it is,
    form the single last token. *)
Theorem terminator_ends_tokenization (l : list pystr) (r : pystr) :
  forallb clean_token l = true ->
  tokens (URLString_init (concat l ++ TERMINATOR :: r)) = l ++ [TERMINATOR :: r] /\
  len (URLString_init (concat l ++ TERMINATOR :: r)) = length l + 1 /\
  getitem (URLString_init (concat l ++ TERMINATOR :: r)) (length l)
  = Ok (URLString_init (TERMINATOR :: r)).
Proof.
  intros Hl. apply forallb_clean in Hl.
  assert (Ht : toks (concat l ++ TERMINATOR :: r) = l ++ [TERMINATOR :: r])
    by (apply toks_terminated; [exact Hl|reflexivity]).
  rewrite tokens_toks, len_init, Ht.
  split; [reflexivity|]. split; [rewrite length_app; reflexivity|].
  rewrite getitem_init by (rewrite Ht, length_app; cbn; lia).
  rewrite Ht, app_nth2, Nat.sub_diag by lia. reflexivity.
Qed.

(** The hypothesis of [terminator_ends_tokenization] holds for the tokens
    of ["A%41"] followed by ["$12%4$"]. *)
Lemma terminator_ends_tokenization_witness :
  tokens (URLString_init (lit "A%41$12%4$")) = [lit "A"; lit "%41"; lit "$12%4$"] /\
  len (URLString_init (lit "A%41$12%4$")) = 3 /\
  getitem (URLString_init (lit "A%41$12%4$")) 2 = Ok (URLString_init (lit "$12%4$")).
Proof.
  apply (@terminator_ends_tokenization [lit "A"; lit "%41"] (lit "12%4$")).
  vm_compute. reflexivity.
Defined.

(** X6: [+] composes token by token when the left operand is made of
    whole tokens: if every token of [a] is a character other than [%] and
    [$] or a [%] with two characters, the tokens of [a + b] are those of [a]
    followed by those of [b], for a [URLString] and for a [str] operand. *)
Theorem add_appends_tokens (sa sb : pystr) :
  forallb clean_token (tokens (URLString_init sa)) = true ->
  tokens (URLString_add (URLString_init sa) (OfURL (URLString_init sb)))
  = tokens (URLString_init sa) ++ tokens (URLString_init sb) /\
  tokens (URLString_add (URLString_init sa) (OfStr sb))
  = tokens (URLString_init sa) ++ tokens (URLString_init sb) /\
  len (URLString_add (URLString_init sa) (OfStr sb))
  = len (URLString_init sa) + len (URLString_init sb).
Proof.
  rewrite !tokens_toks. intros Ha. apply forallb_clean in Ha.
  unfold URLString_add. cbn [string URLString_init].
  rewrite !tokens_toks, !len_init.
  assert (H : toks (sa ++ sb) = toks sa ++ toks sb).
  { rewrite <- (concat_toks sa) at 1. now apply toks_concat_clean. }
  rewrite H. split; [reflexivity|]. split; [reflexivity|]. apply length_app.
Qed.

(** The hypothesis of [add_appends_tokens] holds for ["A%41"] and ["%42C"]. *)
Lemma add_appends_tokens_witness :
  tokens (URLString_add (URLString_init (lit "A%41")) (OfURL (URLString_init (lit "%42C"))))
  = tokens (URLString_init (lit "A%41")) ++ tokens (URLString_init (lit "%42C")) /\
  tokens (URLString_add (URLString_init (lit "A%41")) (OfStr (lit "%42C")))
  = tokens (URLString_init (lit "A%41")) ++ tokens (URLString_init (lit "%42C")) /\
  len (URLString_add (URLString_init (lit "A%41")) (OfStr (lit "%42C")))
  = len (URLString_init (lit "A%41")) + len (URLString_init (lit "%42C")).
Proof.
  apply (@add_appends_tokens (lit "A%41") (lit "%42C")).
  vm_compute. reflexivity.
Defined.

(** X7: the overlap of [join] at and beyond the end of its argument.  With
    a [URLString] argument [t], an overlap of [len(t)] appends nothing and
    an overlap beyond [len(t)] raises [IndexError]; with a [str] argument
    the overlap counts characters, not tokens, and an overlap at or beyond
    the end appends nothing instead of raising. *)
Theorem join_overlap_at_and_beyond_the_end (sa st : pystr) (k : nat) :
  join (URLString_init sa) (URLString_init st) (len (URLString_init st))
  = Ok (URLString_init sa) /\
  (len (URLString_init st) < k ->
   join (URLString_init sa) (URLString_init st) k = Raise IndexError) /\
  string (join_str (URLString_init sa) st k) = sa ++ skipn k st /\
  (length st <= k -> join_str (URLString_init sa) st k = URLString_init sa).
Proof.
  rewrite len_init. split; [|split; [|split]].
  - unfold join. rewrite getslice_from by apply Nat.le_refl.
    rewrite skipn_all. cbn [bind concat string URLString_init].
    now rewrite app_nil_r.
  - intros Hk. unfold join. now rewrite getslice_from_out.
  - reflexivity.
  - intros Hk. unfold join_str, py_slice. cbn [string URLString_init].
    rewrite skipn_all2 by exact Hk. now rewrite app_nil_r.
Qed.

(** ** url_suffix_tree.py *)

Lemma insert_spec (t : URLSuffixTree) (frag : nat)
    (G : list pystr) :
  0 < min_suffix_len t ->
  forallb clean_token G = true ->
  trie (root t) -> label (root t) = [] ->
  (forall e j, In e (entries (root t)) ->
               fst e <> skipn j G ++ [terminator_token frag]) ->
  exists t',
    insert t (URLString_init (concat G)) (frag, 0) = Ok t' /\
    min_suffix_len t' = min_suffix_len t /\
    trie (root t') /\ label (root t') = [] /\
    forall e, In e (entries (root t')) <->
              In e (entries (root t)) \/
              exists j, j + min_suffix_len t <= length G /\
                        e = (skipn j G ++ [terminator_token frag], (frag, j)).
Proof.
  intros Hm HG Htrie Hlabel Hfresh. apply forallb_clean in HG.
  destruct (@insert_rec_spec (min_suffix_len t) frag Hm (S (length G)) G 0
              (root t) HG Htrie Hlabel (Nat.lt_succ_diag_r _) Hfresh)
    as (r' & Hins & Htrie' & Hlabel' & Hent).
  exists {| root := r'; min_suffix_len := min_suffix_len t |}.
  unfold insert. rewrite len_init, toks_clean by exact HG.
  rewrite Hins. cbn [bind root min_suffix_len].
  repeat split; try assumption.
  - intros He. apply Hent in He. exact He.
  - intros He. apply Hent. exact He.
Qed.

(** X8: what [insert] stores.  On a tree that holds texts of whole tokens
    ([trie]) and no path that ends in the terminator of fragment [frag],
    inserting a text of tokens [G] under the identity [(frag, 0)] succeeds
    and adds, for every offset [j] that leaves at least [min_suffix_len]
    tokens, the suffix of [G] from token [j] on, closed by the token
    [$frag], with the identity [(frag, j)]; it adds nothing else, drops
    nothing, and keeps the shape of the tree. *)
Theorem insert_stores_every_long_suffix (t : URLSuffixTree) (frag : nat)
    (G : list pystr) :
  0 < min_suffix_len t ->
  forallb clean_token G = true ->
  trie (root t) -> label (root t) = [] ->
  (forall e j, In e (entries (root t)) ->
               fst e <> skipn j G ++ [terminator_token frag]) ->
  exists t',
    insert t (URLString_init (concat G)) (frag, 0) = Ok t' /\
    min_suffix_len t' = min_suffix_len t /\
    trie (root t') /\ label (root t') = [] /\
    forall e, In e (entries (root t')) <->
              In e (entries (root t)) \/
              exists j, j + min_suffix_len t <= length G /\
                        e = (skipn j G ++ [terminator_token frag], (frag, j)).
Proof.
  intros Hm HG Htrie Hlabel Hfresh.
  destruct (@insert_spec t frag G Hm HG Htrie Hlabel Hfresh)
    as (t' & Hins & Hmin & Htrie' & Hlabel' & Hent).
  exists t'. repeat split; try assumption; apply Hent.
Qed.

(** The hypotheses of [insert_stores_every_long_suffix] hold for the empty
    tree of [main.py] and the fragment ["AB%41CD"] of five tokens. *)
Lemma insert_stores_every_long_suffix_witness :
  exists t',
    insert (URLSuffixTree_init MIN_OVERLAP) (URLString_init (lit "AB%41CD")) (7, 0)
    = Ok t' /\
    min_suffix_len t' = MIN_OVERLAP /\
    trie (root t') /\ label (root t') = [] /\
    forall e, In e (entries (root t')) <->
              In e [] \/
              exists j, j + MIN_OVERLAP <= 5 /\
                        e = (skipn j (toks (lit "AB%41CD")) ++ [terminator_token 7],
                             (7, j)).
Proof.
  apply (@insert_stores_every_long_suffix (URLSuffixTree_init MIN_OVERLAP) 7
           (toks (lit "AB%41CD"))).
  - vm_compute. lia.
  - vm_compute. reflexivity.
  - apply empty_node_trie.
  - reflexivity.
  - intros e j [].
Defined.

Lemma pystr_eqb_refl a : pystr_eqb a a = true.
Proof. now apply pystr_eqb_eq. Qed.

Lemma dict_get_set {V : Type} (d : list (pystr * V)) k v k' :
  dict_get (dict_set d k v) k' = if pystr_eqb k' k then Some v else dict_get d k'.
Proof.
  induction d as [|[k0 v0] d IH]; cbn [dict_set dict_get].
  - reflexivity.
  - destruct (pystr_eqb k k0) eqn:E; cbn [dict_get].
    + apply pystr_eqb_eq in E. subst k0.
      destruct (pystr_eqb k' k); reflexivity.
    + destruct (pystr_eqb k' k0) eqn:E0.
      * apply pystr_eqb_eq in E0. subst k0.
        destruct (pystr_eqb k' k) eqn:E1; [|reflexivity].
        apply pystr_eqb_eq in E1. subst k'.
        rewrite pystr_eqb_refl in E. discriminate.
      * exact IH.
Qed.

Lemma first_token s : s <> [] ->
  getitem (URLString_init s) 0 = Ok (URLString_init (nth 0 (toks s) [])) /\
  nth 0 (toks s) [] <> [].
Proof.
  intros Hs.
  assert (Hlen : 0 < length (toks s)).
  { destruct (toks s) eqn:E; [|cbn; lia].
    pose proof (concat_toks s) as Hc. rewrite E in Hc. cbn in Hc. congruence. }
  split; [now apply getitem_init|].
  exact (proj1 (Forall_forall _ _) (toks_nonempty s) _ (nth_In _ _ Hlen)).
Qed.

(** X9: [split] at a point that is not positive makes the new text a
    leaf of the node, filed under the first token of that text; the node
    keeps its text and identity, a lookup of that token now finds the new
    leaf (a child already filed there is replaced), and every other key
    finds what it found before. *)
Theorem split_at_the_start_files_a_child (self : URLSuffixTreeNode)
    (split_point : Z) (nb : pystr) (id' : option (nat * nat)) :
  (split_point <= 0)%Z -> nb <> [] ->
  exists n' key,
    split self split_point (URLString_init nb) id' = Ok n' /\
    key = nth 0 (tokens (URLString_init nb)) [] /\
    node_string n' = node_string self /\ identity n' = identity self /\
    dict_get (children n') key = Some (Node (URLString_init nb) id' []) /\
    forall k, k <> key -> dict_get (children n') k = dict_get (children self) k.
Proof.
  intros Hsp Hnb. destruct (first_token Hnb) as [Hfirst Hne].
  exists (Node (node_string self) (identity self)
            (dict_set (children self) (nth 0 (toks nb) [])
                      (Node (URLString_init nb) id' []))),
         (nth 0 (toks nb) []).
  split.
  - unfold split. destruct (Z.leb_spec split_point 0); [|lia].
    rewrite Hfirst. reflexivity.
  - split.
    + now rewrite tokens_toks.
    + split; [reflexivity|]. split; [reflexivity|].
      cbn [children]. split.
      * now rewrite dict_get_set, pystr_eqb_refl.
      * intros k Hk. rewrite dict_get_set.
        destruct (pystr_eqb k (nth 0 (toks nb) [])) eqn:E; [|reflexivity].
        apply pystr_eqb_eq in E. congruence.
Qed.

(** The hypotheses of [split_at_the_start_files_a_child] hold for the split
    point [-1] that [insert] passes and the text ["%41B$0"]. *)
Lemma split_at_the_start_files_a_child_witness :
  exists n' key,
    split empty_node (-1) (URLString_init (lit "%41B$0")) (Some (0, 2)) = Ok n' /\
    key = nth 0 (tokens (URLString_init (lit "%41B$0"))) [] /\
    node_string n' = node_string empty_node /\ identity n' = identity empty_node /\
    dict_get (children n') key
    = Some (Node (URLString_init (lit "%41B$0")) (Some (0, 2)) []) /\
    forall k, k <> key -> dict_get (children n') k = dict_get (children empty_node) k.
Proof.
  apply (@split_at_the_start_files_a_child empty_node (-1) (lit "%41B$0")
           (Some (0, 2))).
  - lia.
  - discriminate.
Defined.

(** X10: [split] at a token boundary inside the text of a node.  The node
    keeps the tokens before the boundary and loses its identity; the tokens
    from the boundary on, with the old identity and the old children, move
    to a child filed under the first of them, and the new text becomes a
    second child filed under its first token.  When the two first tokens
    are the same, the dictionary keeps only the new child under the key:
    the old text, identity and children are dropped. *)
Theorem split_inside_the_label (s nb : pystr) (ident id' : option (nat * nat))
    (cs : list (pystr * URLSuffixTreeNode)) (sp : nat) :
  0 < sp < len (URLString_init s) -> nb <> [] ->
  exists front back,
    getslice (URLString_init s) None (Some sp) = Ok front /\
    getslice (URLString_init s) (Some sp) None = Ok back /\
    split (Node (URLString_init s) ident cs) (Z.of_nat sp) (URLString_init nb) id'
    = Ok (Node front None
            (if pystr_eqb (nth 0 (tokens (URLString_init nb)) [])
                          (nth sp (tokens (URLString_init s)) [])
             then [(nth sp (tokens (URLString_init s)) [],
                    Node (URLString_init nb) id' [])]
             else [(nth sp (tokens (URLString_init s)) [], Node back ident cs);
                   (nth 0 (tokens (URLString_init nb)) [],
                    Node (URLString_init nb) id' [])])).
Proof.
  rewrite len_init, !tokens_toks. intros Hsp Hnb.
  destruct (first_token Hnb) as [Hnew _].
  exists (URLString_init (concat (firstn sp (toks s)))),
         (URLString_init (concat (skipn sp (toks s)))).
  split; [apply getslice_upto; lia|]. split; [apply getslice_from; lia|].
  unfold split. destruct (Z.leb_spec (Z.of_nat sp) 0); [lia|].
  rewrite Nat2Z.id. cbn [node_string].
  rewrite getslice_upto, getslice_from by lia. cbn [bind].
  rewrite getitem_init by (rewrite toks_skipn, length_skipn; lia).
  rewrite Hnew. cbn [bind string URLString_init identity children].
  rewrite toks_skipn, nth_skipn, Nat.add_0_r. cbn [dict_set].
  destruct (pystr_eqb (nth 0 (toks nb) []) (nth sp (toks s) [])); reflexivity.
Qed.

(** The hypotheses of [split_inside_the_label] hold for a leaf
    ["AB%41C$0"] split after its second token for the text ["XY$1"]. *)
Lemma split_inside_the_label_witness :
  exists front back,
    getslice (URLString_init (lit "AB%41C$0")) None (Some 2) = Ok front /\
    getslice (URLString_init (lit "AB%41C$0")) (Some 2) None = Ok back /\
    split (Node (URLString_init (lit "AB%41C$0")) (Some (0, 0)) []) 2
          (URLString_init (lit "XY$1")) (Some (1, 0))
    = Ok (Node front None
            [(lit "%41", Node back (Some (0, 0)) []);
             (lit "X", Node (URLString_init (lit "XY$1")) (Some (1, 0)) [])]).
Proof.
  apply (@split_inside_the_label (lit "AB%41C$0") (lit "XY$1") (Some (0, 0))
           (Some (1, 0)) [] 2).
  - vm_compute. split; repeat constructor.
  - discriminate.
Defined.

(** X11: the errors of [split].  An empty new text raises [IndexError]
    ([new_back_string[0]]) at every split point, and so does a positive
    split point at or beyond the end of the text of the node. *)
Theorem split_index_errors (s : pystr) (ident id' : option (nat * nat))
    (cs : list (pystr * URLSuffixTreeNode)) (split_point : Z) (nb : pystr) :
  split (Node (URLString_init s) ident cs) split_point (URLString_init []) id'
  = Raise IndexError /\
  ((Z.of_nat (len (URLString_init s)) <= split_point)%Z -> (0 < split_point)%Z ->
   split (Node (URLString_init s) ident cs) split_point (URLString_init nb) id'
   = Raise IndexError).
Proof.
  assert (Hz : forall sp (t : pystr),
             (0 < sp)%Z -> length (toks s) <= Z.to_nat sp ->
             split (Node (URLString_init s) ident cs) sp (URLString_init t) id'
             = Raise IndexError).
  { intros sp t Hpos Hsp. unfold split.
    destruct (Z.leb_spec sp 0); [lia|]. cbn [node_string].
    destruct (Nat.eq_dec (Z.to_nat sp) (length (toks s))) as [He|Hne].
    - rewrite getslice_upto by lia. cbn [bind].
      rewrite getslice_from by lia. cbn [bind].
      rewrite getitem_init_out; [reflexivity|].
      rewrite toks_skipn, length_skipn. lia.
    - unfold getslice at 1. unfold slice_bound.
      destruct (Z.to_nat sp) as [|k] eqn:Ek; [lia|]. cbn [bind].
      rewrite true_positions_bounds. unfold py_index.
      rewrite nth_error_bounds_none by lia. reflexivity. }
  rewrite len_init. split.
  - destruct (Z.leb_spec split_point 0) as [Hle|Hgt].
    + unfold split. destruct (Z.leb_spec split_point 0); [|lia]. reflexivity.
    + destruct (Nat.le_gt_cases (length (toks s)) (Z.to_nat split_point)) as [H|H].
      * now apply Hz.
      * unfold split. destruct (Z.leb_spec split_point 0); [lia|].
        cbn [node_string].
        rewrite getslice_upto, getslice_from by lia. cbn [bind].
        rewrite getitem_init by (rewrite toks_skipn, length_skipn; lia).
        reflexivity.
  - intros Hsp Hpos. apply Hz; [exact Hpos|lia].
Qed.

(** ** main.py: the index and the candidate lists *)

Lemma candidate_lists_mixed frs :
  Forall (Forall (fun x => clean_token x = true)) frs ->
  Forall (fun F => rstrip (concat F) = concat F) frs ->
  exists ja,
    candidate_lists (map (@concat ascii) frs) = Ok (fragment_objects frs, ja) /\
    length ja = length frs /\
    forall f F, nth_error frs f = Some F ->
      (MIN_OVERLAP <= length F ->
       exists snap, nth_error ja f = Some (Matches snap) /\
                    lists_overlaps frs F snap) /\
      (length F < MIN_OVERLAP -> nth_error ja f = Some Zero).
Proof.
  intros Hclean Hstrip.
  destruct (@build_index_spec frs Hclean Hstrip [] (URLSuffixTree_init MIN_OVERLAP))
    as (t & Hbuild & Ht & Hlab & Hent); auto.
  { apply empty_node_trie. }
  { intros e. split; [intros []|intros H; now apply indexed_nil in H]. }
  cbn [app length fragment_objects map] in Hbuild, Hent.
  fold (fragment_objects frs) in Hbuild.
  unfold candidate_lists. rewrite Hbuild. cbn [bind].
  set (n := length (fragment_objects frs)).
  assert (Hn : n = length frs) by (unfold n, fragment_objects; apply length_map).
  set (ws := writes (root t) (URLString_init (concat ([] ++ label (root t)))) []).
  assert (Hws : forall f snap, In (f, snap) ws ->
            exists F e, nth_error frs f = Some F /\ MIN_OVERLAP <= length F /\
                        In e (entries (root t)) /\
                        snd e = (f, 0) /\ explains [] (root t) [] e snap).
  { intros f snap Hin.
    destruct (@writes_explained (root t) Ht [] [] f snap) as (e & He & Hid & Hex);
      [constructor|exact Hin|].
    pose proof (proj1 (Hent e) He) as (p & F & j & Hp & Hj & Heq).
    assert (Hpj : p = f /\ j = 0) by (rewrite Heq in Hid; now injection Hid).
    destruct Hpj as [-> ->]. exists F, e. repeat split; assumption. }
  assert (Hbound : Forall (fun w => fst w < length (repeat Zero n)) ws).
  { apply Forall_forall. intros [f snap] Hin. cbn [fst]. rewrite repeat_length, Hn.
    destruct (Hws f snap Hin) as (F & _ & HF & _).
    apply nth_error_Some. congruence. }
  rewrite (root_path Ht Hlab).
  rewrite (dfs_join_writes Ht _ _ _ Hbound). cbn [bind].
  fold ws. exists (apply_writes (repeat Zero n) ws).
  split; [reflexivity|]. split; [now rewrite apply_writes_length, repeat_length|].
  intros f F Hf.
  assert (Hflt : f < length (repeat Zero n)).
  { rewrite repeat_length, Hn. apply nth_error_Some. congruence. }
  destruct (apply_writes_nth (repeat Zero n) ws Hflt)
    as [(snap & Hin & Hnth)|[Hnone Hsame]].
  - destruct (Hws f snap Hin) as (F' & e & HF' & Hlong & He & Hid & Hex).
    rewrite Hf in HF'. injection HF' as <-. split.
    + intros _. exists snap. split; [exact Hnth|].
      exact (explains_overlaps Hclean Ht Hlab Hent Hf He Hid Hex).
    + intros Hshort. lia.
  - split.
    + intros Hlong. exfalso.
      destruct (@writes_reach (root t) Ht
                  (URLString_init (concat ([] ++ label (root t))))
                  [] (F ++ [terminator_token f], (f, 0)) f) as [snap Hsnap].
      * apply Hent. exists f, F, 0. split; [exact Hf|]. split; [exact Hlong|reflexivity].
      * reflexivity.
      * exact (Hnone snap Hsnap).
    + intros _. rewrite Hsame. apply nth_error_repeat. now rewrite repeat_length in Hflt.
Qed.

Lemma candidate_lists_rstrip file_object :
  candidate_lists file_object = candidate_lists (map rstrip file_object).
Proof. unfold candidate_lists. now rewrite build_index_rstrip. Qed.

Lemma well_formed_lines_tokens file_object :
  well_formed_lines file_object = true ->
  map rstrip file_object = map (@concat ascii) (map line_tokens file_object) /\
  Forall (Forall (fun x => clean_token x = true)) (map line_tokens file_object) /\
  Forall (fun F => rstrip (concat F) = concat F) (map line_tokens file_object) /\
  fragment_objects (map line_tokens file_object)
  = map (fun line => URLString_init (rstrip line)) file_object.
Proof.
  intros H. unfold well_formed_lines in H.
  assert (Hc : forall line, concat (line_tokens line) = rstrip line).
  { intros line. unfold line_tokens. rewrite tokens_toks. apply concat_toks. }
  split; [|split; [|split]].
  - rewrite map_map. apply map_ext. intros line. now rewrite Hc.
  - apply Forall_map, Forall_forall. intros line Hl.
    apply forallb_clean. exact (proj1 (forallb_forall _ _) H line Hl).
  - apply Forall_map, Forall_forall. intros line _. rewrite Hc. apply rstrip_idem.
  - unfold fragment_objects. rewrite map_map. apply map_ext.
    intros line. now rewrite Hc.
Qed.

Lemma candidate_lists_lines file_object :
  well_formed_lines file_object = true ->
  exists ja,
    candidate_lists file_object
    = Ok (map (fun line => URLString_init (rstrip line)) file_object, ja) /\
    length ja = length file_object /\
    forall f line, nth_error file_object f = Some line ->
      (MIN_OVERLAP <= length (line_tokens line) ->
       exists snap, nth_error ja f = Some (Matches snap) /\
                    lists_overlaps (map line_tokens file_object)
                                   (line_tokens line) snap) /\
      (length (line_tokens line) < MIN_OVERLAP -> nth_error ja f = Some Zero).
Proof.
  intros H. destruct (well_formed_lines_tokens _ H) as (Hmap & Hclean & Hstrip & Hobj).
  destruct (candidate_lists_mixed Hclean Hstrip) as (ja & Hcl & Hlen & Hja).
  exists ja. rewrite candidate_lists_rstrip, Hmap, Hcl, Hobj.
  split; [reflexivity|]. split; [now rewrite Hlen, length_map|].
  intros f line Hf. apply Hja. rewrite nth_error_map, Hf. reflexivity.
Qed.

(** X12: step 1 of [reconstruct] on well-formed lines.  The loop succeeds,
    [fragments] holds the stripped lines in order, and the index stores
    exactly, for every line [p] and every offset [j] that leaves at least
    [MIN_OVERLAP] tokens, the suffix of line [p] from token [j] on, closed
    by the token [$p], with the identity [(p, j)]; a line of fewer than
    [MIN_OVERLAP] tokens leaves no trace in the index. *)
Theorem index_of_all_fragments (file_object : list pystr) :
  well_formed_lines file_object = true ->
  exists suffix_tree,
    build_index file_object 0 [] (URLSuffixTree_init MIN_OVERLAP)
    = Ok (map (fun line => URLString_init (rstrip line)) file_object, suffix_tree) /\
    trie (root suffix_tree) /\
    forall path p j,
      In (path, (p, j)) (entries (root suffix_tree)) <->
      exists line, nth_error file_object p = Some line /\
                   j + MIN_OVERLAP <= length (line_tokens line) /\
                   path = skipn j (line_tokens line) ++ [terminator_token p].
Proof.
  intros H. destruct (well_formed_lines_tokens _ H) as (Hmap & Hclean & Hstrip & Hobj).
  destruct (@build_index_spec (map line_tokens file_object) Hclean Hstrip []
              (URLSuffixTree_init MIN_OVERLAP))
    as (t & Hbuild & Ht & _ & Hent); auto.
  { apply empty_node_trie. }
  { intros e. split; [intros []|intros He; now apply indexed_nil in He]. }
  cbn [app length fragment_objects map] in Hbuild, Hent.
  fold (fragment_objects (map line_tokens file_object)) in Hbuild.
  exists t. rewrite build_index_rstrip, Hmap, Hbuild, Hobj.
  split; [reflexivity|]. split; [exact Ht|].
  intros path p j. rewrite Hent. unfold indexed. split.
  - intros (p' & F & j' & Hp & Hj & Heq). injection Heq as -> -> ->.
    rewrite nth_error_map in Hp.
    destruct (nth_error file_object p') as [line|] eqn:Hl; [|discriminate].
    injection Hp as <-. exists line. repeat split. exact Hj.
  - intros (line & Hl & Hj & ->). exists p, (line_tokens line), j.
    rewrite nth_error_map, Hl. repeat split. exact Hj.
Qed.

(** The hypothesis of [index_of_all_fragments] holds for three lines, the
    first with a line feed and the last of two tokens only. *)
Lemma index_of_all_fragments_witness :
  exists suffix_tree,
    build_index [lit "AB%41CD" ++ [ascii_of_nat 10]; lit "%41CDE"; lit "XY"] 0 []
                (URLSuffixTree_init MIN_OVERLAP)
    = Ok (map (fun line => URLString_init (rstrip line))
              [lit "AB%41CD" ++ [ascii_of_nat 10]; lit "%41CDE"; lit "XY"],
          suffix_tree) /\
    trie (root suffix_tree) /\
    forall path p j,
      In (path, (p, j)) (entries (root suffix_tree)) <->
      exists line,
        nth_error [lit "AB%41CD" ++ [ascii_of_nat 10]; lit "%41CDE"; lit "XY"] p
        = Some line /\
        j + MIN_OVERLAP <= length (line_tokens line) /\
        path = skipn j (line_tokens line) ++ [terminator_token p].
Proof.
  apply (@index_of_all_fragments
           [lit "AB%41CD" ++ [ascii_of_nat 10]; lit "%41CDE"; lit "XY"]).
  vm_compute. reflexivity.
Defined.

(** X13: what [dfs_join] finds.  On well-formed lines steps 1 and 2 of
    [reconstruct] succeed, and the candidate list of every line [f] of at
    least [MIN_OVERLAP] tokens holds exactly the overlaps into it: an
    entry [(g, u)] stands for a line [g] whose last [len(u)] tokens, at
    least [MIN_OVERLAP] and fewer than all of them, are the first tokens of
    line [f]; and every such pair of a line and a number of tokens has its
    entry ([g] may be [f] itself). *)
Theorem candidate_lists_hold_the_overlaps (file_object : list pystr) :
  well_formed_lines file_object = true ->
  exists join_array,
    candidate_lists file_object
    = Ok (map (fun line => URLString_init (rstrip line)) file_object, join_array) /\
    length join_array = length file_object /\
    forall f line,
      nth_error file_object f = Some line ->
      MIN_OVERLAP <= length (line_tokens line) ->
      exists snap,
        nth_error join_array f = Some (Matches snap) /\
        (forall g u, In (g, u) snap ->
           exists other, nth_error file_object g = Some other /\
             overlaps_by (line_tokens other) (line_tokens line) (len u)) /\
        (forall g other k, nth_error file_object g = Some other ->
           overlaps_by (line_tokens other) (line_tokens line) k ->
           exists u, In (g, u) snap /\ len u = k).
Proof.
  intros H. destruct (candidate_lists_lines _ H) as (ja & Hcl & Hlen & Hja).
  exists ja. split; [exact Hcl|]. split; [exact Hlen|].
  intros f line Hf Hlong.
  destruct (proj1 (Hja f line Hf) Hlong) as (snap & Hsnap & Hsound & Hcomplete).
  exists snap. split; [exact Hsnap|]. split.
  - intros g u Hin. destruct (Hsound g u Hin) as (G & HG & Ho).
    rewrite nth_error_map in HG.
    destruct (nth_error file_object g) as [other|]; [|discriminate].
    injection HG as <-. exists other. now split.
  - intros g other k Hg Ho. apply (Hcomplete g (line_tokens other) k); [|exact Ho].
    rewrite nth_error_map, Hg. reflexivity.
Qed.

(** The hypothesis of [candidate_lists_hold_the_overlaps] holds for three
    fragments of ["ABCDEFG"]. *)
Lemma candidate_lists_hold_the_overlaps_witness :
  exists join_array,
    candidate_lists [lit "ABCDE"; lit "BCDEF"; lit "CDEFG"]
    = Ok (map (fun line => URLString_init (rstrip line))
              [lit "ABCDE"; lit "BCDEF"; lit "CDEFG"], join_array) /\
    length join_array = 3 /\
    forall f line,
      nth_error [lit "ABCDE"; lit "BCDEF"; lit "CDEFG"] f = Some line ->
      MIN_OVERLAP <= length (line_tokens line) ->
      exists snap,
        nth_error join_array f = Some (Matches snap) /\
        (forall g u, In (g, u) snap ->
           exists other,
             nth_error [lit "ABCDE"; lit "BCDEF"; lit "CDEFG"] g = Some other /\
             overlaps_by (line_tokens other) (line_tokens line) (len u)) /\
        (forall g other k,
           nth_error [lit "ABCDE"; lit "BCDEF"; lit "CDEFG"] g = Some other ->
           overlaps_by (line_tokens other) (line_tokens line) k ->
           exists u, In (g, u) snap /\ len u = k).
Proof.
  apply (@candidate_lists_hold_the_overlaps [lit "ABCDE"; lit "BCDEF"; lit "CDEFG"]).
  vm_compute. reflexivity.
Defined.

Lemma empty_entries_placeholder ja :
  In Zero ja -> empty_entries ja = Raise TypeError.
Proof.
  induction ja as [|c ja IH]; intros H; [destruct H|].
  cbn [empty_entries]. destruct c as [|l]; [reflexivity|].
  destruct H as [H|H]; [discriminate|].
  cbn [cell_len bind]. now rewrite (IH H).
Qed.

(** X14: a line that is too short makes [reconstruct] raise.  When the
    lines are well formed and one of them has fewer than [MIN_OVERLAP]
    tokens, its entry of [join_array] is still the placeholder [0] of
    [[0] * len(fragments)] after the traversal, and step 3, which takes the
    [len] of every entry, raises [TypeError]. *)
Theorem short_line_raises_type_error unquote_plus (file_object : list pystr) :
  well_formed_lines file_object = true ->
  existsb (fun line => length (line_tokens line) <? MIN_OVERLAP) file_object = true ->
  reconstruct unquote_plus file_object = Raise TypeError.
Proof.
  intros H Hshort. destruct (candidate_lists_lines _ H) as (ja & Hcl & Hlen & Hja).
  apply existsb_exists in Hshort as (line & Hin & Hlt).
  apply Nat.ltb_lt in Hlt. apply In_nth_error in Hin as [f Hf].
  pose proof (proj2 (Hja f line Hf) Hlt) as Hzero.
  unfold reconstruct. rewrite Hcl. cbn [bind]. unfold assemble.
  rewrite (empty_entries_placeholder _ (nth_error_In _ _ Hzero)). reflexivity.
Qed.

(** The hypotheses of [short_line_raises_type_error] hold for the lines
    ["ABCDE"], ["CDEFG"] and ["XY"]. *)
Lemma short_line_raises_type_error_witness :
  reconstruct unquote_plus_ascii [lit "ABCDE"; lit "CDEFG"; lit "XY"]
  = Raise TypeError.
Proof.
  apply (@short_line_raises_type_error unquote_plus_ascii
           [lit "ABCDE"; lit "CDEFG"; lit "XY"]);
    vm_compute; reflexivity.
Defined.

(** ** main.py: the traversal *)

Lemma writes_from_entries n :
  trie n ->
  forall path stack f snap, In (f, snap) (writes n path stack) ->
    exists e, In e (entries n) /\ snd e = (f, 0).
Proof.
  induction n as [s ident cs IH] using node_induction.
  intros Hn path stack f snap Hin.
  destruct ident as [[f' [|off]]|].
  - cbn [writes] in Hin. destruct Hin as [Heq|[]]. injection Heq as -> _.
    exists (toks (string s), (f, 0)). split; [|reflexivity].
    apply in_entries. left. now split.
  - destruct (trie_leaf Hn (id := (f', S off)) eq_refl) as (Hcs & _).
    cbn in Hcs. subst cs. destruct Hin.
  - rewrite writes_internal in Hin.
    apply in_flat_map in Hin as ([k c] & Hkc & Hin). cbn [snd] in Hin.
    pose proof (proj1 (Forall_forall _ _) IH _ Hkc) as IHc. cbn [snd] in IHc.
    destruct (@trie_child_key (Node s None cs) k c Hn Hkc) as (Hc & _).
    destruct (IHc Hc _ _ _ _ Hin) as (e' & He' & Hid).
    exists (under (toks (string s)) e'). split; [|exact Hid].
    apply in_entries. right. exists k, c, e'. auto.
Qed.

(** X15: the stack discipline of [dfs_join].  On a tree that holds texts
    of whole tokens, with every stored fragment number inside
    [join_array], the traversal succeeds and returns with [match_stack] as
    it was at the call: every push is popped.  [join_array] keeps its
    length, and only the entries of fragments stored whole in the tree
    (identity [(f, 0)]) are assigned. *)
Theorem dfs_join_restores_the_stack (node : URLSuffixTreeNode) (path : URLString)
    (match_stack : list (nat * URLString)) (join_array : list cell) :
  trie node ->
  (forall e, In e (entries node) -> fst (snd e) < length join_array) ->
  exists join_array',
    dfs_join node path match_stack join_array = Ok (match_stack, join_array') /\
    length join_array' = length join_array /\
    forall f, (forall e, In e (entries node) -> snd e <> (f, 0)) ->
              nth_error join_array' f = nth_error join_array f.
Proof.
  intros Hn Hrange.
  assert (Hbound : Forall (fun w => fst w < length join_array)
                          (writes node path match_stack)).
  { apply Forall_forall. intros [f snap] Hin. cbn [fst].
    destruct (writes_from_entries Hn _ _ _ _ Hin) as (e & He & Hid).
    specialize (Hrange e He). rewrite Hid in Hrange. exact Hrange. }
  exists (apply_writes join_array (writes node path match_stack)).
  split; [now apply dfs_join_writes|]. split; [apply apply_writes_length|].
  intros f Hnone.
  destruct (Nat.lt_ge_cases f (length join_array)) as [Hlt|Hge].
  - destruct (apply_writes_nth join_array (writes node path match_stack) Hlt)
      as [(snap & Hin & _)|[_ Hsame]]; [|exact Hsame].
    destruct (writes_from_entries Hn _ _ _ _ Hin) as (e & He & Hid).
    now destruct (Hnone e He).
  - rewrite (proj2 (nth_error_None _ _) Hge). apply nth_error_None.
    now rewrite apply_writes_length.
Qed.

Lemma example_tree_1_spec :
  trie (root example_tree_1) /\
  forall e, In e (entries (root example_tree_1)) -> fst (snd e) = 0.
Proof.
  destruct (@insert_spec (URLSuffixTree_init MIN_OVERLAP) 0 (toks (lit "ABCDEF")))
    as (t' & Hins & _ & Htrie & _ & Hent).
  - vm_compute. lia.
  - vm_compute. reflexivity.
  - apply empty_node_trie.
  - reflexivity.
  - intros e j [].
  - assert (Ht : t' = example_tree_1).
    { assert (He : insert (URLSuffixTree_init MIN_OVERLAP)
                     (URLString_init (concat (toks (lit "ABCDEF")))) (0, 0)
                   = Ok example_tree_1) by (vm_compute; reflexivity).
      rewrite He in Hins. now injection Hins. }
    subst t'. split; [exact Htrie|].
    intros e He. apply Hent in He as [[]|(j & _ & ->)]. reflexivity.
Qed.

(** The hypotheses of [dfs_join_restores_the_stack] hold for the tree of
    the fragment ["ABCDEF"], traversed from its root with a stack of one
    entry. *)
Lemma dfs_join_restores_the_stack_witness :
  exists join_array',
    dfs_join (root example_tree_1) EMPTY_URL_STRING
             [(5, URLString_init (lit "XYZ"))] [Zero; Zero]
    = Ok ([(5, URLString_init (lit "XYZ"))], join_array') /\
    length join_array' = 2 /\
    forall f, (forall e, In e (entries (root example_tree_1)) -> snd e <> (f, 0)) ->
              nth_error join_array' f = nth_error [Zero; Zero] f.
Proof.
  apply (@dfs_join_restores_the_stack (root example_tree_1) EMPTY_URL_STRING
           [(5, URLString_init (lit "XYZ"))] [Zero; Zero]).
  - exact (proj1 example_tree_1_spec).
  - intros e He. rewrite (proj2 example_tree_1_spec e He). cbn. lia.
Defined.

(** ** main.py: the search *)

Lemma forallb_clean_all frs :
  forallb (forallb clean_token) frs = true ->
  Forall (Forall (fun x => clean_token x = true)) frs.
Proof.
  intros H. apply Forall_forall. intros F HF. apply forallb_clean.
  exact (proj1 (forallb_forall _ _) H F HF).
Qed.

(** X16: the base case of [stitch] on a chain.  Let [order] list every
    fragment once, and let [stitchings] give the first of them [-1] and
    every other one the fragment before it in [order], with [overlaps]
    giving its overlap [ks[i]], not more than its length.  Then the attempt
    merges them all into the object of the first fragment and returns the
    decoded text of the first fragment followed by every other fragment
    without its first [ks[i]] tokens. *)
Theorem stitch_attempt_merges_a_chain unquote_plus (frs : list (list pystr))
    (order ks : list nat) (stitchings : list Z) (overlaps : list nat) :
  frs <> [] ->
  forallb (forallb clean_token) frs = true ->
  Permutation order (seq 0 (length frs)) ->
  length ks = length order -> nth 0 ks 0 = 0 ->
  (forall i p, nth_error order i = Some p -> nth i ks 0 <= length (nth p frs [])) ->
  follows_chain order ks stitchings overlaps ->
  length stitchings = length frs ->
  stitch_attempt unquote_plus stitchings overlaps (fragment_objects frs)
  = Ok (Some (unquote_plus (concat (merge_chain frs order ks)))).
Proof.
  intros Hne Hclean Hperm Hks Hk0 Hfit Hchain Hlen.
  apply forallb_clean_all in Hclean.
  exact (@stitch_attempt_chain frs order ks stitchings overlaps
           Hclean Hperm Hks Hk0 Hfit Hchain Hlen unquote_plus Hne).
Qed.

(** The hypotheses of [stitch_attempt_merges_a_chain] hold for the
    fragments ["CDEF"] and ["ABCD"] when the second comes first and the
    first follows it with an overlap of two tokens. *)
Lemma stitch_attempt_merges_a_chain_witness :
  stitch_attempt unquote_plus_ascii [1%Z; (-1)%Z] [2; 0]
    (fragment_objects [toks (lit "CDEF"); toks (lit "ABCD")])
  = Ok (Some (lit "ABCDEF")).
Proof.
  apply (@stitch_attempt_merges_a_chain unquote_plus_ascii
           [toks (lit "CDEF"); toks (lit "ABCD")] [1; 0] [0; 2]
           [1%Z; (-1)%Z] [2; 0]).
  - discriminate.
  - vm_compute. reflexivity.
  - apply perm_swap.
  - reflexivity.
  - reflexivity.
  - intros [|[|[|i]]] p Hp; cbn in Hp; try discriminate;
      injection Hp as <-; vm_compute; lia.
  - split.
    + intros h Hh. cbn in Hh. injection Hh as <-. reflexivity.
    + intros [|[|[|i]]] q p Hq Hp; cbn in Hq, Hp; try discriminate.
      injection Hq as <-. injection Hp as <-. split; reflexivity.
  - reflexivity.
Defined.

Lemma try_candidates_restores
    (next : search_state -> result (option pystr * search_state)) target :
  (forall st r st', next st = Ok (r, st') -> truthy r = false ->
                    seen_array st' = seen_array st) ->
  forall cands st r st',
    try_candidates next target cands st = Ok (r, st') -> truthy r = false ->
    seen_array st' = seen_array st.
Proof.
  intros Hnext. induction cands as [|[pred text] cands IH]; intros st r st' H Hr.
  - cbn in H. now injection H as _ <-.
  - cbn [try_candidates] in H.
    apply bind_ok in H as (seen & Hseen & H).
    destruct (Nat.eqb_spec seen 0) as [->|_]; cbn [negb] in H;
      [|exact (IH _ _ _ H Hr)].
    apply bind_ok in H as (stitchings' & _ & H).
    apply bind_ok in H as (overlaps' & _ & H).
    apply bind_ok in H as (seen' & Hset & H).
    apply bind_ok in H as ([r0 st0] & Hcall & H). cbn in H.
    destruct (truthy r0) eqn:E.
    + injection H as <- <-. congruence.
    + apply bind_ok in H as (unseen & Hunset & H).
      rewrite (IH _ _ _ H Hr). cbn [seen_array].
      apply Hnext in Hcall; [|exact E]. cbn [seen_array] in Hcall.
      apply py_setitem_ok_inv in Hset as [_ ->].
      apply py_setitem_ok_inv in Hunset as [_ ->].
      rewrite Hcall. apply set_nth_undo.
      unfold py_index in Hseen.
      destruct (nth_error (seen_array st) pred); [|discriminate]. congruence.
Qed.

(** X17: backtracking leaves no flag behind.  When a call of [stitch]
    returns without a text ([None], or an empty text from the base case),
    [seen_array] is again as it was at the call: every candidate that was
    flagged on the way has been unflagged. *)
Theorem failed_stitch_restores_seen_array unquote_plus (depth : nat)
    (join_array : list cell) (index : nat) (search : list nat)
    (st : search_state) (fragments : list URLString)
    (r : option pystr) (st' : search_state) :
  stitch unquote_plus depth join_array index search st fragments = Ok (r, st') ->
  truthy r = false ->
  seen_array st' = seen_array st.
Proof.
  revert index st r st'.
  induction depth as [|depth IH]; intros index st r st' H Hr; cbn [stitch] in H;
    destruct (Nat.eqb_spec index (length join_array)) as [He|Hne].
  - apply bind_ok in H as (r0 & _ & H). now injection H as _ <-.
  - discriminate.
  - apply bind_ok in H as (r0 & _ & H). now injection H as _ <-.
  - apply bind_ok in H as (target & _ & H).
    apply bind_ok in H as (entry & _ & H).
    destruct entry as [|[|m ms]]; [discriminate| |].
    + apply bind_ok in H as (stitchings' & _ & H).
      apply bind_ok in H as ([r0 st0] & Hcall & H). cbn in H.
      injection H as <- <-.
      destruct (truthy r0) eqn:E; [congruence|].
      exact (IH _ _ _ _ Hcall E).
    + apply (try_candidates_restores
               (fun st0 => stitch unquote_plus depth join_array (index + 1)
                                  search st0 fragments)
               target (fun st0 r0 st1 => IH (index + 1) st0 r0 st1)
               (rev (m :: ms)) st H Hr).
Qed.

(** The hypotheses of [failed_stitch_restores_seen_array] hold for the
    search over ["ABCD"], ["BCDE"] and ["BCDX"]: both of the last two can
    only follow the first, which is flagged for ["BCDE"] and then
    unflagged. *)
Lemma failed_stitch_restores_seen_array_witness :
  seen_array (mkState [0; 0; 0] [(-1)%Z; 0%Z; 0%Z] [0; 3; 0])
  = seen_array (fresh_state 3).
Proof.
  apply (@failed_stitch_restores_seen_array unquote_plus_ascii 3
           [Matches []; Matches [(0, URLString_init (lit "BCD"))];
            Matches [(0, URLString_init (lit "BCD"))]]
           0 [0; 1; 2] (fresh_state 3)
           (fragment_objects [toks (lit "ABCD"); toks (lit "BCDE"); toks (lit "BCDX")])
           None).
  - vm_compute. reflexivity.
  - reflexivity.
Defined.

(** ** main.py: [reconstruct] *)

Lemma forced_heads_truthy_or_none unquote_plus ja frags :
  (forall j r, forced_attempt unquote_plus ja frags j = Ok r ->
               truthy r = true \/ r = None) ->
  forall js rv res,
    forced_heads unquote_plus js rv ja frags = Ok res ->
    (forall r, rv = Some r -> truthy r = true \/ r = None) ->
    forall r, res = Some r -> truthy r = true \/ r = None.
Proof.
  intros Hatt. induction js as [|j js IH]; intros rv res H Hrv r Hres.
  - cbn in H. injection H as <-. now apply Hrv.
  - cbn [forced_heads] in H. apply bind_ok in H as (r0 & Hr0 & H).
    destruct (truthy r0) eqn:E.
    + injection H as <-. injection Hres as <-. now left.
    + apply (IH _ _ H); [|exact Hres].
      intros r1 Hr1. injection Hr1 as <-. exact (Hatt _ _ Hr0).
Qed.

(** X18: [reconstruct] never returns an empty text.  Whatever the lines
    are, a call that returns yields [None] or a text of at least one
    character: step 3 treats an empty decoded text as a failure
    ([if result:]). *)
Theorem reconstruct_returns_text_or_none unquote_plus (file_object : list pystr)
    (r : option pystr) :
  reconstruct unquote_plus file_object = Ok r ->
  r = None \/ exists c s, r = Some (c :: s).
Proof.
  intros H.
  assert (Hshape : truthy r = true \/ r = None).
  { unfold reconstruct in H. apply bind_ok in H as ([fragments ja] & _ & H).
    destruct ja as [|c0 ja0].
    - cbn in H. discriminate.
    - destruct (@fallback_in_index_order unquote_plus (c0 :: ja0) fragments)
        as [Hsome Hnone]; [discriminate|].
      unfold assemble in H. destruct (empty_entries (c0 :: ja0)) as [[|x rest]|e] eqn:E.
      + cbn [bind] in H. destruct (Hnone eq_refl) as (_ & _ & Hatt).
        apply bind_ok in H as (res & Hres & H).
        destruct res as [r0|]; [|discriminate]. injection H as ->.
        apply (@forced_heads_truthy_or_none unquote_plus (c0 :: ja0) fragments Hatt
                 _ None (Some r) Hres); [|reflexivity].
        intros r1 Hr1. discriminate.
      + cbn [bind] in H.
        apply (@run_search_truthy_or_none unquote_plus (c0 :: ja0) fragments r);
          [discriminate|exact H].
      + discriminate. }
  destruct Hshape as [Ht| ->]; [|now left].
  right. destruct r as [[|c s]|]; try discriminate. eauto.
Qed.

(** The hypothesis of [reconstruct_returns_text_or_none] holds for the
    fragments ["ABCDE"] and ["CDEFG"]. *)
Lemma reconstruct_returns_text_or_none_witness :
  Some (lit "ABCDEFG") = None \/ exists c s, Some (lit "ABCDEFG") = Some (c :: s).
Proof.
  apply (@reconstruct_returns_text_or_none unquote_plus_ascii
           [lit "ABCDE"; lit "CDEFG"]).
  vm_compute. reflexivity.
Defined.

(** X19: [reconstruct] reads its lines up to their trailing white space
    only: two lists of lines that agree once each line is stripped on the
    right give the same result, be it a text, [None] or an exception. *)
Theorem reconstruct_ignores_trailing_white_space unquote_plus
    (lines lines' : list pystr) :
  map rstrip lines = map rstrip lines' ->
  reconstruct unquote_plus lines = reconstruct unquote_plus lines'.
Proof.
  intros H. rewrite (reconstruct_rstrip unquote_plus lines),
    (reconstruct_rstrip unquote_plus lines'). now rewrite H.
Qed.

(** The hypothesis of [reconstruct_ignores_trailing_white_space] holds for
    two lines with a line feed and with blanks after them, and the same
    lines bare. *)
Lemma reconstruct_ignores_trailing_white_space_witness :
  reconstruct unquote_plus_ascii
    [lit "ABCDE" ++ [ascii_of_nat 10]; lit "CDEFG  " ++ [ascii_of_nat 13; ascii_of_nat 10]]
  = reconstruct unquote_plus_ascii [lit "ABCDE"; lit "CDEFG"].
Proof.
  apply (@reconstruct_ignores_trailing_white_space unquote_plus_ascii
           [lit "ABCDE" ++ [ascii_of_nat 10];
            lit "CDEFG  " ++ [ascii_of_nat 13; ascii_of_nat 10]]
           [lit "ABCDE"; lit "CDEFG"]).
  vm_compute. reflexivity.
Defined.

Lemma seq_sorted a n : StronglySorted lt (seq a n).
Proof.
  revert a. induction n as [|n IH]; intros a; cbn [seq]; constructor.
  - apply IH.
  - apply Forall_forall. intros x Hx. apply in_seq in Hx. lia.
Qed.

Lemma combine_map_self {A B : Type} (f : A -> B) (l : list A) :
  combine (map f l) l = map (fun x => (f x, x)) l.
Proof. induction l as [|a l IH]; cbn; [reflexivity|]. now rewrite IH. Qed.

Lemma sort_insert_sorted (R : nat * nat -> nat * nat -> Prop) x l :
  (forall a b, R a b <-> fst a < fst b \/ (fst a = fst b /\ snd a < snd b)) ->
  StronglySorted R l -> Forall (fun y => snd x < snd y) l ->
  StronglySorted R (sort_insert x l).
Proof.
  intros HR Hs Hx. induction Hs as [|y l Hs IH Hy]; cbn [sort_insert].
  - repeat constructor.
  - apply Forall_cons_iff in Hx as [Hxy Hxl].
    destruct (Nat.leb_spec (fst x) (fst y)) as [Hle|Hgt].
    + constructor; [now constructor|].
      constructor; [apply HR; lia|].
      apply Forall_forall. intros z Hz.
      pose proof (proj1 (Forall_forall _ _) Hy z Hz) as Hyz. apply HR in Hyz.
      pose proof (proj1 (Forall_forall _ _) Hxl z Hz) as Hxz. cbn beta in Hxz.
      apply HR. lia.
    + constructor; [exact (IH Hxl)|].
      apply Forall_forall. intros z Hz.
      apply (Permutation_in _ (sort_insert_perm x l)) in Hz.
      destruct Hz as [<-|Hz]; [apply HR; lia|].
      exact (proj1 (Forall_forall _ _) Hy z Hz).
Qed.

Lemma sort_keyed_sorted (R : nat * nat -> nat * nat -> Prop) (f : nat -> nat) l :
  (forall a b, R a b <-> fst a < fst b \/ (fst a = fst b /\ snd a < snd b)) ->
  StronglySorted lt l ->
  StronglySorted R (sort_keyed (map (fun x => (f x, x)) l)).
Proof.
  intros HR Hl. induction Hl as [|x l Hl IH Hx]; [constructor|].
  unfold sort_keyed in *. cbn [map fold_right].
  apply sort_insert_sorted; [exact HR|exact IH|].
  apply Forall_forall. intros y Hy.
  apply (Permutation_in _ (sort_keyed_perm _)) in Hy.
  apply in_map_iff in Hy as (z & <- & Hz). cbn [snd].
  exact (proj1 (Forall_forall _ _) Hx z Hz).
Qed.

Lemma sorted_map_snd (f : nat -> nat) (L : list (nat * nat)) :
  Forall (fun y => fst y = f (snd y)) L ->
  StronglySorted (fun a b => fst a < fst b \/ (fst a = fst b /\ snd a < snd b)) L ->
  StronglySorted (fun a b => f a < f b \/ (f a = f b /\ a < b)) (map snd L).
Proof.
  intros Hf Hs. induction Hs as [|y L Hs IH Hy]; [constructor|].
  apply Forall_cons_iff in Hf as [Hfy HfL]. cbn [map].
  constructor; [exact (IH HfL)|].
  apply Forall_map, Forall_forall. intros z Hz.
  pose proof (proj1 (Forall_forall _ _) Hy z Hz) as Hyz.
  pose proof (proj1 (Forall_forall _ _) HfL z Hz) as Hfz. cbn beta in *.
  rewrite <- Hfy, <- Hfz. exact Hyz.
Qed.

(** X20: the order of the search.  When every entry of [join_array] is a
    list, [search] holds every fragment number below [n] exactly once,
    those with fewer candidates first and, among fragments with the same
    number of candidates, the smaller number first (the sort is stable);
    so a fragment without candidate, a possible head, is placed before any
    fragment that has one. *)
Theorem search_order_is_by_candidate_count (join_array : list cell) (n : nat) :
  (forall p, p < n -> exists snap, nth_error join_array p = Some (Matches snap)) ->
  exists search,
    sorted_search join_array n = Ok search /\
    Permutation search (seq 0 n) /\
    StronglySorted (searched_before join_array) search.
Proof.
  intros H. unfold sorted_search.
  rewrite (@map_result_ok _ _ _ (candidate_count join_array)).
  - cbn [bind]. eexists. split; [reflexivity|]. split.
    + rewrite (Permutation_map snd (sort_keyed_perm _)).
      rewrite map_snd_combine; [apply Permutation_refl|now rewrite length_map].
    + rewrite combine_map_self.
      apply (@sorted_map_snd (candidate_count join_array)).
      * apply Forall_forall. intros y Hy.
        apply (Permutation_in _ (sort_keyed_perm _)) in Hy.
        apply in_map_iff in Hy as (z & <- & _). reflexivity.
      * apply sort_keyed_sorted; [intros a b; reflexivity|apply seq_sorted].
  - intros x Hx. apply in_seq in Hx. destruct (H x) as [snap Hs]; [lia|].
    unfold py_index, candidate_count. rewrite Hs. reflexivity.
Qed.

(** The hypothesis of [search_order_is_by_candidate_count] holds for four
    candidate lists of 1, 0, 1 and 0 entries, searched in the order
    1, 3, 0, 2. *)
Lemma search_order_is_by_candidate_count_witness :
  exists search,
    sorted_search [Matches [(1, EMPTY_URL_STRING)]; Matches [];
                   Matches [(3, EMPTY_URL_STRING)]; Matches []] 4 = Ok search /\
    Permutation search (seq 0 4) /\
    StronglySorted
      (searched_before [Matches [(1, EMPTY_URL_STRING)]; Matches [];
                        Matches [(3, EMPTY_URL_STRING)]; Matches []]) search.
Proof.
  apply (@search_order_is_by_candidate_count
           [Matches [(1, EMPTY_URL_STRING)]; Matches [];
            Matches [(3, EMPTY_URL_STRING)]; Matches []] 4).
  intros [|[|[|[|p]]]] Hp; try lia; cbn; eauto.
Defined.

(** X21: step 3 without backtracking.  Let [order] list every fragment
    once.  When the first fragment of [order] has no candidate and the last
    candidate of every other one (the first that [stitch] tries) is the
    fragment before it in [order], with an overlap of [ks[i]] tokens, step
    3 returns the decoded text of the first fragment followed by every
    other fragment without its first [ks[i]] tokens, provided that text is
    not empty; the other candidates play no part. *)
Theorem assemble_follows_the_last_candidates unquote_plus
    (frs : list (list pystr)) (order ks : list nat) (join_array : list cell) :
  frs <> [] ->
  forallb (forallb clean_token) frs = true ->
  Permutation order (seq 0 (length frs)) ->
  length ks = length order -> nth 0 ks 0 = 0 ->
  (forall i p, nth_error order i = Some p -> nth i ks 0 <= length (nth p frs [])) ->
  length join_array = length frs ->
  (forall h, nth_error order 0 = Some h -> nth_error join_array h = Some (Matches [])) ->
  (forall i q p,
     nth_error order i = Some q -> nth_error order (S i) = Some p ->
     exists l u, nth_error join_array p = Some (Matches (l ++ [(q, u)])) /\
                 len u = nth (S i) ks 0) ->
  unquote_plus (concat (merge_chain frs order ks)) <> [] ->
  assemble unquote_plus join_array (fragment_objects frs)
  = Ok (Some (unquote_plus (concat (merge_chain frs order ks)))).
Proof.
  intros Hne Hclean. apply forallb_clean_all in Hclean.
  now apply assemble_chain.
Qed.

(** The hypotheses of [assemble_follows_the_last_candidates] hold for the
    fragments ["BCDEF"] and ["ABCD"], the second first, when the candidates
    of the first are a stray entry and then the second with three tokens. *)
Lemma assemble_follows_the_last_candidates_witness :
  assemble unquote_plus_ascii
    [Matches [(0, URLString_init (lit "B")); (1, URLString_init (lit "BCD"))];
     Matches []]
    (fragment_objects [toks (lit "BCDEF"); toks (lit "ABCD")])
  = Ok (Some (lit "ABCDEF")).
Proof.
  apply (@assemble_follows_the_last_candidates unquote_plus_ascii
           [toks (lit "BCDEF"); toks (lit "ABCD")] [1; 0] [0; 3]
           [Matches [(0, URLString_init (lit "B")); (1, URLString_init (lit "BCD"))];
            Matches []]).
  - discriminate.
  - vm_compute. reflexivity.
  - apply perm_swap.
  - reflexivity.
  - reflexivity.
  - intros [|[|[|i]]] p Hp; cbn in Hp; try discriminate;
      injection Hp as <-; vm_compute; lia.
  - reflexivity.
  - intros h Hh. cbn in Hh. injection Hh as <-. reflexivity.
  - intros [|[|[|i]]] q p Hq Hp; cbn in Hq, Hp; try discriminate.
    injection Hq as <-. injection Hp as <-.
    exists [(0, URLString_init (lit "B"))], (URLString_init (lit "BCD")).
    split; reflexivity.
  - vm_compute. discriminate.
Defined.

(** ** url_string.py: more on items and [+] *)

(** X22: the slice of one token is the item.  For every text and every
    [k], [u[k:k+1]] is [u[k]]: the same one-token [URLString] when
    [k < len(u)], and [IndexError] from both otherwise. *)
Theorem slice_of_one_token_is_the_item (s : pystr) (k : nat) :
  getslice (URLString_init s) (Some k) (Some (k + 1)) = getitem (URLString_init s) k.
Proof.
  unfold getslice, getitem, slice_bound.
  replace (k + 1) with (S k) by lia.
  destruct k as [|k].
  2:{ destruct (py_index (true_positions (URLString_init s)) (S k));
        cbn [bind]; [|reflexivity].
      destruct (py_index (true_positions (URLString_init s)) (S (S k)));
        reflexivity. }
  rewrite true_positions_bounds. unfold py_index at 2.
  assert (H0 : nth_error (bounds 0 (toks s)) 0 = Some 0)
    by (destruct (toks s); reflexivity).
  rewrite H0. cbn [bind]. destruct (py_index (bounds 0 (toks s)) 1); reflexivity.
Qed.

(** X23: [+] never loses a token: for every two texts, [a + b] has at
    least as many tokens as [a], whether [b] is a [URLString] or a [str];
    so the path that [dfs_join] extends child by child never gets
    shorter. *)
Theorem add_never_loses_a_token (sa sb : pystr) :
  len (URLString_init sa)
  <= len (URLString_add (URLString_init sa) (OfURL (URLString_init sb))) /\
  len (URLString_init sa) <= len (URLString_add (URLString_init sa) (OfStr sb)).
Proof.
  unfold URLString_add. cbn [string URLString_init]. rewrite !len_init.
  split; apply toks_app_length.
Qed.

(** ** url_suffix_tree.py: a minimum suffix length of 0 *)

Lemma bind_assoc {A B C : Type} (m : result A) (f : A -> result B)
    (g : B -> result C) :
  bind (bind m f) g = bind m (fun a => bind (f a) g).
Proof. destruct m; reflexivity. Qed.

Lemma bind_ext {A B : Type} (m : result A) (f g : A -> result B) :
  (forall a, m = Ok a -> f a = g a) -> bind m f = bind m g.
Proof. intros H. destruct m; cbn; [now apply H|reflexivity]. Qed.

(** With no minimum, [insert] goes on like [insert] with a minimum of one
    token until the text is used up, then stores the bare terminator and
    fails on [string[1:]] of the empty text. *)
Lemma insert_rec_zero f depth :
  forall root s off,
    len (URLString_init s) < depth ->
    insert_rec depth 0 root (URLString_init s) (f, off)
    = r1 <- insert_rec depth 1 root (URLString_init s) (f, off) ;;
      _ <- insert_walk
             (len (URLString_init (TERMINATOR :: py_str_of_nat f)))
             (URLString_init (TERMINATOR :: py_str_of_nat f))
             (f, off + len (URLString_init s)) r1 0%Z 0 ;;
      Raise IndexError.
Proof.
  induction depth as [|depth IH]; intros root s off Hlen; [lia|].
  cbn [insert_rec]. cbn [Nat.ltb Nat.leb fst snd].
  rewrite len_init in *.
  destruct (toks s) as [|x l] eqn:Htoks.
  - assert (Hs : s = []) by (rewrite <- (concat_toks s), Htoks; reflexivity).
    subst s. cbn [length Nat.leb bind].
    cbn [URLString_add string URLString_init app].
    rewrite Nat.add_0_r. apply bind_ext. intros a _. reflexivity.
  - cbn [length Nat.leb]. rewrite bind_assoc. apply bind_ext. intros root' _.
    rewrite getslice_from by (rewrite Htoks; cbn; lia).
    cbn [bind]. rewrite Htoks. cbn [skipn].
    rewrite IH.
    + apply bind_ext. intros r1 _.
      rewrite len_init.
      assert (Hl : toks (concat l) = l).
      { pose proof (toks_skipn s 1) as H. rewrite Htoks in H. exact H. }
      rewrite Hl. replace (off + 1 + length l) with (off + S (length l)) by lia.
      reflexivity.
    + rewrite len_init.
      pose proof (toks_skipn s 1) as H. rewrite Htoks in H. cbn [skipn] in H.
      rewrite H. cbn [length] in Hlen. lia.
Qed.

(** X24: a tree built with [min_suffix_len = 0] cannot take an insertion.
    On a tree that holds texts of whole tokens and no path that ends in the
    terminator of fragment [frag], [insert] of a well-formed text never
    returns: after the last suffix it goes on to the empty text, and
    [string[1:]] of the empty text raises [IndexError]. *)
Theorem insert_without_minimum_raises (t : URLSuffixTree) (frag : nat)
    (G : list pystr) :
  min_suffix_len t = 0 ->
  forallb clean_token G = true ->
  trie (root t) -> label (root t) = [] ->
  (forall e j, In e (entries (root t)) ->
               fst e <> skipn j G ++ [terminator_token frag]) ->
  insert t (URLString_init (concat G)) (frag, 0) = Raise IndexError.
Proof.
  intros Hm HG Htrie Hlabel Hfresh. apply forallb_clean in HG.
  unfold insert. rewrite Hm, insert_rec_zero by lia.
  rewrite len_init, toks_clean by exact HG.
  destruct (@insert_rec_spec 1 frag Nat.lt_0_1 (S (length G)) G 0
              (root t) HG Htrie Hlabel (Nat.lt_succ_diag_r _) Hfresh)
    as (r1 & Hins & Htrie1 & Hlabel1 & Hent).
  rewrite Hins. cbn [bind].
  assert (Htt : toks (TERMINATOR :: py_str_of_nat frag) = [] ++ [terminator_token frag])
    by (apply toks_terminator; reflexivity).
  destruct (@insert_walk_spec (TERMINATOR :: py_str_of_nat frag)
              (frag, 0 + length G) [] (terminator_token frag) Htt
              (Forall_nil _) (terminator_token_starts frag)
              1 r1 0 0 Htrie1 eq_refl)
    as (cur' & Hwalk & _).
  - cbn. lia.
  - lia.
  - intros _. exact Hlabel1.
  - constructor.
  - intros e He. cbn [firstn skipn app]. apply Hent in He as [He|(j & Hj & ->)].
    + pose proof (Hfresh e (length G) He) as Hne.
      rewrite skipn_all in Hne. exact Hne.
    + cbn [fst]. intros Heq.
      apply (f_equal (@length pystr)) in Heq.
      rewrite length_app, length_skipn in Heq. cbn in Heq. lia.
  - rewrite len_init, Htt. cbn [app length].
    change (Z.of_nat 0) with 0%Z in Hwalk. rewrite Hwalk. reflexivity.
Qed.

(** The hypotheses of [insert_without_minimum_raises] hold for an empty
    tree with no minimum and the fragment ["AB%41"]. *)
Lemma insert_without_minimum_raises_witness :
  insert (URLSuffixTree_init 0) (URLString_init (lit "AB%41")) (0, 0)
  = Raise IndexError.
Proof.
  apply (@insert_without_minimum_raises (URLSuffixTree_init 0) 0
           (toks (lit "AB%41"))).
  - reflexivity.
  - vm_compute. reflexivity.
  - apply empty_node_trie.
  - reflexivity.
  - intros e j [].
Defined.

(** ** main.py: a single fragment *)

Lemma assemble_single unquote_plus (F : list pystr) :
  Forall (fun x => clean_token x = true) F ->
  unquote_plus (concat F) <> [] ->
  assemble unquote_plus [Matches []] (fragment_objects [F])
  = Ok (Some (unquote_plus (concat F))).
Proof.
  intros HF Htext.
  pose proof (@assemble_chain unquote_plus [F] [0] [0] [Matches []]) as H.
  cbn [merge_chain nth skipn app] in H. rewrite app_nil_r in H.
  apply H; try reflexivity; try exact Htext.
  - discriminate.
  - repeat constructor. exact HF.
  - intros [|[|i]] p Hp; cbn in Hp; try discriminate. cbn. lia.
  - intros h Hh. cbn in Hh. now injection Hh as <-.
  - intros [|[|i]] q p Hq Hp; cbn in Hq, Hp; discriminate.
Qed.

(** X25: a file of one line.  When the line is well formed, has at least
    [MIN_OVERLAP] tokens and does not decode to the empty text,
    [reconstruct] returns its decoded text, also when the end of the line
    repeats its start: the line is then its own candidate, no candidate
    list is empty, and the fallback loop makes it the head. *)
Theorem single_line_is_returned unquote_plus (line : pystr) :
  forallb clean_token (line_tokens line) = true ->
  MIN_OVERLAP <= length (line_tokens line) ->
  unquote_plus (rstrip line) <> [] ->
  reconstruct unquote_plus [line] = Ok (Some (unquote_plus (rstrip line))).
Proof.
  intros Hclean Hlong Htext.
  assert (Hwf : well_formed_lines [line] = true)
    by (unfold well_formed_lines; cbn [forallb]; now rewrite Hclean).
  destruct (candidate_lists_lines _ Hwf) as (ja & Hcl & Hlen & Hja).
  destruct (proj1 (Hja 0 line eq_refl) Hlong) as (snap & Hsnap & _).
  destruct ja as [|c [|c' ja]]; try discriminate.
  cbn in Hsnap. injection Hsnap as ->.
  assert (Hc : concat (line_tokens line) = rstrip line).
  { unfold line_tokens. rewrite tokens_toks. apply concat_toks. }
  assert (Hone : assemble unquote_plus [Matches []]
                   [URLString_init (rstrip line)]
                 = Ok (Some (unquote_plus (rstrip line)))).
  { pose proof (@assemble_single unquote_plus (line_tokens line)
                  (forallb_clean _ Hclean)) as H.
    unfold fragment_objects in H. cbn [map] in H. rewrite Hc in H.
    now apply H. }
  unfold reconstruct. rewrite Hcl. cbn [bind map].
  destruct snap as [|m ms]; [exact Hone|].
  unfold assemble in *. cbn [empty_entries cell_len bind length Nat.eqb] in *.
  cbn [seq forced_heads]. unfold forced_attempt. cbn [py_setitem bind].
  rewrite Hone. cbn [bind].
  destruct (unquote_plus (rstrip line)); [congruence|reflexivity].
Qed.

(** The hypotheses of [single_line_is_returned] hold for the line
    ["ABCXABC"], whose last three tokens are its first three. *)
Lemma single_line_is_returned_witness :
  reconstruct unquote_plus_ascii [lit "ABCXABC"] = Ok (Some (lit "ABCXABC")).
Proof.
  apply (@single_line_is_returned unquote_plus_ascii (lit "ABCXABC")).
  - vm_compute. reflexivity.
  - vm_compute. lia.
  - vm_compute. discriminate.
Defined.
